(** * TradeFlight: the animation-to-video core of [ReusableCanvas.tsx]

    A shallow embedding of the layout engine, the per-frame render routine,
    the recorder life cycle, the MP4 export and the file-name generator of
    [src/components/ReusableCanvas.tsx], with the properties the
    specification states about them.

    Number model.  The development has two embeddings of a JavaScript
    [number].  In the first a number is a real number of the Standard
    Library ([R]), and integers that the code only counts or parses
    (minutes, calendar fields) are [Z] or [nat]: its theorems speak about
    the arithmetic the code writes down, evaluated exactly, and IEEE-754
    rounding, [NaN] and the infinities are outside it.  In the second
    (module [Ieee]) a number is a binary64 float, as in the program: it
    embeds the scale step, the segment loop, the marker walk, the label
    pass, the check of the times and the check of imported rows, for the
    properties that depend on rounding, on [NaN] or on how doubles
    compare. *)

From Stdlib Require Import Reals Lra Lia ZArith NArith List String Ascii Bool.
From Stdlib Require Import DecimalString.
From Stdlib Require Import Permutation.
From Stdlib Require Floats.
Import ListNotations.

Open Scope string_scope.
Open Scope list_scope.
Open Scope R_scope.

(* ================================================================= *)
(** ** JavaScript helpers *)

Module Js.

(** [a || b] on numbers: the left operand unless it is zero. *)
Definition orElse (a b : R) : R := if Req_dec_T a 0 then b else a.

(** A string is truthy when it is present and non-empty. *)
Definition truthy (s : option string) : bool :=
  match s with
  | Some (String _ _) => true
  | _ => false
  end.

(** [Math.min(...l)] and [Math.max(...l)].  On the empty list JavaScript
    answers with an infinity; the model answers 0, which no caller
    observes: both are only used under a [map] over the same list. *)
Fixpoint minOf (l : list R) : R :=
  match l with
  | [] => 0
  | [a] => a
  | a :: l' => Rmin a (minOf l')
  end.

Fixpoint maxOf (l : list R) : R :=
  match l with
  | [] => 0
  | [a] => a
  | a :: l' => Rmax a (maxOf l')
  end.

(** [s.split(sep)] for a one-character separator. *)
Fixpoint split (sep : ascii) (s : string) : list string :=
  match s with
  | EmptyString => [EmptyString]
  | String c s' =>
      if Ascii.eqb c sep then EmptyString :: split sep s'
      else match split sep s' with
           | [] => [String c EmptyString]
           | h :: t => String c h :: t
           end
  end.

Definition digitOf (c : ascii) : option Z :=
  let n := nat_of_ascii c in
  if (48 <=? n)%nat && (n <=? 57)%nat then Some (Z.of_nat (n - 48)) else None.

Fixpoint readDigits (s : string) (acc : Z) : option Z :=
  match s with
  | EmptyString => Some acc
  | String c s' =>
      match digitOf c with
      | Some d => readDigits s' (10 * acc + d)%Z
      | None => None
      end
  end.

(** [Number(s)] on the strings a time field holds: a run of decimal digits
    (the empty string converts to 0).  [None] stands for every other
    string, where JavaScript yields [NaN] or reads a literal form that a
    time field never carries. *)
Definition Number (s : string) : option Z := readDigits s 0.

(** [String(n)] for a natural number, and [padStart(2, "0")]. *)
Definition ofN (n : N) : string := NilZero.string_of_uint (N.to_uint n).

Definition padStart2 (s : string) : string :=
  match s with
  | EmptyString => "00"
  | String c EmptyString => String "0" (String c EmptyString)
  | _ => s
  end.

(** [Math.atan2(y, x)]. *)
Definition atan2 (y x : R) : R :=
  if Rlt_dec 0 x then atan (y / x)
  else if Rlt_dec x 0 then
         (if Rle_dec 0 y then atan (y / x) + PI else atan (y / x) - PI)
       else if Rlt_dec 0 y then PI / 2
            else if Rlt_dec y 0 then - (PI / 2) else 0.

End Js.

(* ================================================================= *)
(** ** Data model *)

Record Point := mkPoint { value : R; time : string }.

Inductive WatermarkType := WmImage | WmText.

Inductive Position :=
  TopLeft | TopCenter | TopRight | BottomLeft | BottomCenter | BottomRight.

Record WatermarkConfig := mkWatermark {
  enabled : bool;
  wtype : WatermarkType;
  imageUrl : option string;
  text : option string;
  position : Position;
  sizeRatio : R;
  opacity : R;
  margin : R
}.

(** [position.startsWith("top")], [.startsWith("bottom")],
    [.includes("right")], [.includes("center")]. *)
Definition isTop (p : Position) : bool :=
  match p with TopLeft | TopCenter | TopRight => true | _ => false end.

Definition isBottom (p : Position) : bool :=
  match p with BottomLeft | BottomCenter | BottomRight => true | _ => false end.

Definition isRight (p : Position) : bool :=
  match p with TopRight | BottomRight => true | _ => false end.

Definition isCenter (p : Position) : bool :=
  match p with TopCenter | BottomCenter => true | _ => false end.

(** The decoded watermark image held by [watermarkImageRef.current]. *)
Record Image := mkImage { naturalWidth : R; naturalHeight : R }.

(** [watermark?.enabled]. *)
Definition wmEnabled (w : option WatermarkConfig) : bool :=
  match w with Some c => enabled c | None => false end.

(** The component's props, with the image ref it keeps. *)
Record Props := mkProps {
  points : list Point;
  aspectRatio : string;
  duration : R;
  title : option string;
  description : option string;
  audioFile : bool;
  watermark : option WatermarkConfig;
  labelFontSize : R;
  watermarkImage : option Image
}.

Definition ratioMap (r : string) : option (R * R) :=
  if String.eqb r "16:9" then Some (1920, 1080)
  else if String.eqb r "1:1" then Some (1440, 1440)
  else if String.eqb r "9:16" then Some (1080, 1920)
  else if String.eqb r "4:5" then Some (1350, 1688)
  else None.

(* ================================================================= *)
(** ** Layout engine: the first half of [recordAnimation] *)

Module Layout.

(** The chart rectangle and the offsets the frame routine reads back. *)
Record Chart := mkChart {
  width : R;
  height : R;
  watermarkTopOffset : R;
  chartLeft : R;
  chartTop : R;
  graphWidth : R;
  graphHeight : R
}.

(** The estimated watermark height of the "safe layout" block. *)
Definition wmHeight (w : R) (c : WatermarkConfig) (img : option Image) : R :=
  let maxWidth := w * sizeRatio c in
  let h0 := 0 in
  let h1 :=
    match wtype c, img with
    | WmImage, Some i =>
        if Req_dec_T (naturalWidth i) 0 then h0
        else maxWidth / (naturalWidth i / naturalHeight i)
    | _, _ => h0
    end in
  match wtype c with
  | WmText => if Js.truthy (text c) then w * sizeRatio c * (2 / 10) else h1
  | WmImage => h1
  end.

Definition chartOf (p : Props) (w h : R) : Chart :=
  let wmH := match watermark p with
             | Some c => wmHeight w c (watermarkImage p)
             | None => 0
             end in
  let topOff := match watermark p with
                | Some c =>
                    if enabled c && isTop (position c)
                    then wmH + margin c * 2 else 0
                | None => 0
                end in
  let bottomOff := match watermark p with
                   | Some c =>
                       if enabled c && isBottom (position c)
                       then wmH + margin c * 2 else 0
                   | None => 0
                   end in
  let headerHeight :=
    120 + topOff
    + (if Js.truthy (title p) then 140 else 0)
    + (if Js.truthy (description p) then 110 else 0) in
  let gapBelowHeader := 120 in
  let baseBottom := if wmEnabled (watermark p) then 350 else 280 in
  let dynamicBottomPadding := baseBottom + labelFontSize p * 6 in
  let baseSide := 200 in
  let dynamicSidePadding := baseSide + labelFontSize p * 2 in
  let planeSize := 110 in
  let planeCompensation := planeSize / 2 in
  let opticalAdjustment := 20 in
  let leftPadding := dynamicSidePadding in
  let rightPadding := dynamicSidePadding + planeCompensation + opticalAdjustment in
  let bottomPadding := dynamicBottomPadding + bottomOff in
  let cTop := headerHeight + gapBelowHeader in
  let cBottom := h - bottomPadding in
  let cLeft := leftPadding in
  let cRight := w - rightPadding in
  {| width := w; height := h; watermarkTopOffset := topOff;
     chartLeft := cLeft; chartTop := cTop;
     graphWidth := cRight - cLeft; graphHeight := cBottom - cTop |}.

(** [time.split(":").map(Number)] destructured as [[h, m]]. *)
Definition hourMinute (t : string) : option (Z * Z) :=
  match Js.split ":" t with
  | h :: m :: _ =>
      match Js.Number h, Js.Number m with
      | Some hh, Some mm => Some (hh, mm)
      | _, _ => None
      end
  | _ => None
  end.

Definition minutesOf (t : string) : option Z :=
  match hourMinute t with
  | Some (h, m) => Some (h * 60 + m)%Z
  | None => None
  end.

(** [points.map(p => h * 60 + m)]; [None] when some time is not of the
    modelled form. *)
Fixpoint timesOf (ps : list Point) : option (list Z) :=
  match ps with
  | [] => Some []
  | p :: ps' =>
      match minutesOf (time p), timesOf ps' with
      | Some t, Some ts => Some (t :: ts)
      | _, _ => None
      end
  end.

(** [formatAMPM]. *)
Definition formatAMPM (t : string) : option string :=
  match hourMinute t with
  | Some (h, m) =>
      let suffix := if (12 <=? h)%Z then "PM" else "AM" in
      let hour := if (h mod 12 =? 0)%Z then 12%Z else (h mod 12)%Z in
      Some (Js.ofN (Z.to_N hour) ++ ":"
            ++ Js.padStart2 (Js.ofN (Z.to_N m)) ++ " " ++ suffix)%string
  | None => None
  end.

Record CalcPoint := mkCalc { x : R; y : R; cvalue : R; ctime : string }.

Definition calcPoint (c : Chart) (minTime maxTime minValue maxValue : R)
    (pt : Point * Z) : CalcPoint :=
  let (point, t) := pt in
  {| x := chartLeft c
          + ((IZR t - minTime) / Js.orElse (maxTime - minTime) 1) * graphWidth c;
     y := chartTop c + graphHeight c
          - ((value point - minValue) / Js.orElse (maxValue - minValue) 1)
            * graphHeight c;
     cvalue := value point;
     ctime := match formatAMPM (time point) with Some s => s | None => "" end |}.

Definition calculatedPointsAt (c : Chart) (ps : list Point) (tz : list Z)
    : list CalcPoint :=
  let times := map IZR tz in
  let minTime := Js.minOf times in
  let maxTime := Js.maxOf times in
  let maxValue := Js.maxOf (map value ps) in
  let minValue := Js.minOf (map value ps) in
  map (calcPoint c minTime maxTime minValue maxValue) (combine ps tz).

(** The segment loop: one Euclidean length per consecutive pair. *)
Definition segLen (a b : CalcPoint) : R :=
  let dx := x b - x a in
  let dy := y b - y a in
  sqrt (dx * dx + dy * dy).

Fixpoint segmentsOf (cps : list CalcPoint) : list R :=
  match cps with
  | a :: (b :: _) as rest => segLen a b :: segmentsOf rest
  | _ => []
  end.

(** [totalLength += len], starting from 0, in segment order. *)
Definition totalLengthOf (segments : list R) : R := fold_left Rplus segments 0.

(** The frozen geometry the frame routine closes over. *)
Record Snapshot := mkSnapshot {
  chart : Chart;
  calculatedPoints : list CalcPoint;
  segments : list R;
  totalLength : R
}.

(** [None]: the aspect ratio is not in [ratioMap] (the destructuring
    throws), or a time string is outside the modelled form. *)
Definition snapshot (p : Props) : option Snapshot :=
  match ratioMap (aspectRatio p), timesOf (points p) with
  | Some (w, h), Some tz =>
      let c := chartOf p w h in
      let cps := calculatedPointsAt c (points p) tz in
      let segs := segmentsOf cps in
      Some {| chart := c; calculatedPoints := cps; segments := segs;
              totalLength := totalLengthOf segs |}
  | _, _ => None
  end.

End Layout.

(* ================================================================= *)
(** ** The frame routine [animate] *)

Module Frame.
Import Layout.

(** [a <= b] and [a >= b] as the booleans JavaScript computes. *)
Definition leb (a b : R) : bool := if Rle_dec a b then true else false.
Definition geb (a b : R) : bool := if Rge_dec a b then true else false.

(** [Math.min((now - startTime) / animationDuration, 1)], where
    [animationDuration = duration * 1000]. *)
Definition progressAt (startTime dur now : R) : R :=
  Rmin ((now - startTime) / (dur * 1000)) 1.

(** *** The dashed path *)

Definition increaseColor : string := "#16a34a".
Definition decreaseColor : string := "#dc2626".

Record Stroke := mkStroke {
  strokeStyle : string;
  fromX : R; fromY : R;
  toX : R; toY : R
}.

Definition segmentColor (start stop : CalcPoint) : string :=
  if geb (cvalue stop) (cvalue start) then increaseColor else decreaseColor.

(** The loop over [segments]: iteration [i] reads [calculatedPoints[i]],
    [calculatedPoints[i + 1]] and [segments[i]]; the recursion walks the
    two arrays in step. *)
Fixpoint drawPath (cps : list CalcPoint) (segs : list R) (remaining : R)
    : list Stroke :=
  match cps, segs with
  | start :: ((stop :: _) as rest), seg :: segs' =>
      if Rle_dec remaining 0 then []
      else
        let color := segmentColor start stop in
        if Rge_dec remaining seg then
          mkStroke color (x start) (y start) (x stop) (y stop)
          :: drawPath rest segs' (remaining - seg)
        else
          let r := remaining / seg in
          mkStroke color (x start) (y start)
                   (x start + (x stop - x start) * r)
                   (y start + (y stop - y start) * r)
          :: drawPath rest segs' 0
  | _, _ => []
  end.

(** *** The moving marker *)

Record Plane := mkPlane { planeX : R; planeY : R; angle : R }.

Fixpoint planeWalk (cps : list CalcPoint) (segs : list R) (remain : R)
    (pl : Plane) : Plane :=
  match cps, segs with
  | start :: ((stop :: _) as rest), seg :: segs' =>
      if Rle_dec remain 0 then pl
      else
        let a := Js.atan2 (y stop - y start) (x stop - x start) in
        if Rge_dec remain seg then
          planeWalk rest segs' (remain - seg) (mkPlane (x stop) (y stop) a)
        else
          let r := remain / seg in
          mkPlane (x start + (x stop - x start) * r)
                  (y start + (y stop - y start) * r) a
  | _, _ => pl
  end.

(** [None]: [calculatedPoints[0]] is undefined and the frame throws. *)
Definition planeAt (s : Snapshot) (progress : R) : option Plane :=
  match calculatedPoints s with
  | [] => None
  | p0 :: _ =>
      Some (planeWalk (calculatedPoints s) (segments s)
                      (totalLength s * progress) (mkPlane (x p0) (y p0) 0))
  end.

(** *** Label placement *)

Record Box := mkBox { left : R; right : R; top : R; bottom : R }.

Definition baseOffset : R := 40.
Definition spacing : R := 12.
Definition padding : R := 14.

Definition overlaps (a b : Box) : bool :=
  negb (leb (right a) (left b) || geb (left a) (right b)
        || leb (bottom a) (top b) || geb (top a) (bottom b)).

(** One iteration of [for (const placed of placedLabels)]: the loop state
    is the candidate box and the [moved] flag. *)
Definition relocate (boxHeight : R) (st : Box * bool) (placed : Box)
    : Box * bool :=
  if overlaps (fst st) placed then
    let t := bottom placed + spacing in
    (mkBox (left (fst st)) (right (fst st)) t (t + boxHeight), true)
  else st.

(** One turn of the [while (moved)] body: [moved = false], then the scan. *)
Definition scan (boxHeight : R) (box : Box) (placedLabels : list Box)
    : Box * bool :=
  fold_left (relocate boxHeight) placedLabels (box, false).

(** [while (moved) { ... }], with a bound on the number of turns; [None]
    when the bound is used up with [moved] still set. *)
Fixpoint settle (turns : nat) (boxHeight : R) (box : Box)
    (placedLabels : list Box) : option Box :=
  match turns with
  | O => None
  | S turns' =>
      let (box', moved) := scan boxHeight box placedLabels in
      if moved then settle turns' boxHeight box' placedLabels
      else Some box'
  end.

(** The number of text lines of the label of point [index] out of [n]:
    the first and the last point carry a caption line. *)
Definition lineCount (n index : nat) : nat :=
  if Nat.eqb index 0 then 2%nat
  else if Nat.eqb index (n - 1) then 2%nat else 1%nat.

Definition labelBg (n index : nat) : string :=
  if Nat.eqb index 0 then "#d1fae5"
  else if Nat.eqb index (n - 1) then "#fee2e2" else "#f3f4f6".

Section Labels.

(** [fontSize] is [labelFontSize]; [lineWidth i] is the widest line of
    the label of point [i] as the canvas measures it, that is
    [Math.max(...lines.map(l => ctx.measureText(l).width))]. *)
Variable fontSize : R.
Variable lineWidth : nat -> R.

Definition boxHeightOf (n index : nat) : R :=
  INR (lineCount n index) * (fontSize * (14 / 10)) + padding * 2.

Definition boxWidthOf (index : nat) : R := lineWidth index + padding * 2.

(** The candidate box of a point before the collision loop. *)
Definition candidate (n index : nat) (p : CalcPoint) : Box :=
  let t := y p + baseOffset in
  mkBox (x p - boxWidthOf index / 2) (x p + boxWidthOf index / 2)
        t (t + boxHeightOf n index).

(** The body of [calculatedPoints.forEach] up to [placedLabels.push(box)].
    The loop is given one turn more than there are placed boxes. *)
Definition placeLabel (n index : nat) (p : CalcPoint) (placedLabels : list Box)
    : option Box :=
  settle (S (List.length placedLabels)) (boxHeightOf n index)
         (candidate n index p) placedLabels.

Fixpoint labelPass (n index : nat) (cps : list CalcPoint)
    (placedLabels : list Box) : option (list Box) :=
  match cps with
  | [] => Some placedLabels
  | p :: rest =>
      match placeLabel n index p placedLabels with
      | Some box => labelPass n (S index) rest (placedLabels ++ [box])
      | None => None
      end
  end.

(** [placedLabels] at the end of the label pass of one frame. *)
Definition placeLabels (cps : list CalcPoint) : option (list Box) :=
  labelPass (List.length cps) 0 cps [].

End Labels.

(** *** The watermark *)

Inductive DrawOp :=
| FillBackground (w h : R)
| WatermarkImage (x y w h alpha : R)
| WatermarkText (txt : string) (x y fontSize alpha : R)
| TitleText (txt : string) (x y : R)
| DescriptionText (txt : string) (x y : R)
| PathStroke (s : Stroke)
| Dot (x y : R)
| LabelTick (x y yTop : R)
| LabelBox (x yTop : R) (lines : nat) (bg : string)
| PlaneIcon (pl : Plane).

(** The "IMAGE WATERMARK" block.  The source holds it twice, word for
    word: in [drawWatermark] and inline in the final layer of [animate]. *)
Definition imageWatermark (c : Chart) (w : WatermarkConfig)
    (img : option Image) : list DrawOp :=
  match wtype w, img with
  | WmImage, Some i =>
      let maxWidth := width c * sizeRatio w in
      let aspect := naturalWidth i / naturalHeight i in
      let maxHeight := height c * (2 / 10) in
      let tooTall := if Rgt_dec (maxWidth / aspect) maxHeight then true else false in
      let drawWidth := if tooTall then maxHeight * aspect else maxWidth in
      let drawHeight := if tooTall then maxHeight else maxWidth / aspect in
      let x0 := if isCenter (position w) then width c / 2 - drawWidth / 2
                else if isRight (position w) then width c - drawWidth - margin w
                     else margin w in
      let y0 := if isBottom (position w) then height c - drawHeight - margin w
                else margin w in
      [WatermarkImage x0 y0 drawWidth drawHeight (opacity w)]
  | _, _ => []
  end.

(** The "TEXT WATERMARK" block of [drawWatermark]. *)
Definition textWatermark (c : Chart) (w : WatermarkConfig) : list DrawOp :=
  match wtype w, text w with
  | WmText, Some (String a s) =>
      let fontSize := width c * sizeRatio w * (2 / 10) in
      let x0 := if isRight (position w) then width c - margin w
                else if isCenter (position w) then width c / 2
                     else margin w in
      let y0 := if isBottom (position w) then height c - margin w
                else margin w + fontSize in
      [WatermarkText (String a s) x0 y0 fontSize (opacity w)]
  | _, _ => []
  end.

Definition drawWatermark (c : Chart) (wm : option WatermarkConfig)
    (img : option Image) : list DrawOp :=
  match wm with
  | Some w =>
      if enabled w then imageWatermark c w img ++ textWatermark c w else []
  | None => []
  end.

(** [watermark?.enabled && watermark.position.startsWith(...)]. *)
Definition wmAt (edge : Position -> bool) (wm : option WatermarkConfig) : bool :=
  match wm with
  | Some w => enabled w && edge (position w)
  | None => false
  end.

(** "DRAW WATERMARK FIRST IF TOP": what [animate] draws right after the
    background. *)
Definition topWatermarkLayer (c : Chart) (wm : option WatermarkConfig)
    (img : option Image) : list DrawOp :=
  if wmAt isTop wm then drawWatermark c wm img else [].

(** "WATERMARK (TOPMOST FINAL LAYER)": what [animate] draws after the
    plane icon. *)
Definition finalWatermarkLayer (c : Chart) (wm : option WatermarkConfig)
    (img : option Image) : list DrawOp :=
  match wm with
  | Some w =>
      if enabled w then
        imageWatermark c w img
        ++ (if wmAt isBottom wm then drawWatermark c wm img else [])
      else []
  | None => []
  end.

(** *** One frame *)

Definition headerLayer (p : Props) (c : Chart) : list DrawOp :=
  let headerCursor :=
    if Req_dec_T (watermarkTopOffset c) 0 then 120
    else 60 + watermarkTopOffset c in
  match title p with
  | Some (String a s) =>
      TitleText (String a s) (width c / 2) headerCursor
      :: match description p with
         | Some (String b d) =>
             [DescriptionText (String b d) (width c / 2) (headerCursor + 90)]
         | _ => []
         end
  | _ =>
      match description p with
      | Some (String b d) =>
          [DescriptionText (String b d) (width c / 2) headerCursor]
      | _ => []
      end
  end.

Fixpoint labelLayer (n index : nat) (cps : list CalcPoint) (boxes : list Box)
    : list DrawOp :=
  match cps, boxes with
  | p :: cps', b :: boxes' =>
      LabelTick (x p) (y p) (top b)
      :: LabelBox (x p) (top b) (lineCount n index) (labelBg n index)
      :: labelLayer n (S index) cps' boxes'
  | _, _ => []
  end.

(** What the tail of [animate] asks of the platform. *)
Inductive Next :=
| RequestFrame
| StopAfter (delay : R).

Record Drawn := mkDrawn { ops : list DrawOp; progress : R; next : Next }.

(** [animate(now)].  [None]: the frame throws before it schedules
    anything (no point to put the plane on). *)
Definition animate (p : Props) (lineWidth : nat -> R) (s : Snapshot)
    (startTime now : R) : option Drawn :=
  let c := chart s in
  let cps := calculatedPoints s in
  let pr := progressAt startTime (duration p) now in
  match placeLabels (labelFontSize p) lineWidth cps, planeAt s pr with
  | Some boxes, Some pl =>
      Some {| ops :=
                FillBackground (width c) (height c)
                :: topWatermarkLayer c (watermark p) (watermarkImage p)
                ++ headerLayer p c
                ++ map PathStroke (drawPath cps (segments s) (totalLength s * pr))
                ++ map (fun q => Dot (x q) (y q)) cps
                ++ labelLayer (List.length cps) 0 cps boxes
                ++ [PlaneIcon pl]
                ++ finalWatermarkLayer c (watermark p) (watermarkImage p);
              progress := pr;
              next := if Rlt_dec pr 1 then RequestFrame else StopAfter 500 |}
  | _, _ => None
  end.

End Frame.

(* ================================================================= *)
(** ** The recording session: frame callbacks and the stop timer *)

Module Recorder.
Import Frame.

(** What the platform delivers to the session. *)
Inductive Input :=
| Raf (now : R)
| TimerFired.

(** What the session does, in order. *)
Inductive Event :=
| FrameDrawn (progress : R)
| FrameRequested
| TimerSet (delay : R)
| RecorderStop.

Inductive Phase :=
| AwaitFrame
| AwaitTimer
| Stopped
| Crashed.

Section Session.

Variable p : Props.
Variable lineWidth : nat -> R.
Variable s : Layout.Snapshot.
Variable startTime : R.

(** One callback.  [None]: the platform has no such callback pending in
    this phase. *)
Definition step (ph : Phase) (i : Input) : option (Phase * list Event) :=
  match ph, i with
  | AwaitFrame, Raf now =>
      match animate p lineWidth s startTime now with
      | Some d =>
          match next d with
          | RequestFrame =>
              Some (AwaitFrame, [FrameDrawn (progress d); FrameRequested])
          | StopAfter delay =>
              Some (AwaitTimer, [FrameDrawn (progress d); TimerSet delay])
          end
      | None => Some (Crashed, [])
      end
  | AwaitTimer, TimerFired => Some (Stopped, [RecorderStop])
  | _, _ => None
  end.

(** The session from [requestAnimationFrame(animate)] on. *)
Fixpoint run (ph : Phase) (inputs : list Input) : option (Phase * list Event) :=
  match inputs with
  | [] => Some (ph, [])
  | i :: rest =>
      match step ph i with
      | Some (ph', evs) =>
          match run ph' rest with
          | Some (ph'', evs') => Some (ph'', evs ++ evs')
          | None => None
          end
      | None => None
      end
  end.

End Session.

(** The progress values of the frames of a trace, in drawing order. *)
Fixpoint framesOf (tr : list Event) : list R :=
  match tr with
  | [] => []
  | FrameDrawn pr :: tr' => pr :: framesOf tr'
  | _ :: tr' => framesOf tr'
  end.


Fixpoint increasing (l : list R) : Prop :=
  match l with
  | a :: ((b :: _) as rest) => a < b /\ increasing rest
  | _ => True
  end.

End Recorder.

(* ================================================================= *)
(** ** [generateFileName] *)

Module FileName.

(** The fields [generateFileName] reads from [new Date()]; [month] is
    [getMonth()], counted from 0. *)
Record Clock := mkClock {
  year : N; month : N; date : N;
  hours : N; minutes : N; seconds : N
}.

Definition pad (n : N) : string := Js.padStart2 (Js.ofN n).

Definition timestamp (now : Clock) : string :=
  Js.ofN (year now) ++ "-" ++ pad (month now + 1) ++ "-" ++ pad (date now)
  ++ "_" ++ pad (hours now) ++ "-" ++ pad (minutes now)
  ++ "-" ++ pad (seconds now).

Definition between (lo hi : nat) (c : ascii) : bool :=
  let n := nat_of_ascii c in ((lo <=? n) && (n <=? hi))%nat.

(** [toLowerCase] on the code units below 256: the ASCII capitals and
    the Latin-1 capitals (all of U+00C0..U+00DE but the sign U+00D7). *)
Definition lowerChar (c : ascii) : ascii :=
  let n := nat_of_ascii c in
  if between 65 90 c then ascii_of_nat (n + 32)
  else if between 192 222 c && negb (Nat.eqb n 215) then ascii_of_nat (n + 32)
       else c.

Fixpoint toLowerCase (s : string) : string :=
  match s with
  | EmptyString => EmptyString
  | String c s' => String (lowerChar c) (toLowerCase s')
  end.

(** The class [[a-z0-9]] under the [i] flag: the complement of what
    [/[^a-z0-9]/i] matches. *)
Definition isAlnum (c : ascii) : bool :=
  between 97 122 c || between 65 90 c || between 48 57 c.

Definition isHyphen (c : ascii) : bool := Ascii.eqb c "-".

(** [.replace(/[^a-z0-9]+/gi, "-")]: every maximal run of characters
    outside the class becomes one hyphen.  [inRun] tells that the
    character before belongs to a run already replaced. *)
Fixpoint replaceRuns (inRun : bool) (s : string) : string :=
  match s with
  | EmptyString => EmptyString
  | String c s' =>
      if isAlnum c then String c (replaceRuns false s')
      else if inRun then replaceRuns true s'
           else String "-" (replaceRuns true s')
  end.

Fixpoint allHyphens (s : string) : bool :=
  match s with
  | EmptyString => true
  | String c s' => isHyphen c && allHyphens s'
  end.

(** [.replace(/^-+|-+$/g, "")]: the hyphens at the start and the hyphens
    at the end are removed. *)
Fixpoint dropLeading (s : string) : string :=
  match s with
  | EmptyString => EmptyString
  | String c s' => if isHyphen c then dropLeading s' else s
  end.

Fixpoint dropTrailing (s : string) : string :=
  match s with
  | EmptyString => EmptyString
  | String c s' =>
      if allHyphens (String c s') then EmptyString
      else String c (dropTrailing s')
  end.

Definition trimHyphens (s : string) : string := dropTrailing (dropLeading s).

Definition sanitize (t : string) : string :=
  trimHyphens (replaceRuns false (toLowerCase t)).

Definition safeTitle (title : option string) : string :=
  match title with
  | Some (String c t) => sanitize (String c t)
  | _ => "tradeflight"
  end.

Definition generateFileName (now : Clock) (title : option string)
    (ext : string) : string :=
  safeTitle title ++ "-" ++ timestamp now ++ "." ++ ext.

(** *** The naming rule in the specification's words

    The title in lower case, cut into its maximal runs of letters and
    digits, the runs joined by single hyphens: nothing before the first
    run and nothing after the last. *)

Definition startsAlnum (s : string) : bool :=
  match s with
  | String c _ => isAlnum c
  | EmptyString => false
  end.

Fixpoint alnumRuns (s : string) : list string :=
  match s with
  | EmptyString => []
  | String c s' =>
      if isAlnum c then
        if startsAlnum s' then
          match alnumRuns s' with
          | w :: ws => String c w :: ws
          | [] => [String c EmptyString]
          end
        else String c EmptyString :: alnumRuns s'
      else alnumRuns s'
  end.

Definition slug (t : string) : string :=
  String.concat "-" (alnumRuns (toLowerCase t)).

End FileName.

(* ================================================================= *)
(** ** [downloadMp4] *)

Module Mp4Export.

(** How an awaited promise settles. *)
Inductive Settled := Fulfilled | Rejected | Pending.

(** What [ffmpeg.readFile] hands back when it fulfils. *)
Inductive FileData := TextData | BinaryData.

(** The collaborators of one [downloadMp4] call: how each awaited call
    settles, whether the engine is already loaded, the clock. *)
Record World := mkWorld {
  recordAnimation : Settled;
  ffmpegLoaded : bool;
  load : Settled;
  fetchVideo : Settled;
  writeVideo : Settled;
  fetchAudio : Settled;
  writeAudio : Settled;
  exec : Settled;
  readFile : Settled;
  readData : FileData;
  clock : FileName.Clock
}.

Inductive Effect :=
| ToastLoading (key : string)
| ToastSuccess (key : string)
| ToastError (key : string)
| FfmpegLoad
| FfmpegWrite (name : string)
| FfmpegExec (args : list string)
| FfmpegRead (name : string)
| AnchorClick (download : string).

(** The result of running a piece of an [async] function. *)
Inductive Result (A : Type) :=
| Done (a : A)
| Thrown
| Blocked.
Arguments Done {A} a.
Arguments Thrown {A}.
Arguments Blocked {A}.

(** Effects are logged in order; a thrown exception or a promise that
    never settles cuts the rest of the block short. *)
Definition M (A : Type) : Type := list Effect -> list Effect * Result A.

Definition ret {A} (a : A) : M A := fun log => (log, Done a).

Definition bind {A B} (m : M A) (k : A -> M B) : M B :=
  fun log =>
    match m log with
    | (log', Done a) => k a log'
    | (log', Thrown) => (log', Thrown)
    | (log', Blocked) => (log', Blocked)
    end.

Definition emit (e : Effect) : M unit := fun log => (log ++ [e], Done tt).

Definition throw {A} : M A := fun log => (log, Thrown).

Definition await (s : Settled) : M unit :=
  fun log =>
    match s with
    | Fulfilled => (log, Done tt)
    | Rejected => (log, Thrown)
    | Pending => (log, Blocked)
    end.

(** [try { body } catch { handler }]. *)
Definition tryCatch (body handler : M unit) : M unit :=
  fun log =>
    match body log with
    | (log', Thrown) => handler log'
    | r => r
    end.

Notation "m ;; k" := (bind m (fun _ => k))
  (at level 61, right associativity).

Definition when (b : bool) (m : M unit) : M unit := if b then m else ret tt.

Definition muxArgs : list string :=
  ["-i"; "input.webm"; "-i"; "audio"; "-c:v"; "libx264"; "-preset";
   "ultrafast"; "-c:a"; "aac"; "-shortest"; "output.mp4"].

Definition transcodeArgs : list string :=
  ["-i"; "input.webm"; "-c:v"; "libx264"; "-preset"; "ultrafast";
   "output.mp4"].

Definition tryBlock (w : World) (p : Props) : M unit :=
  await (recordAnimation w) ;;
  when (negb (ffmpegLoaded w)) (emit FfmpegLoad ;; await (load w)) ;;
  emit (ToastLoading "toast.preparingVideo") ;;
  await (fetchVideo w) ;;
  emit (FfmpegWrite "input.webm") ;; await (writeVideo w) ;;
  (if audioFile p then
     await (fetchAudio w) ;;
     emit (FfmpegWrite "audio") ;; await (writeAudio w) ;;
     emit (ToastLoading "toast.mergingAudio") ;;
     emit (FfmpegExec muxArgs) ;; await (exec w)
   else
     emit (FfmpegExec transcodeArgs) ;; await (exec w)) ;;
  emit (FfmpegRead "output.mp4") ;; await (readFile w) ;;
  match readData w with
  | TextData => throw
  | BinaryData =>
      emit (AnchorClick (FileName.generateFileName (clock w) (title p) "mp4")) ;;
      emit (ToastSuccess "toast.mp4Downloaded")
  end.

Definition downloadMp4 (w : World) (p : Props) : M unit :=
  emit (ToastLoading "toast.recording") ;;
  tryCatch (tryBlock w p) (emit (ToastError "toast.mp4Failed")).

(** The effects of one call, from an empty log. *)
Definition effectsOf (w : World) (p : Props) : list Effect :=
  fst (downloadMp4 w p []).

(** *** The stages of the specification

    The awaited steps on the path the call takes, in order, each with how
    it settles: the capture, the engine load (skipped when the engine is
    loaded), the write of the raw capture, the write of the audio (when
    there is audio), the transcode, the read-back (which also fails when
    it yields text instead of bytes). *)
Definition both (a b : Settled) : Settled :=
  match a with
  | Fulfilled => b
  | _ => a
  end.

Definition readBack (w : World) : Settled :=
  match readFile w, readData w with
  | Fulfilled, TextData => Rejected
  | r, _ => r
  end.

Definition stages (w : World) (p : Props) : list Settled :=
  [recordAnimation w]
  ++ (if ffmpegLoaded w then [] else [load w])
  ++ [both (fetchVideo w) (writeVideo w)]
  ++ (if audioFile p then [both (fetchAudio w) (writeAudio w)] else [])
  ++ [exec w; readBack w].

(** The first stage that does not fulfil, if any. *)
Fixpoint outcome (l : list Settled) : Settled :=
  match l with
  | [] => Fulfilled
  | Fulfilled :: l' => outcome l'
  | s :: _ => s
  end.

Definition isError (e : Effect) : bool :=
  match e with ToastError _ => true | _ => false end.

Definition isClick (e : Effect) : bool :=
  match e with AnchorClick _ => true | _ => false end.

Definition isSuccess (e : Effect) : bool :=
  match e with ToastSuccess _ => true | _ => false end.

End Mp4Export.

(* ================================================================= *)
(** ** Notions of the specification *)

Module Spec.
Import Layout.

(** [clamp(r, 0, 1)]. *)
Definition clamp01 (r : R) : R := Rmax 0 (Rmin r 1).

(** Times that strictly increase along the sequence, as the form upstream
    enforces it on each consecutive pair. *)
Fixpoint ascending (tz : list Z) : Prop :=
  match tz with
  | a :: ((b :: _) as rest) => (a < b)%Z /\ ascending rest
  | _ => True
  end.

(** The Euclidean distance between two pixel positions. *)
Definition distance (a b : CalcPoint) : R :=
  sqrt ((x b - x a) ^ 2 + (y b - y a) ^ 2).

(** The sum of the distances between consecutive points. *)
Fixpoint pathLength (cps : list CalcPoint) : R :=
  match cps with
  | a :: ((b :: _) as rest) => distance a b + pathLength rest
  | _ => 0
  end.


(** How many placed boxes a candidate whose top edge is at [t] can still
    be pushed below: the variant of the collision loop. *)
Definition reach (t : R) (placedLabels : list Frame.Box) : nat :=
  List.length
    (filter (fun pl => if Rlt_dec t (Frame.bottom pl + Frame.spacing)
                       then true else false)
            placedLabels).

(** A label box [b] that is rightly placed for point [p] (the [i]-th of
    [n]) after the boxes [earlier]: it is centred under the point with the
    label's width and height, sits at the base offset or lower, overlaps
    no earlier box, rests at the base offset or at an earlier box's bottom
    plus the spacing, and is pushed below such a box whenever the box at
    the base offset would have overlapped one. *)
Definition rightlyPlaced (fontSize : R) (lineWidth : nat -> R) (n i : nat)
    (p : CalcPoint) (earlier : list Frame.Box) (b : Frame.Box) : Prop :=
  Frame.left b = x p - Frame.boxWidthOf lineWidth i / 2
  /\ Frame.right b = x p + Frame.boxWidthOf lineWidth i / 2
  /\ Frame.bottom b = Frame.top b + Frame.boxHeightOf fontSize n i
  /\ y p + Frame.baseOffset <= Frame.top b
  /\ (forall e, In e earlier -> Frame.overlaps b e = false)
  /\ (Frame.top b = y p + Frame.baseOffset
      \/ exists e, In e earlier
           /\ Frame.top b = Frame.bottom e + Frame.spacing)
  /\ ((exists e, In e earlier
         /\ Frame.overlaps (Frame.candidate fontSize lineWidth n i p) e = true) ->
      y p + Frame.baseOffset < Frame.top b
      /\ exists e, In e earlier
           /\ Frame.top b = Frame.bottom e + Frame.spacing).

(** The number of effects of a kind in a log. *)
Definition countIf (f : Mp4Export.Effect -> bool) (log : list Mp4Export.Effect)
    : nat :=
  List.length (filter f log).

(** A clock reading of the common era as [Date] reports it. *)
Definition validClock (now : FileName.Clock) : Prop :=
  (1000 <= FileName.year now <= 9999)%N
  /\ (FileName.month now < 12)%N
  /\ (1 <= FileName.date now <= 31)%N
  /\ (FileName.hours now < 24)%N
  /\ (FileName.minutes now < 60)%N
  /\ (FileName.seconds now < 60)%N.

(** The two decimal digits of a number below 100. *)
Definition twoDigits (n : N) : string :=
  String (ascii_of_N (48 + n / 10))
         (String (ascii_of_N (48 + n mod 10)) EmptyString).

(** Every anchor click of the log comes after a read of the output file
    ([seen] tells that one was met). *)
Fixpoint clickFollowsRead (seen : bool) (log : list Mp4Export.Effect) : bool :=
  match log with
  | [] => true
  | Mp4Export.FfmpegRead _ :: log' => clickFollowsRead true log'
  | Mp4Export.AnchorClick _ :: log' => seen && clickFollowsRead seen log'
  | _ :: log' => clickFollowsRead seen log'
  end.

End Spec.

(* ================================================================= *)
(** ** Sample inputs *)

Module Samples.
Import Layout.

(** Two points with one value and one time. *)
Definition flatProps : Props :=
  mkProps [mkPoint 10 "09:00"; mkPoint 10 "09:00"] "1:1" 3 None None false
          None 24 None.

(** The scenario of the specification: up, then down, in three seconds. *)
Definition tripProps : Props :=
  mkProps [mkPoint 10 "09:00"; mkPoint 15 "09:05"; mkPoint 8 "09:10"]
          "1:1" 3 None None false None 24 None.

(** The same scenario with a title and an audio file. *)
Definition tripWithAudio : Props :=
  mkProps [mkPoint 10 "09:00"; mkPoint 15 "09:05"; mkPoint 8 "09:10"]
          "1:1" 3 (Some "My Trip!") None true None 24 None.

(** Three points at one place, whose labels all collide. *)
Definition stacked : list CalcPoint :=
  [mkCalc 0 0 10 "9:00 AM"; mkCalc 0 0 15 "9:05 AM"; mkCalc 0 0 8 "9:10 AM"].

(** An enabled image watermark anchored at the top left corner, and one
    anchored at the bottom right. *)
Definition topLogo : WatermarkConfig :=
  mkWatermark true WmImage (Some "/logo.png") None TopLeft (2 / 10) (8 / 10) 24.

Definition bottomLogo : WatermarkConfig :=
  mkWatermark true WmImage (Some "/logo.png") None BottomRight (2 / 10) (8 / 10) 24.

(** An export whose transcode command fails. *)
Definition transcodeFails : Mp4Export.World :=
  Mp4Export.mkWorld Mp4Export.Fulfilled false Mp4Export.Fulfilled
    Mp4Export.Fulfilled Mp4Export.Fulfilled Mp4Export.Fulfilled
    Mp4Export.Fulfilled Mp4Export.Rejected Mp4Export.Fulfilled
    Mp4Export.BinaryData (FileName.mkClock 2024 2 5 7 8 9).

(** 5 March 2024, 07:08:09. *)
Definition marchMorning : FileName.Clock := FileName.mkClock 2024 2 5 7 8 9.

End Samples.

(* ================================================================= *)
(** ** The point editor of [TradeFlightLayout] *)

Module Editor.
Import Layout.

(** [timeToMinutes] of the editor: an empty time counts as 0. *)
Definition timeToMinutes (t : string) : option Z :=
  match t with
  | EmptyString => Some 0%Z
  | String _ _ => minutesOf t
  end.

(** [addFiveMinutes].  The [Date] that the code sets and reads back is
    modelled as the clock of a day without a change of the civil time:
    [setHours(h)] then [setMinutes(m + 5)] carries the minutes into the
    hours and the hours round midnight. *)
Definition addFiveMinutes (t : string) : option string :=
  match t with
  | EmptyString => Some EmptyString
  | String _ _ =>
      match hourMinute t with
      | Some (h, m) =>
          let hours := ((h + (m + 5) / 60) mod 24)%Z in
          let minutes := ((m + 5) mod 60)%Z in
          Some (Js.padStart2 (Js.ofN (Z.to_N hours)) ++ ":"
                ++ Js.padStart2 (Js.ofN (Z.to_N minutes)))%string
      | None => None
      end
  end.

(** The two messages of [validateTimes]. *)
Inductive TimeError := TimeMissing | TimeOrder.

(** The loop of [validateTimes]; [prev] is the time of the point before.
    The result is the new [timeError] ([None] for [setTimeError(null)]);
    the outer [None] stands for a comparison of times outside the modelled
    form. *)
Fixpoint validateFrom (prev : option string) (ps : list Point)
    : option (option TimeError) :=
  match ps with
  | [] => Some None
  | p :: rest =>
      match time p with
      | EmptyString => Some (Some TimeMissing)
      | String _ _ =>
          match prev with
          | None => validateFrom (Some (time p)) rest
          | Some tp =>
              match timeToMinutes tp, timeToMinutes (time p) with
              | Some a, Some b =>
                  if (b <=? a)%Z then Some (Some TimeOrder)
                  else validateFrom (Some (time p)) rest
              | _, _ => None
              end
          end
      end
  end.

Definition validateTimes (ps : list Point) : option (option TimeError) :=
  validateFrom None ps.

(** The state of the form that the handlers below read and set;
    [parsedDuration] is [Number(durationInput)], [None] for [NaN]. *)
Record Form := mkForm {
  formPoints : list Point;
  timeError : option TimeError;
  formTitle : string;
  formDescription : string;
  parsedDuration : option R;
  formAspectRatio : string
}.

Definition withPoints (f : Form) (ps : list Point) (e : option TimeError)
    : Form :=
  mkForm ps e (formTitle f) (formDescription f) (parsedDuration f)
         (formAspectRatio f).

(** [validateTimes(updated); setPoints(updated)]. *)
Definition commit (f : Form) (updated : list Point) : option Form :=
  match validateTimes updated with
  | Some e => Some (withPoints f updated e)
  | None => None
  end.

(** [updated[index].field = ...]; [None] when [updated[index]] is
    undefined and the assignment throws. *)
Fixpoint updateAt (i : nat) (g : Point -> Point) (l : list Point)
    : option (list Point) :=
  match l, i with
  | [], _ => None
  | p :: l', O => Some (g p :: l')
  | p :: l', S i' =>
      match updateAt i' g l' with
      | Some u => Some (p :: u)
      | None => None
      end
  end.

(** [updatePoint(index, "value", v)], with [v] already a number. *)
Definition updateValue (f : Form) (index : nat) (v : R) : option Form :=
  match updateAt index (fun p => mkPoint v (time p)) (formPoints f) with
  | Some u => commit f u
  | None => None
  end.

(** [updatePoint(index, "time", t)]: a new first time also moves the
    second point five minutes after it. *)
Definition updateTime (f : Form) (index : nat) (t : string) : option Form :=
  match updateAt index (fun p => mkPoint (value p) t) (formPoints f) with
  | Some u =>
      match index, u with
      | O, a :: b :: rest =>
          match addFiveMinutes t with
          | Some t' => commit f (a :: mkPoint (value b) t' :: rest)
          | None => None
          end
      | _, _ => commit f u
      end
  | None => None
  end.

Definition lastOf (ps : list Point) : option Point :=
  nth_error ps (List.length ps - 1).

(** [addPoint]. *)
Definition addPoint (f : Form) : option Form :=
  match timeError f with
  | Some _ => Some f
  | None =>
      match lastOf (formPoints f) with
      | Some l =>
          match addFiveMinutes (time l) with
          | Some t' => commit f (formPoints f ++ [mkPoint (value l) t'])
          | None => None
          end
      | None => None
      end
  end.

(** [points.filter((_, i) => i !== index)]. *)
Definition removeAt (index : nat) (ps : list Point) : list Point :=
  firstn index ps ++ skipn (S index) ps.

(** [deletePoint]. *)
Definition deletePoint (f : Form) (index : nat) : option Form :=
  if (index <? 2)%nat then Some f
  else commit f (removeAt index (formPoints f)).

Inductive Direction := Up | Down.

(** [moveValue]: the values of two neighbours are swapped, the times
    stay; [timeError] is not touched. *)
Definition moveValue (f : Form) (index : nat) (dir : Direction) : option Form :=
  let ps := formPoints f in
  let target :=
    match dir, index with
    | Up, O => None
    | Up, S i => Some i
    | Down, i => Some (S i)
    end in
  match target with
  | None => Some f
  | Some newIndex =>
      if (List.length ps <=? newIndex)%nat then Some f
      else
        match nth_error ps index, nth_error ps newIndex with
        | Some a, Some b =>
            match updateAt index (fun p => mkPoint (value b) (time p)) ps with
            | Some u1 =>
                match updateAt newIndex (fun p => mkPoint (value a) (time p)) u1 with
                | Some u2 => Some (withPoints f u2 (timeError f))
                | None => None
                end
            | None => None
            end
        | _, _ => None
        end
  end.

(** [handleGenerate]: the configuration handed to the canvas, if any.
    The canvas fills in its defaults for what the form does not pass. *)
Definition handleGenerate (f : Form) : option Props :=
  match timeError f with
  | Some _ => None
  | None =>
      match parsedDuration f with
      | Some d =>
          if Req_dec_T d 0 then None
          else if Rle_dec d 0 then None
          else
            Some (mkProps (formPoints f) (formAspectRatio f) d
                          (match formTitle f with
                           | EmptyString => None
                           | t => Some t
                           end)
                          (match formDescription f with
                           | EmptyString => None
                           | t => Some t
                           end)
                          false None 24 None)
      | None => None
      end
  end.

(** The form as it is first shown. *)
Definition initialForm : Form :=
  mkForm [mkPoint 10 "09:00"; mkPoint 10 "09:05"] None "" "" (Some 5) "16:9".

(** What the user can do to the form. *)
Inductive Action :=
| SetValue (index : nat) (v : R)
| SetTime (index : nat) (t : string)
| AddPoint
| DeletePoint (index : nat)
| MoveValue (index : nat) (dir : Direction)
| SetTitle (t : string)
| SetDescription (t : string)
| SetDuration (d : option R)
| SetAspectRatio (r : string).

Definition act (f : Form) (a : Action) : option Form :=
  match a with
  | SetValue i v => updateValue f i v
  | SetTime i t => updateTime f i t
  | AddPoint => addPoint f
  | DeletePoint i => deletePoint f i
  | MoveValue i dir => moveValue f i dir
  | SetTitle t =>
      Some (mkForm (formPoints f) (timeError f) t (formDescription f)
                   (parsedDuration f) (formAspectRatio f))
  | SetDescription t =>
      Some (mkForm (formPoints f) (timeError f) (formTitle f) t
                   (parsedDuration f) (formAspectRatio f))
  | SetDuration d =>
      Some (mkForm (formPoints f) (timeError f) (formTitle f)
                   (formDescription f) d (formAspectRatio f))
  | SetAspectRatio r =>
      Some (mkForm (formPoints f) (timeError f) (formTitle f)
                   (formDescription f) (parsedDuration f) r)
  end.

Fixpoint actAll (f : Form) (l : list Action) : option Form :=
  match l with
  | [] => Some f
  | a :: l' =>
      match act f a with
      | Some f' => actAll f' l'
      | None => None
      end
  end.

End Editor.

(* ================================================================= *)
(** ** Notions about the editor *)

Module EditorView.
Import Editor.

(** The error shown is the verdict of [validateTimes] on the points
    shown. *)
Definition consistent (f : Form) : Prop :=
  validateTimes (formPoints f) = Some (timeError f).

(** The values of the points [i] and [i + 1] exchanged, the times kept. *)
Fixpoint swapValuesAt (i : nat) (ps : list Point) : list Point :=
  match i, ps with
  | O, a :: b :: rest =>
      mkPoint (value b) (time a) :: mkPoint (value a) (time b) :: rest
  | S i', a :: rest => a :: swapValuesAt i' rest
  | _, _ => ps
  end.

End EditorView.

(* ================================================================= *)
(** ** Views of a frame *)

Module View.
Import Layout Frame.

(** The strokes of the dashed path among the drawing operations. *)
Fixpoint strokesOf (l : list DrawOp) : list Stroke :=
  match l with
  | [] => []
  | PathStroke st :: l' => st :: strokesOf l'
  | _ :: l' => strokesOf l'
  end.

(** The centres of the marker circles. *)
Fixpoint dotsOf (l : list DrawOp) : list (R * R) :=
  match l with
  | [] => []
  | Dot a b :: l' => (a, b) :: dotsOf l'
  | _ :: l' => dotsOf l'
  end.

(** The plane icons. *)
Fixpoint planesOf (l : list DrawOp) : list Plane :=
  match l with
  | [] => []
  | PlaneIcon pl :: l' => pl :: planesOf l'
  | _ :: l' => planesOf l'
  end.

(** The label boxes: where each is drawn. *)
Fixpoint labelsOf (l : list DrawOp) : list (R * R) :=
  match l with
  | [] => []
  | LabelBox a t _ _ :: l' => (a, t) :: labelsOf l'
  | _ :: l' => labelsOf l'
  end.

Definition isWatermarkOp (o : DrawOp) : bool :=
  match o with
  | WatermarkImage _ _ _ _ _ | WatermarkText _ _ _ _ _ => true
  | _ => false
  end.

(** The watermark drawings. *)
Definition watermarksOf (l : list DrawOp) : list DrawOp :=
  filter isWatermarkOp l.

(** Where a stroke ends. *)
Definition strokeEnd (st : Stroke) : R * R := (toX st, toY st).

(** The whole polyline: one full stroke per consecutive pair of points. *)
Fixpoint fullStrokes (cps : list CalcPoint) : list Stroke :=
  match cps with
  | a :: ((b :: _) as rest) =>
      mkStroke (segmentColor a b) (x a) (y a) (x b) (y b) :: fullStrokes rest
  | _ => []
  end.

End View.

(* ================================================================= *)
(** ** Well-formed file-name prefixes *)

Module Slug.
Import FileName.

(** A lower-case ASCII letter or a digit. *)
Definition lowerOrDigit (c : ascii) : bool :=
  between 97 122 c || between 48 57 c.

Fixpoint allChars (f : ascii -> bool) (s : string) : bool :=
  match s with
  | EmptyString => true
  | String c s' => f c && allChars f s'
  end.

(** Letters and digits in lower case, separated by single hyphens, with
    no hyphen at the start or at the end; [afterHyphen] tells that the
    character before was a hyphen, or that the string starts here. *)
Fixpoint wellFormed (afterHyphen : bool) (s : string) : bool :=
  match s with
  | EmptyString => negb afterHyphen
  | String c s' =>
      if isHyphen c then negb afterHyphen && wellFormed true s'
      else lowerOrDigit c && wellFormed false s'
  end.

(** The title holds a letter or a digit of the ASCII alphabet. *)
Fixpoint hasAlnum (t : string) : bool :=
  match t with
  | EmptyString => false
  | String c t' => isAlnum (lowerChar c) || hasAlnum t'
  end.

End Slug.

(* ================================================================= *)
(** ** Further sample inputs *)

Module MoreSamples.


(** The sample scenario with a text watermark at the bottom right. *)
Definition textMarkProps : Props :=
  mkProps [mkPoint 10 "09:00"; mkPoint 15 "09:05"; mkPoint 8 "09:10"]
          "1:1" 3 None None false
          (Some (mkWatermark true WmText None (Some "demo") BottomRight
                             (2 / 10) (8 / 10) 24))
          24 None.

(** The sample scenario with the logo at the top left, its image held. *)
Definition logoProps : Props :=
  mkProps [mkPoint 10 "09:00"; mkPoint 15 "09:05"; mkPoint 8 "09:10"]
          "1:1" 3 None None false (Some Samples.topLogo) 24
          (Some (mkImage 400 200)).

(** A form of two points with different values. *)
Definition risingForm : Editor.Form :=
  Editor.mkForm [mkPoint 10 "09:00"; mkPoint 15 "09:05"] None "" ""
                (Some 5) "16:9".

(** A configuration without points. *)
Definition emptyProps : Props :=
  mkProps [] "1:1" 3 None None false None 24 None.

End MoreSamples.

(* ================================================================= *)
(** * The time picker *)

(** The utilities, the state and the handlers of the [TimePicker]
    component.  Hours and minutes are integers: the handlers only ever
    build them from runs of digits, from the parsed value of the parent and
    from sums and differences with [stepMinutes]. *)
Module TimePicker.
Import Layout.

Inductive Period := AM | PM.

Definition Period_eqb (p q : Period) : bool :=
  match p, q with
  | AM, AM | PM, PM => true
  | _, _ => false
  end.

(** The three pieces of state: [hour], [minute] and [period]. *)
Record Picked := mkPicked { hour : Z; minute : Z; period : Period }.

(** [num.toString()] for an integer. *)
Definition toString (num : Z) : string :=
  match num with
  | Zneg p => String "-" (Js.ofN (Npos p))
  | _ => Js.ofN (Z.to_N num)
  end.

Definition pad (num : Z) : string := Js.padStart2 (toString num).

Definition wrapHour (num : Z) : Z :=
  if (12 <? num)%Z then 1%Z
  else if (num <? 1)%Z then 12%Z
  else num.

(** [val.replace(/\D/g, "")]. *)
Fixpoint digitsOnly (val : string) : string :=
  match val with
  | EmptyString => EmptyString
  | String c val' =>
      match Js.digitOf c with
      | Some _ => String c (digitsOnly val')
      | None => digitsOnly val'
      end
  end.

(** [convert24To12]; [h % 12] is the remainder of the truncated division.
    [None] where the value is not of the form that [hourMinute] reads. *)
Definition convert24To12 (val : string) : option Picked :=
  match val with
  | EmptyString => Some (mkPicked 9 0 AM)
  | String _ _ =>
      match hourMinute val with
      | Some (h, m) =>
          let period := if (12 <=? h)%Z then PM else AM in
          let hour12 := if (Z.rem h 12 =? 0)%Z then 12%Z else Z.rem h 12 in
          Some (mkPicked hour12 m period)
      | None => None
      end
  end.

Definition convert12To24 (h m : Z) (p : Period) : string :=
  let hour := h in
  let hour := if Period_eqb p PM && negb (hour =? 12)%Z
              then (hour + 12)%Z else hour in
  let hour := if Period_eqb p AM && (hour =? 12)%Z then 0%Z else hour in
  (pad hour ++ ":" ++ pad m)%string.

(** The value that the second effect hands to [onChange]. *)
Definition emitted (s : Picked) : string :=
  convert12To24 (hour s) (minute s) (period s).

(** What the user can do to the picker. *)
Inductive Gesture :=
| HourTyped (val : string)
| MinuteTyped (val : string)
| HourArrowUp
| HourArrowDown
| MinuteArrowUp
| MinuteArrowDown
| PeriodChosen (p : Period).

Section Step.

Variable stepMinutes : Z.

Definition wrapMinute (num : Z) : Z :=
  if (60 <=? num)%Z then 0%Z
  else if (num <? 0)%Z then (60 - stepMinutes)%Z
  else num.

(** [Math.round(num / stepMinutes) * stepMinutes].  [Math.round] of a
    quotient of integers is the floor of the quotient plus one half, that
    is the floored quotient of [2 * num + stepMinutes] by
    [2 * stepMinutes]; [None] for the division by a zero step. *)
Definition roundToStep (num : Z) : option Z :=
  if (stepMinutes =? 0)%Z then None
  else Some ((2 * num + stepMinutes) / (2 * stepMinutes) * stepMinutes)%Z.

Definition handleHourChange (s : Picked) (val : string) : option Picked :=
  match Js.Number (digitsOnly val) with
  | Some num =>
      if (num =? 0)%Z then Some s
      else Some (mkPicked (wrapHour num) (minute s) (period s))
  | None => Some s
  end.

Definition handleMinuteChange (s : Picked) (val : string) : option Picked :=
  match Js.Number (digitsOnly val) with
  | Some num =>
      match roundToStep num with
      | Some stepped =>
          Some (mkPicked (hour s) (wrapMinute stepped) (period s))
      | None => None
      end
  | None => Some s
  end.

Definition handle (s : Picked) (g : Gesture) : option Picked :=
  match g with
  | HourTyped val => handleHourChange s val
  | MinuteTyped val => handleMinuteChange s val
  | HourArrowUp =>
      Some (mkPicked (wrapHour (hour s + 1)) (minute s) (period s))
  | HourArrowDown =>
      Some (mkPicked (wrapHour (hour s - 1)) (minute s) (period s))
  | MinuteArrowUp =>
      Some (mkPicked (hour s) (wrapMinute (minute s + stepMinutes)) (period s))
  | MinuteArrowDown =>
      Some (mkPicked (hour s) (wrapMinute (minute s - stepMinutes)) (period s))
  | PeriodChosen p => Some (mkPicked (hour s) (minute s) p)
  end.

Fixpoint handleAll (s : Picked) (gs : list Gesture) : option Picked :=
  match gs with
  | [] => Some s
  | g :: gs' =>
      match handle s g with
      | Some s' => handleAll s' gs'
      | None => None
      end
  end.

End Step.

(** The hour of the day that a state stands for. *)
Definition hour24 (s : Picked) : Z :=
  match period s with
  | PM => if (hour s =? 12)%Z then 12%Z else (hour s + 12)%Z
  | AM => if (hour s =? 12)%Z then 0%Z else hour s
  end.

(** A state on the dial: an hour from 1 to 12 and a minute of the hour. *)
Definition onDial (s : Picked) : Prop :=
  (1 <= hour s <= 12)%Z /\ (0 <= minute s < 60)%Z.

End TimePicker.

(* ================================================================= *)
(** * Capturing and [startRecording] *)

(** The recorder callbacks of [recordAnimation], the way its promise
    settles, and [startRecording] around it. *)
Module WebmExport.
Import Mp4Export.

(** The [data] of a [dataavailable] event: a blob, of which the code reads
    the size. *)
Record Data := mkData { dataId : nat; size : N }.

(** [recorder.ondataavailable]. *)
Definition ondataavailable (chunks : list Data) (e : Data) : list Data :=
  if (0 <? size e)%N then chunks ++ [e] else chunks.

(** The [chunks] array after a run of [dataavailable] events. *)
Definition chunksAfter (events : list Data) : list Data :=
  fold_left ondataavailable events [].

(** The size of [new Blob(chunks)]: the parts laid end to end. *)
Definition blobSize (chunks : list Data) : N :=
  fold_right (fun d acc => (size d + acc)%N) 0%N chunks.

(** What [recordAnimation] finds when it is called: whether the canvas is
    mounted, whether the plane image loads, and the clock. *)
Record Stage := mkStage {
  canvasMounted : bool;
  planeLoaded : bool;
  stageClock : FileName.Clock
}.

(** How the promise of [recordAnimation] settles for a session of the
    recorder: with no canvas the executor throws and the promise rejects;
    it resolves in [onstop], that is once the session has stopped the
    recorder; in every other case nobody resolves it. *)
Definition captureSettles (st : Stage)
    (session : option (Recorder.Phase * list Recorder.Event)) : Settled :=
  if negb (canvasMounted st) then Rejected
  else if negb (planeLoaded st) then Pending
  else match session with
       | Some (Recorder.Stopped, _) => Fulfilled
       | _ => Pending
       end.

(** [await recordAnimation(downloadWebm)]: [onstop] clicks the download
    before it resolves the promise. *)
Definition recordAnimation (downloadWebm : bool) (st : Stage) (p : Props)
    (session : option (Recorder.Phase * list Recorder.Event)) : M unit :=
  match captureSettles st session with
  | Fulfilled =>
      when downloadWebm
        (emit (AnchorClick
                 (FileName.generateFileName (stageClock st) (title p) "webm")))
  | s => await s
  end.

Definition startRecording (st : Stage) (p : Props)
    (session : option (Recorder.Phase * list Recorder.Event)) : M unit :=
  emit (ToastLoading "toast.recording") ;;
  tryCatch
    (recordAnimation true st p session ;;
     emit (ToastSuccess "toast.webmDownloaded"))
    (emit (ToastError "toast.recordingFailed")).

(** The collaborators of [downloadMp4] when its capture is this session. *)
Definition worldOf (st : Stage)
    (session : option (Recorder.Phase * list Recorder.Event))
    (w : World) : World :=
  mkWorld (captureSettles st session) (ffmpegLoaded w) (load w)
          (fetchVideo w) (writeVideo w) (fetchAudio w) (writeAudio w)
          (exec w) (readFile w) (readData w) (stageClock st).

End WebmExport.

(* ================================================================= *)
(** * The editor on shared point objects *)

(** The handlers of [TradeFlightLayout] once more, this time as the code
    runs them: [[...points]] copies the array, not the point objects, and
    [updated[index].value = ...] writes into an object that the previous
    array and the generated configuration still hold.  Objects live in a
    store and arrays hold their addresses. *)
Module EditorStore.
Import Layout Editor.

Definition Ref := nat.

(** The point objects allocated so far; an address is a position. *)
Definition Heap := list Point.

Definition read (h : Heap) (r : Ref) : option Point := nth_error h r.

(** The objects of an array, in order. *)
Fixpoint readAll (h : Heap) (rs : list Ref) : option (list Point) :=
  match rs with
  | [] => Some []
  | r :: rs' =>
      match read h r, readAll h rs' with
      | Some p, Some ps => Some (p :: ps)
      | _, _ => None
      end
  end.

(** An assignment to fields of the object at [r]. *)
Fixpoint write (h : Heap) (r : Ref) (g : Point -> Point) : Heap :=
  match h, r with
  | [], _ => []
  | p :: h', O => g p :: h'
  | p :: h', S r' => p :: write h' r' g
  end.

(** A new object literal. *)
Definition alloc (h : Heap) (p : Point) : Heap * Ref :=
  (h ++ [p], List.length h).

(** The object that [setGeneratedConfig] receives: [points] is a copy of
    the array, with the same objects in it. *)
Record Config := mkConfig {
  configPoints : list Ref;
  configAspectRatio : string;
  configDuration : R;
  configTitle : option string;
  configDescription : option string
}.

Record State := mkState {
  heap : Heap;
  pointRefs : list Ref;
  stTimeError : option TimeError;
  stTitle : string;
  stDescription : string;
  stDuration : option R;
  stAspectRatio : string;
  generatedConfig : option Config
}.

(** [validateTimes(updated); setPoints(updated)] after the writes that
    left the store as [h]. *)
Definition commit (st : State) (h : Heap) (updated : list Ref)
    : option State :=
  match readAll h updated with
  | Some ps =>
      match validateTimes ps with
      | Some e =>
          Some (mkState h updated e (stTitle st) (stDescription st)
                        (stDuration st) (stAspectRatio st)
                        (generatedConfig st))
      | None => None
      end
  | None => None
  end.

(** [updatePoint(index, "value", v)]. *)
Definition updateValue (st : State) (index : nat) (v : R) : option State :=
  match nth_error (pointRefs st) index with
  | Some r =>
      commit st (write (heap st) r (fun p => mkPoint v (time p)))
             (pointRefs st)
  | None => None
  end.

(** [updatePoint(index, "time", t)]. *)
Definition updateTime (st : State) (index : nat) (t : string)
    : option State :=
  match nth_error (pointRefs st) index with
  | Some r =>
      let h1 := write (heap st) r (fun p => mkPoint (value p) t) in
      match index, nth_error (pointRefs st) 1 with
      | O, Some r1 =>
          match addFiveMinutes t with
          | Some t' =>
              commit st (write h1 r1 (fun p => mkPoint (value p) t'))
                     (pointRefs st)
          | None => None
          end
      | _, _ => commit st h1 (pointRefs st)
      end
  | None => None
  end.

(** [addPoint]. *)
Definition addPoint (st : State) : option State :=
  match stTimeError st with
  | Some _ => Some st
  | None =>
      match nth_error (pointRefs st) (List.length (pointRefs st) - 1) with
      | Some rl =>
          match read (heap st) rl with
          | Some l =>
              match addFiveMinutes (time l) with
              | Some t' =>
                  let (h', r') := alloc (heap st) (mkPoint (value l) t') in
                  commit st h' (pointRefs st ++ [r'])
              | None => None
              end
          | None => None
          end
      | None => None
      end
  end.

(** [deletePoint]. *)
Definition deletePoint (st : State) (index : nat) : option State :=
  if (index <? 2)%nat then Some st
  else commit st (heap st)
              (firstn index (pointRefs st) ++ skipn (S index) (pointRefs st)).

(** [moveValue]; [timeError] and the array's objects stay, two of them
    get each other's value. *)
Definition moveValue (st : State) (index : nat) (dir : Direction)
    : option State :=
  let target :=
    match dir, index with
    | Up, O => None
    | Up, S i => Some i
    | Down, i => Some (S i)
    end in
  match target with
  | None => Some st
  | Some newIndex =>
      if (List.length (pointRefs st) <=? newIndex)%nat then Some st
      else
        match nth_error (pointRefs st) index,
              nth_error (pointRefs st) newIndex with
        | Some ra, Some rb =>
            match read (heap st) ra with
            | Some a =>
                let temp := value a in
                match read (heap st) rb with
                | Some b =>
                    let h1 := write (heap st) ra
                                    (fun p => mkPoint (value b) (time p)) in
                    let h2 := write h1 rb
                                    (fun p => mkPoint temp (time p)) in
                    Some (mkState h2 (pointRefs st) (stTimeError st)
                                  (stTitle st) (stDescription st)
                                  (stDuration st) (stAspectRatio st)
                                  (generatedConfig st))
                | None => None
                end
            | None => None
            end
        | _, _ => None
        end
  end.

(** [handleGenerate]: the state after the click. *)
Definition handleGenerate (st : State) : State :=
  match stTimeError st with
  | Some _ => st
  | None =>
      match stDuration st with
      | Some d =>
          if Req_dec_T d 0 then st
          else if Rle_dec d 0 then st
          else
            mkState (heap st) (pointRefs st) (stTimeError st) (stTitle st)
                    (stDescription st) (stDuration st) (stAspectRatio st)
                    (Some (mkConfig (pointRefs st) (stAspectRatio st) d
                                    (match stTitle st with
                                     | EmptyString => None
                                     | t => Some t
                                     end)
                                    (match stDescription st with
                                     | EmptyString => None
                                     | t => Some t
                                     end)))
      | None => st
      end
  end.

Definition act (st : State) (a : Action) : option State :=
  match a with
  | SetValue i v => updateValue st i v
  | SetTime i t => updateTime st i t
  | AddPoint => addPoint st
  | DeletePoint i => deletePoint st i
  | MoveValue i dir => moveValue st i dir
  | SetTitle t =>
      Some (mkState (heap st) (pointRefs st) (stTimeError st) t
                    (stDescription st) (stDuration st) (stAspectRatio st)
                    (generatedConfig st))
  | SetDescription t =>
      Some (mkState (heap st) (pointRefs st) (stTimeError st) (stTitle st)
                    t (stDuration st) (stAspectRatio st)
                    (generatedConfig st))
  | SetDuration d =>
      Some (mkState (heap st) (pointRefs st) (stTimeError st) (stTitle st)
                    (stDescription st) d (stAspectRatio st)
                    (generatedConfig st))
  | SetAspectRatio r =>
      Some (mkState (heap st) (pointRefs st) (stTimeError st) (stTitle st)
                    (stDescription st) (stDuration st) r
                    (generatedConfig st))
  end.

Fixpoint actAll (st : State) (l : list Action) : option State :=
  match l with
  | [] => Some st
  | a :: l' =>
      match act st a with
      | Some st' => actAll st' l'
      | None => None
      end
  end.

(** The component as it is first shown: two point objects. *)
Definition initialState : State :=
  mkState [mkPoint 10 "09:00"; mkPoint 10 "09:05"] [0%nat; 1%nat] None
          "" "" (Some 5) "16:9" None.

(** *** Reading a state *)

(** The form that a state shows. *)
Definition formOf (st : State) : option Form :=
  match readAll (heap st) (pointRefs st) with
  | Some ps =>
      Some (mkForm ps (stTimeError st) (stTitle st) (stDescription st)
                   (stDuration st) (stAspectRatio st))
  | None => None
  end.

(** The properties that the canvas reads from a configuration when it
    draws or records: the objects of the configuration as they are then. *)
Definition propsOf (h : Heap) (c : Config) : option Props :=
  match readAll h (configPoints c) with
  | Some ps =>
      Some (mkProps ps (configAspectRatio c) (configDuration c)
                    (configTitle c) (configDescription c) false None 24 None)
  | None => None
  end.

(** The array holds allocated objects, each of them once. *)
Definition wellFormed (st : State) : Prop :=
  NoDup (pointRefs st)
  /\ Forall (fun r => (r < List.length (heap st))%nat) (pointRefs st).

(** An edit that writes into point objects and keeps the array's
    objects. *)
Definition inPlace (a : Action) : bool :=
  match a with
  | SetValue _ _ | SetTime _ _ | MoveValue _ _ => true
  | AddPoint | DeletePoint _ => false
  | _ => true
  end.

(** What one handler run on the objects has to do with the same handler
    run on the form. *)
Definition refined (st : State) (f : Form)
    (r : option State) (pure : option Form) (keepsArray : bool) : Prop :=
  match r with
  | Some st' =>
      wellFormed st'
      /\ (exists f', pure = Some f' /\ formOf st' = Some f')
      /\ generatedConfig st' = generatedConfig st
      /\ (List.length (heap st) <= List.length (heap st'))%nat
      /\ (keepsArray = true -> pointRefs st' = pointRefs st)
  | None => pure = None
  end.

End EditorStore.

Module ES := EditorStore.

(* ================================================================= *)
(** * The import dialog *)

(** [ImportPointsDialog]: the rows read from a file, their check, and
    what the Apply button hands to the form. *)
Module ImportDialog.
Import Layout Editor.

(** A row as the dialog holds it: both cells are strings. *)
Record ImportPoint := mkImport { rawValue : string; rawTime : string }.

Inductive Field := ValueCell | TimeCell.

Inductive Gesture :=
| FileParsed (rows : list ImportPoint)
| CellEdited (index : nat) (field : Field) (text : string)
| Closed.

(** The rows and the gestures on them; the check of the rows, which
    compares numbers, is embedded on doubles further down. *)

(** [processRows] on rows already mapped to strings. *)
Definition processRows (parsedPoints mapped : list ImportPoint)
    : list ImportPoint :=
  if (List.length mapped <? 2)%nat then parsedPoints else mapped.

(** [updateCell]; [None] when the row does not exist and the assignment
    throws. *)
Fixpoint updateCell (parsedPoints : list ImportPoint) (index : nat)
    (field : Field) (text : string) : option (list ImportPoint) :=
  match parsedPoints, index with
  | [], _ => None
  | row :: rows, O =>
      Some (match field with
            | ValueCell => mkImport text (rawTime row)
            | TimeCell => mkImport (rawValue row) text
            end :: rows)
  | row :: rows, S index' =>
      match updateCell rows index' field text with
      | Some rows' => Some (row :: rows')
      | None => None
      end
  end.

Definition handle (parsedPoints : list ImportPoint) (g : Gesture)
    : option (list ImportPoint) :=
  match g with
  | FileParsed rows => Some (processRows parsedPoints rows)
  | CellEdited index field text => updateCell parsedPoints index field text
  | Closed => Some []
  end.

Fixpoint handleAll (parsedPoints : list ImportPoint) (gs : list Gesture)
    : option (list ImportPoint) :=
  match gs with
  | [] => Some parsedPoints
  | g :: gs' =>
      match handle parsedPoints g with
      | Some rows => handleAll rows gs'
      | None => None
      end
  end.

End ImportDialog.

Module ID := ImportDialog.

(* ================================================================= *)
(** * Presets *)

(** The presets of the later [TradeFlightLayout]: saving the form under a
    name, updating and deleting a preset, loading one into the form.  A
    preset holds the form's [points] array, that is the point objects
    themselves; what goes to [localStorage] is their JSON text, a copy of
    the values at that moment. *)
Module Presets.
Import Editor.

(** [data] of a preset. *)
Record PresetData := mkData {
  dataTitle : string;
  dataDescription : string;
  dataPoints : list ES.Ref;
  dataDuration : option R;
  dataAspectRatio : string
}.

Record Preset := mkPreset {
  presetId : string;
  name : string;
  data : PresetData
}.

(** A preset as [JSON.stringify] writes it: the points by value. *)
Record StoredPreset := mkStored {
  storedId : string;
  storedName : string;
  storedTitle : string;
  storedDescription : string;
  storedPoints : list Point;
  storedDuration : option R;
  storedAspectRatio : string
}.

(** The three messages of the save dialog. *)
Inductive NameError := NameRequired | NameExists | NameTaken.

Record Session := mkSession {
  editor : ES.State;
  presets : list Preset;
  presetName : string;
  nameError : option NameError;
  activePresetId : option string;
  isSaveDialogOpen : bool;
  storage : list StoredPreset
}.

(** White space that [trim] removes, among the code units below 256. *)
Definition isWhiteSpace (c : ascii) : bool :=
  let n := nat_of_ascii c in
  ((9 <=? n) && (n <=? 13))%nat || Nat.eqb n 32 || Nat.eqb n 160.

(** [!s.trim()]. *)
Fixpoint blank (s : string) : bool :=
  match s with
  | EmptyString => true
  | String c s' => isWhiteSpace c && blank s'
  end.

(** [p.name.toLowerCase() === name.toLowerCase()]. *)
Definition sameName (a b : string) : bool :=
  String.eqb (FileName.toLowerCase a) (FileName.toLowerCase b).

Definition nameExists (ps : list Preset) (n : string) : bool :=
  existsb (fun p => sameName (name p) n) ps.

(** The [data] that a save takes from the form. *)
Definition dataOf (st : ES.State) : PresetData :=
  mkData (ES.stTitle st) (ES.stDescription st) (ES.pointRefs st)
         (ES.stDuration st) (ES.stAspectRatio st).

(** [JSON.stringify(updated)]. *)
Definition stringifyOne (h : ES.Heap) (p : Preset) : option StoredPreset :=
  match ES.readAll h (dataPoints (data p)) with
  | Some ps =>
      Some (mkStored (presetId p) (name p) (dataTitle (data p))
                     (dataDescription (data p)) ps (dataDuration (data p))
                     (dataAspectRatio (data p)))
  | None => None
  end.

Fixpoint stringify (h : ES.Heap) (ps : list Preset)
    : option (list StoredPreset) :=
  match ps with
  | [] => Some []
  | p :: ps' =>
      match stringifyOne h p, stringify h ps' with
      | Some sp, Some sps => Some (sp :: sps)
      | _, _ => None
      end
  end.

(** [handleSaveAsNew]; [now] is [Date.now().toString()]. *)
Definition handleSaveAsNew (now : string) (s : Session) : option Session :=
  if blank (presetName s) then
    Some (mkSession (editor s) (presets s) (presetName s)
                    (Some NameRequired) (activePresetId s)
                    (isSaveDialogOpen s) (storage s))
  else if nameExists (presets s) (presetName s) then
    Some (mkSession (editor s) (presets s) (presetName s)
                    (Some NameExists) (activePresetId s)
                    (isSaveDialogOpen s) (storage s))
  else
    let newPreset := mkPreset now (presetName s) (dataOf (editor s)) in
    let updated := presets s ++ [newPreset] in
    match stringify (ES.heap (editor s)) updated with
    | Some text =>
        Some (mkSession (editor s) updated (presetName s) None (Some now)
                        false text)
    | None => None
    end.

(** [handleUpdatePreset]. *)
Definition handleUpdatePreset (s : Session) : option Session :=
  match activePresetId s with
  | None | Some EmptyString => Some s
  | Some active =>
      if blank (presetName s) then
        Some (mkSession (editor s) (presets s) (presetName s)
                        (Some NameRequired) (activePresetId s)
                        (isSaveDialogOpen s) (storage s))
      else if existsb (fun p => sameName (name p) (presetName s)
                                && negb (String.eqb (presetId p) active))
                      (presets s) then
        Some (mkSession (editor s) (presets s) (presetName s)
                        (Some NameTaken) (activePresetId s)
                        (isSaveDialogOpen s) (storage s))
      else
        let updated :=
          map (fun p => if String.eqb (presetId p) active
                        then mkPreset (presetId p) (presetName s)
                                      (dataOf (editor s))
                        else p)
              (presets s) in
        match stringify (ES.heap (editor s)) updated with
        | Some text =>
            Some (mkSession (editor s) updated (presetName s) None
                            (activePresetId s) false text)
        | None => None
        end
  end.

(** [loadPreset]: the form takes the preset's fields; [timeError] and
    the generated configuration are not touched. *)
Definition loadPreset (s : Session) (p : Preset) : Session :=
  mkSession
    (ES.mkState (ES.heap (editor s)) (dataPoints (data p))
                (ES.stTimeError (editor s)) (dataTitle (data p))
                (dataDescription (data p)) (dataDuration (data p))
                (dataAspectRatio (data p))
                (ES.generatedConfig (editor s)))
    (presets s) (name p) (nameError s) (Some (presetId p))
    (isSaveDialogOpen s) (storage s).

(** [deletePreset]. *)
Definition deletePreset (s : Session) (id : string) : option Session :=
  let updated :=
    filter (fun p => negb (String.eqb (presetId p) id)) (presets s) in
  match stringify (ES.heap (editor s)) updated with
  | Some text =>
      match activePresetId s with
      | Some active =>
          if String.eqb id active then
            Some (mkSession (editor s) updated EmptyString (nameError s)
                            None (isSaveDialogOpen s) text)
          else
            Some (mkSession (editor s) updated (presetName s) (nameError s)
                            (activePresetId s) (isSaveDialogOpen s) text)
      | None =>
          Some (mkSession (editor s) updated (presetName s) (nameError s)
                          None (isSaveDialogOpen s) text)
      end
  | None => None
  end.

(** An edit of the form; the presets are not touched. *)
Definition edit (s : Session) (a : Action) : option Session :=
  match ES.act (editor s) a with
  | Some st =>
      Some (mkSession st (presets s) (presetName s) (nameError s)
                      (activePresetId s) (isSaveDialogOpen s) (storage s))
  | None => None
  end.

Fixpoint editAll (s : Session) (l : list Action) : option Session :=
  match l with
  | [] => Some s
  | a :: l' =>
      match edit s a with
      | Some s' => editAll s' l'
      | None => None
      end
  end.

(** What the user can do in a session. *)
Inductive Command :=
| NameTyped (text : string)
| OpenSaveDialog
| SaveAsNew (now : string)
| UpdatePreset
| Load (index : nat)
| Delete (id : string)
| Edit (a : Action).

(** One command; [Load index] is a click on the preset shown at
    [index]. *)
Definition step (s : Session) (c : Command) : option Session :=
  match c with
  | NameTyped text =>
      Some (mkSession (editor s) (presets s) text None (activePresetId s)
                      (isSaveDialogOpen s) (storage s))
  | OpenSaveDialog =>
      Some (mkSession (editor s) (presets s) (presetName s) (nameError s)
                      (activePresetId s) true (storage s))
  | SaveAsNew now => handleSaveAsNew now s
  | UpdatePreset => handleUpdatePreset s
  | Load index =>
      match nth_error (presets s) index with
      | Some p => Some (loadPreset s p)
      | None => None
      end
  | Delete id => deletePreset s id
  | Edit a => edit s a
  end.

Fixpoint run (s : Session) (cs : list Command) : option Session :=
  match cs with
  | [] => Some s
  | c :: cs' =>
      match step s c with
      | Some s' => run s' cs'
      | None => None
      end
  end.

(** The session as the component first shows it, with nothing stored. *)
Definition initialSession : Session :=
  mkSession ES.initialState [] EmptyString None None false [].

(** Every save happens at a clock reading that no earlier save had;
    [ids] are the readings used so far. *)
Fixpoint freshSaves (ids : list string) (cs : list Command) : Prop :=
  match cs with
  | [] => True
  | SaveAsNew now :: cs' => ~ In now ids /\ freshSaves (now :: ids) cs'
  | _ :: cs' => freshSaves ids cs'
  end.

(** The names differ beyond their case and every preset has an id of its
    own. *)
Definition distinctPresets (ps : list Preset) : Prop :=
  NoDup (map (fun p => FileName.toLowerCase (name p)) ps)
  /\ NoDup (map presetId ps).

End Presets.

Module PS := Presets.

(* ================================================================= *)
(** * The layout, the marker and the labels on doubles *)

(** The scale step, the segment loop, the marker walk and the label pass
    once more, with a JavaScript [number] as what it is: an IEEE 754
    binary64 value, with its rounding, its infinities and its [NaN].  The
    operators are the machine's ([+], [-], [*], [/], [Math.sqrt] and the
    comparisons, all false on [NaN]).  This embedding shows where the
    program parts from the exact arithmetic of the modules above, and
    carries what holds of the program whatever the numbers are. *)
Module Ieee.
Import PrimFloat.
Local Open Scope float_scope.

(** [ToBoolean] of a number is false for [+0], [-0] and [NaN]. *)
Definition falsy (a : float) : bool := (a =? 0) || is_nan a.

(** [a || b] on numbers. *)
Definition orElse (a b : float) : float := if falsy a then b else a.

Definition isNegZero (a : float) : bool :=
  match classify a with FloatClass.NZero => true | _ => false end.

Definition isPosZero (a : float) : bool :=
  match classify a with FloatClass.PZero => true | _ => false end.

(** [Math.min(...l)]: from [+Infinity] on, a [NaN] makes the result
    [NaN], [-0] counts as less than [+0]. *)
Definition minStep (lowest n : float) : float :=
  if is_nan lowest then lowest
  else if is_nan n then n
  else if isNegZero n && isPosZero lowest then n
  else if n <? lowest then n
  else lowest.

Definition minOf (l : list float) : float := fold_left minStep l infinity.

(** [Math.max(...l)], from [-Infinity] on. *)
Definition maxStep (highest n : float) : float :=
  if is_nan highest then highest
  else if is_nan n then n
  else if isPosZero n && isNegZero highest then n
  else if highest <? n then n
  else highest.

Definition maxOf (l : list float) : float :=
  fold_left maxStep l neg_infinity.

Record Point := mkPoint { value : float; time : string }.

(** What the scale step reads of the chart rectangle. *)
Record Chart := mkChart {
  chartLeft : float;
  chartTop : float;
  graphWidth : float;
  graphHeight : float
}.

(** A laid-out point; the label text is left out. *)
Record CalcPoint := mkCalc { x : float; y : float; cvalue : float }.

Section Scale.

(** [Number(s)] on a piece of a time string. *)
Variable numberOf : string -> float.

(** [const [h, m] = time.split(":").map(Number); return h * 60 + m]:
    without a colon [m] is [undefined] and the sum is [NaN]. *)
Definition timeOf (t : string) : float :=
  match Js.split ":" t with
  | h :: m :: _ => numberOf h * 60 + numberOf m
  | [h] => numberOf h * 60 + nan
  | [] => nan
  end.

Definition calcPoint (c : Chart) (minTime maxTime minValue maxValue : float)
    (point : Point) : CalcPoint :=
  {| x := chartLeft c
          + ((timeOf (time point) - minTime) / orElse (maxTime - minTime) 1)
            * graphWidth c;
     y := chartTop c + graphHeight c
          - ((value point - minValue) / orElse (maxValue - minValue) 1)
            * graphHeight c;
     cvalue := value point |}.

Definition calculatedPoints (c : Chart) (points : list Point)
    : list CalcPoint :=
  let times := map (fun p => timeOf (time p)) points in
  let minTime := minOf times in
  let maxTime := maxOf times in
  let maxValue := maxOf (map value points) in
  let minValue := minOf (map value points) in
  map (calcPoint c minTime maxTime minValue maxValue) points.

End Scale.

(** The segment loop. *)
Definition segLen (a b : CalcPoint) : float :=
  let dx := x b - x a in
  let dy := y b - y a in
  sqrt (dx * dx + dy * dy).

Fixpoint segmentsOf (cps : list CalcPoint) : list float :=
  match cps with
  | a :: (b :: _) as rest => segLen a b :: segmentsOf rest
  | _ => []
  end.

(** [totalLength += len], starting from 0, in segment order. *)
Definition totalLengthOf (segments : list float) : float :=
  fold_left add segments 0.

(** *** The moving marker *)

Record Plane := mkPlane { planeX : float; planeY : float; angle : float }.

Section Marker.

(** [Math.atan2]. *)
Variable atan2 : float -> float -> float.

Fixpoint planeWalk (cps : list CalcPoint) (segs : list float)
    (remain : float) (pl : Plane) : Plane :=
  match cps, segs with
  | start :: ((stop :: _) as rest), seg :: segs' =>
      if remain <=? 0 then pl
      else
        let a := atan2 (y stop - y start) (x stop - x start) in
        if seg <=? remain then
          planeWalk rest segs' (remain - seg) (mkPlane (x stop) (y stop) a)
        else
          let r := remain / seg in
          mkPlane (x start + (x stop - x start) * r)
                  (y start + (y stop - y start) * r) a
  | _, _ => pl
  end.

(** The marker of a frame; [None]: [calculatedPoints[0]] is undefined and
    the frame throws. *)
Definition planeAt (cps : list CalcPoint) (progress : float)
    : option Plane :=
  match cps with
  | [] => None
  | p0 :: _ =>
      Some (planeWalk cps (segmentsOf cps)
                      (totalLengthOf (segmentsOf cps) * progress)
                      (mkPlane (x p0) (y p0) 0))
  end.

End Marker.

(** *** Label placement *)

Record Box := mkBox { left : float; right : float; top : float; bottom : float }.

Definition baseOffset : float := 40.
Definition spacing : float := 12.
Definition padding : float := 14.

(** [a >= b] is [b <= a], also on [NaN], where both are false. *)
Definition overlaps (a b : Box) : bool :=
  negb ((right a <=? left b) || (right b <=? left a)
        || (bottom a <=? top b) || (bottom b <=? top a)).

Definition relocate (boxHeight : float) (st : Box * bool) (placed : Box)
    : Box * bool :=
  if overlaps (fst st) placed then
    let t := bottom placed + spacing in
    (mkBox (left (fst st)) (right (fst st)) t (t + boxHeight), true)
  else st.

(** One turn of the [while (moved)] body. *)
Definition scan (boxHeight : float) (box : Box) (placedLabels : list Box)
    : Box * bool :=
  fold_left (relocate boxHeight) placedLabels (box, false).

(** [turns] turns of [while (moved) { ... }]; [None] when [moved] is
    still set after them. *)
Fixpoint settle (turns : nat) (boxHeight : float) (box : Box)
    (placedLabels : list Box) : option Box :=
  match turns with
  | O => None
  | S turns' =>
      let (box', moved) := scan boxHeight box placedLabels in
      if moved then settle turns' boxHeight box' placedLabels
      else Some box'
  end.

(** [lines.length]. *)
Definition lineCount (n index : nat) : float :=
  if Nat.eqb index 0 then 2
  else if Nat.eqb index (n - 1) then 2 else 1.

Section Labels.

(** [labelFontSize], and the widest line of the label of point [i] as the
    canvas measures it. *)
Variable fontSize : float.
Variable lineWidth : nat -> float.

Definition boxHeightOf (n index : nat) : float :=
  lineCount n index * (fontSize * 1.4) + padding * 2.

Definition boxWidthOf (index : nat) : float := lineWidth index + padding * 2.

Definition candidate (n index : nat) (p : CalcPoint) : Box :=
  let t := y p + baseOffset in
  mkBox (x p - boxWidthOf index / 2) (x p + boxWidthOf index / 2)
        t (t + boxHeightOf n index).

(** The label of one point, with [turns] turns allowed to its loop. *)
Definition placeLabel (turns n index : nat) (p : CalcPoint)
    (placedLabels : list Box) : option Box :=
  settle turns (boxHeightOf n index) (candidate n index p) placedLabels.

Fixpoint labelPass (turns n index : nat) (cps : list CalcPoint)
    (placedLabels : list Box) : option (list Box) :=
  match cps with
  | [] => Some placedLabels
  | p :: rest =>
      match placeLabel turns n index p placedLabels with
      | Some box => labelPass turns n (S index) rest (placedLabels ++ [box])
      | None => None
      end
  end.

(** [placedLabels] at the end of the label pass of one frame, when every
    collision loop ends within [turns] turns. *)
Definition placeLabels (turns : nat) (cps : list CalcPoint)
    : option (list Box) :=
  labelPass turns (List.length cps) 0 cps [].

(** A box [b] that is rightly placed for point [p] (the [i]-th of [n])
    after the boxes [earlier]: it has the label's place and size across
    and its height, it overlaps no earlier box by the code's own test,
    its top edge is at the base offset or at an earlier box's bottom plus
    the spacing, and the latter whenever the box at the base offset
    overlaps an earlier box. *)
Definition rightlyPlaced (n i : nat) (p : CalcPoint) (earlier : list Box)
    (b : Box) : Prop :=
  left b = x p - boxWidthOf i / 2
  /\ right b = x p + boxWidthOf i / 2
  /\ bottom b = top b + boxHeightOf n i
  /\ (forall e, In e earlier -> overlaps b e = false)
  /\ (top b = y p + baseOffset
      \/ exists e, In e earlier /\ top b = bottom e + spacing)
  /\ ((exists e, In e earlier /\ overlaps (candidate n i p) e = true) ->
      exists e, In e earlier /\ top b = bottom e + spacing).

End Labels.

(** *** The times of the form and of the import dialog *)

Inductive TimeError := TimeMissing | TimeOrder.

(** What [onApply] of the form sets. *)
Record Form := mkForm { formPoints : list Point; timeError : option TimeError }.

Section Times.

(** [Number] on a string. *)
Variable numberOf : string -> float.

(** [timeToMinutes] of the editor: an empty time counts as 0, and every
    other time is [h * 60 + m], which is [NaN] as soon as a part does not
    read as a number. *)
Definition timeToMinutes (t : string) : float :=
  match t with
  | EmptyString => 0
  | String _ _ => timeOf numberOf t
  end.

(** The loop of [validateTimes]; [prev] is the time of the point before.
    The result is the new [timeError], [None] for [setTimeError(null)]. *)
Fixpoint validateFrom (prev : option string) (ps : list Point)
    : option TimeError :=
  match ps with
  | [] => None
  | p :: rest =>
      match time p with
      | EmptyString => Some TimeMissing
      | String _ _ =>
          match prev with
          | None => validateFrom (Some (time p)) rest
          | Some tp =>
              if timeToMinutes (time p) <=? timeToMinutes tp
              then Some TimeOrder
              else validateFrom (Some (time p)) rest
          end
      end
  end.

Definition validateTimes (ps : list Point) : option TimeError :=
  validateFrom None ps.

(** [onApply] of the form: [validateTimes(newPoints); setPoints(newPoints)]. *)
Definition onApply (newPoints : list Point) : Form :=
  mkForm newPoints (validateTimes newPoints).

(** [timeToMinutes] of the import dialog, which has no case for the empty
    time. *)
Definition rowMinutes (t : string) : float := timeOf numberOf t.

Definition isEmpty (s : string) : bool :=
  match s with
  | EmptyString => true
  | String _ _ => false
  end.

(** [isRowInvalid(point, index)] over the rows [parsedPoints]; [None] when
    [parsedPoints[index - 1]] is undefined and reading its time throws. *)
Definition isRowInvalid (parsedPoints : list ImportDialog.ImportPoint)
    (point : ImportDialog.ImportPoint) (index : nat) : option bool :=
  if isEmpty (ImportDialog.rawTime point)
     || is_nan (numberOf (ImportDialog.rawValue point))
  then Some true
  else
    match index with
    | O => Some false
    | S before =>
        match nth_error parsedPoints before with
        | Some prevRow =>
            Some (rowMinutes (ImportDialog.rawTime point)
                  <=? rowMinutes (ImportDialog.rawTime prevRow))
        | None => None
        end
    end.

(** [rows.some(isRowInvalid)] from row [index] on: the rows are checked
    in order up to the first invalid one. *)
Fixpoint someInvalidFrom (parsedPoints : list ImportDialog.ImportPoint)
    (index : nat) (rest : list ImportDialog.ImportPoint) : option bool :=
  match rest with
  | [] => Some false
  | point :: rest' =>
      match isRowInvalid parsedPoints point index with
      | Some true => Some true
      | Some false => someInvalidFrom parsedPoints (S index) rest'
      | None => None
      end
  end.

Definition hasInvalidRows (parsedPoints : list ImportDialog.ImportPoint)
    : option bool :=
  someInvalidFrom parsedPoints 0 parsedPoints.

(** The Apply button is enabled. *)
Definition applyEnabled (parsedPoints : list ImportDialog.ImportPoint)
    : option bool :=
  match parsedPoints with
  | [] => Some false
  | _ :: _ =>
      match hasInvalidRows parsedPoints with
      | Some b => Some (negb b)
      | None => None
      end
  end.

(** [parsedPoints.map(p => ({ value: Number(p.value), time: p.time }))]. *)
Definition cleaned (parsedPoints : list ImportDialog.ImportPoint)
    : list Point :=
  map (fun p => mkPoint (numberOf (ImportDialog.rawValue p))
                        (ImportDialog.rawTime p))
      parsedPoints.

(** The click on Apply, which the disabled button does not deliver. *)
Definition apply (f : Form) (parsedPoints : list ImportDialog.ImportPoint)
    : option Form :=
  match applyEnabled parsedPoints with
  | Some true => Some (onApply (cleaned parsedPoints))
  | Some false => Some f
  | None => None
  end.

End Times.

(** *** Sample inputs *)

(** [Number] on the short runs of digits of a time of day. *)
Definition digitsNumber (s : string) : float :=
  match Js.Number s with
  | Some z => of_uint63 (Uint63.of_Z z)
  | None => nan
  end.

(** The chart rectangle of the 1:1 canvas without title, description and
    watermark, at the label size 24. *)
Definition squareChart : Chart := mkChart 248 240 869 776.


(** Two points a minute apart and a third later in the day, the first
    with the value that [Number(".")] gives. *)
Definition dotPoints : list Point :=
  [mkPoint nan "09:00"; mkPoint 10 "09:01"; mkPoint 5 "15:30"].



(** Three points at one place, whose labels all collide. *)
Definition stacked : list CalcPoint :=
  [mkCalc 0 0 10; mkCalc 0 0 15; mkCalc 0 0 8].

(** Times of which the second does not read as a number, out of order
    around it. *)
Definition oddTimes : list Point :=
  [mkPoint 1 "10:00"; mkPoint 2 "9am"; mkPoint 3 "09:00"].

(** Rows of a file of which the second carries a twelve-hour time. *)
Definition oddRows : list ImportDialog.ImportPoint :=
  [ImportDialog.mkImport "12" "10:00";
   ImportDialog.mkImport "7" "10:00 AM";
   ImportDialog.mkImport "9" "09:30"].

End Ieee.

(* ================================================================= *)
(** * Properties *)

Import Layout Frame Spec Samples.

(** Decide the comparisons left in the goal, closing the impossible
    branches by linear arithmetic. *)
Ltac rdecide :=
  repeat match goal with
         | |- context [Rle_dec ?a ?b] => destruct (Rle_dec a b); try lra
         | |- context [Rge_dec ?a ?b] => destruct (Rge_dec a b); try lra
         | |- context [Rlt_dec ?a ?b] => destruct (Rlt_dec a b); try lra
         | |- context [Rgt_dec ?a ?b] => destruct (Rgt_dec a b); try lra
         | |- context [Req_dec_T ?a ?b] => destruct (Req_dec_T a b); try lra
         end.

Lemma leb_true a b : leb a b = true <-> a <= b.
Proof. unfold leb. destruct (Rle_dec a b); split; intros; try easy. Qed.

Lemma geb_true a b : geb a b = true <-> a >= b.
Proof. unfold geb. destruct (Rge_dec a b); split; intros; try easy. Qed.

Lemma leb_false a b : leb a b = false <-> b < a.
Proof. unfold leb. destruct (Rle_dec a b); split; intros; try easy; lra. Qed.

Lemma geb_false a b : geb a b = false <-> a < b.
Proof. unfold geb. destruct (Rge_dec a b); split; intros; try easy; lra. Qed.

(* ----------------------------------------------------------------- *)
(** ** Progress (C5) *)

Lemma progressAt_le_1 startTime dur now : progressAt startTime dur now <= 1.
Proof. unfold progressAt. apply Rmin_r. Qed.

Lemma ratio_nonneg startTime dur now :
  0 < dur -> startTime <= now -> 0 <= (now - startTime) / (dur * 1000).
Proof.
  intros Hd Hn. apply Rmult_le_pos; [lra|].
  apply Rlt_le, Rinv_0_lt_compat. lra.
Qed.

(** C5, as stated, fails: a clock reading one second before [startTime]
    with a one-second animation gives progress -1, which is negative and
    differs from the clamped ratio 0. *)
Lemma progress_negative_before_start :
  progressAt 1000 1 0 = -1
  /\ progressAt 1000 1 0 < 0
  /\ progressAt 1000 1 0 <> clamp01 ((0 - 1000) / (1 * 1000)).
Proof.
  assert (E : progressAt 1000 1 0 = -1).
  { unfold progressAt. replace ((0 - 1000) / (1 * 1000)) with (-1) by lra.
    apply Rmin_left. lra. }
  rewrite E. split; [reflexivity|]. split; [lra|].
  unfold clamp01. replace ((0 - 1000) / (1 * 1000)) with (-1) by lra.
  rewrite (Rmin_left (-1) 1) by lra. rewrite Rmax_left by lra. lra.
Qed.

(** C5, amended: the progress of a tick is [min(ratio, 1)], so it never
    exceeds 1; for a positive duration and a clock reading not earlier than
    [startTime] it is also non-negative and equals the ratio clamped to
    [[0, 1]]. *)
Theorem progress_is_min_and_clamps_from_start (startTime dur now : R) :
  0 < dur ->
  progressAt startTime dur now = Rmin ((now - startTime) / (dur * 1000)) 1
  /\ progressAt startTime dur now <= 1
  /\ (startTime <= now ->
      0 <= progressAt startTime dur now
      /\ progressAt startTime dur now
         = clamp01 ((now - startTime) / (dur * 1000))).
Proof.
  intros Hd. split; [reflexivity|]. split; [apply progressAt_le_1|].
  intros Hn. pose proof (ratio_nonneg startTime dur now Hd Hn) as Hr.
  assert (H0 : 0 <= progressAt startTime dur now).
  { unfold progressAt. apply Rmin_glb; lra. }
  split; [exact H0|].
  unfold clamp01. fold (progressAt startTime dur now).
  rewrite Rmax_right; [reflexivity | exact H0].
Qed.

Lemma progress_is_min_and_clamps_from_start_witness :
  0 < 3
  /\ progressAt 0 3 1500 = Rmin ((1500 - 0) / (3 * 1000)) 1
  /\ progressAt 0 3 1500 <= 1
  /\ (0 <= 1500 ->
      0 <= progressAt 0 3 1500
      /\ progressAt 0 3 1500 = clamp01 ((1500 - 0) / (3 * 1000))).
Proof.
  split; [lra|].
  apply (progress_is_min_and_clamps_from_start 0 3 1500). lra.
Defined.

(* ----------------------------------------------------------------- *)
(** ** Segment colours (C4) *)

Lemma segmentColor_spec a b :
  (cvalue b >= cvalue a -> segmentColor a b = "#16a34a")
  /\ (cvalue b < cvalue a -> segmentColor a b = "#dc2626").
Proof.
  unfold segmentColor, geb.
  destruct (Rge_dec (cvalue b) (cvalue a)); split; intros; try reflexivity; lra.
Qed.

Lemma drawPath_nth cps : forall segs remaining i st,
  nth_error (drawPath cps segs remaining) i = Some st ->
  exists a b,
    nth_error cps i = Some a /\ nth_error cps (S i) = Some b
    /\ fromX st = x a /\ fromY st = y a
    /\ strokeStyle st = segmentColor a b.
Proof.
  induction cps as [|a cps IH]; intros segs remaining i st H.
  - destruct i; discriminate.
  - destruct cps as [|b cps'].
    + destruct i; discriminate.
    + destruct segs as [|seg segs'].
      * destruct i; discriminate.
      * cbn [drawPath] in H.
        destruct (Rle_dec remaining 0); [destruct i; discriminate|].
        destruct (Rge_dec remaining seg).
        -- destruct i as [|i].
           ++ inversion H; subst; clear H. exists a, b. cbn. auto.
           ++ cbn [nth_error] in H. apply IH in H.
              destruct H as (a' & b' & Ha & Hb & Hrest).
              exists a', b'. cbn [nth_error]. auto.
        -- destruct i as [|i].
           ++ inversion H; subst; clear H. exists a, b. cbn. auto.
           ++ cbn [nth_error] in H. apply IH in H.
              destruct H as (a' & b' & Ha & Hb & Hrest).
              exists a', b'. cbn [nth_error]. auto.
Qed.

(** C4: the stroke that [animate] draws for segment [i] starts at point
    [i] and is green ([#16a34a]) when the value at point [i + 1] is
    greater than or equal to the value at point [i], red ([#dc2626]) when
    it is strictly less; a flat segment is green. *)
Theorem segment_stroke_colour (cps : list CalcPoint) (segs : list R)
    (remaining : R) (i : nat) (st : Stroke) :
  nth_error (drawPath cps segs remaining) i = Some st ->
  exists a b,
    nth_error cps i = Some a /\ nth_error cps (S i) = Some b
    /\ fromX st = x a /\ fromY st = y a
    /\ (cvalue b >= cvalue a -> strokeStyle st = "#16a34a")
    /\ (cvalue b < cvalue a -> strokeStyle st = "#dc2626")
    /\ (cvalue b = cvalue a -> strokeStyle st = increaseColor).
Proof.
  intros H. apply drawPath_nth in H.
  destruct H as (a & b & Ha & Hb & Hx & Hy & Hc).
  exists a, b. rewrite Hc.
  destruct (segmentColor_spec a b) as [Hup Hdown].
  repeat split; auto.
  intros E. apply Hup. lra.
Qed.

Lemma segment_stroke_colour_witness :
  let a := mkCalc 0 0 10 "9:00 AM" in
  let b := mkCalc 3 4 10 "9:05 AM" in
  let st := mkStroke increaseColor 0 0 3 4 in
  nth_error (drawPath [a; b] [5] 5) 0 = Some st
  /\ exists a' b',
       nth_error [a; b] 0 = Some a' /\ nth_error [a; b] 1 = Some b'
       /\ fromX st = x a' /\ fromY st = y a'
       /\ (cvalue b' >= cvalue a' -> strokeStyle st = "#16a34a")
       /\ (cvalue b' < cvalue a' -> strokeStyle st = "#dc2626")
       /\ (cvalue b' = cvalue a' -> strokeStyle st = increaseColor).
Proof.
  intros a b st.
  assert (H : nth_error (drawPath [a; b] [5] 5) 0 = Some st).
  { subst a b st. cbn [drawPath]. rdecide. cbn.
    unfold segmentColor, geb. cbn. rdecide. reflexivity. }
  split; [exact H|].
  exact (segment_stroke_colour [a; b] [5] 5 0 st H).
Defined.

(* ----------------------------------------------------------------- *)
(** ** Degenerate ranges (C3) *)

Lemma orElse_nonzero d : Js.orElse d 1 <> 0.
Proof. unfold Js.orElse. destruct (Req_dec_T d 0); lra. Qed.

Lemma minOf_const v l :
  l <> [] -> (forall a, In a l -> a = v) -> Js.minOf l = v.
Proof.
  induction l as [|a l IH]; intros Hne Hall; [congruence|].
  assert (Ha : a = v) by (apply Hall; left; reflexivity).
  destruct l as [|b l']; [exact Ha|].
  change (Rmin a (Js.minOf (b :: l')) = v).
  rewrite IH; [|discriminate|intros c Hc; apply Hall; right; exact Hc].
  subst a. apply Rmin_left. lra.
Qed.

Lemma maxOf_const v l :
  l <> [] -> (forall a, In a l -> a = v) -> Js.maxOf l = v.
Proof.
  induction l as [|a l IH]; intros Hne Hall; [congruence|].
  assert (Ha : a = v) by (apply Hall; left; reflexivity).
  destruct l as [|b l']; [exact Ha|].
  change (Rmax a (Js.maxOf (b :: l')) = v).
  rewrite IH; [|discriminate|intros c Hc; apply Hall; right; exact Hc].
  subst a. apply Rmax_left. lra.
Qed.

Lemma timesOf_length ps : forall tz,
  timesOf ps = Some tz -> List.length tz = List.length ps.
Proof.
  induction ps as [|a ps IH]; intros tz H; cbn in H.
  - inversion H. reflexivity.
  - destruct (minutesOf (time a)); [|discriminate].
    destruct (timesOf ps) as [ts|]; [|discriminate].
    inversion H. cbn. f_equal. apply IH. reflexivity.
Qed.

Lemma timesOf_same t m ps :
  (forall a, In a ps -> time a = t) -> minutesOf t = Some m ->
  exists tz, timesOf ps = Some tz /\ forall u, In u tz -> u = m.
Proof.
  intros Hall Hm. induction ps as [|a ps IH].
  - exists []. split; [reflexivity|]. intros u [].
  - destruct IH as (tz & E & Htz).
    { intros b Hb. apply Hall. right. exact Hb. }
    exists (m :: tz). cbn. rewrite (Hall a (or_introl eq_refl)), Hm, E.
    split; [reflexivity|]. intros u [<-|Hu]; [reflexivity|auto].
Qed.

Lemma in_calculatedPointsAt c ps tz q :
  In q (calculatedPointsAt c ps tz) ->
  exists a t, In a ps /\ In t tz
    /\ q = calcPoint c (Js.minOf (map IZR tz)) (Js.maxOf (map IZR tz))
                     (Js.minOf (map value ps)) (Js.maxOf (map value ps)) (a, t).
Proof.
  unfold calculatedPointsAt. intros H. apply in_map_iff in H.
  destruct H as ([a t] & E & Hin). exists a, t.
  split; [eapply in_combine_l; eauto|]. split; [eapply in_combine_r; eauto|].
  symmetry. exact E.
Qed.

Lemma same_values_same_y c ps tz v q :
  (forall a, In a ps -> value a = v) ->
  In q (calculatedPointsAt c ps tz) ->
  y q = chartTop c + graphHeight c.
Proof.
  intros Hall Hq. apply in_calculatedPointsAt in Hq.
  destruct Hq as (a & t & Ha & _ & ->). cbn.
  rewrite (minOf_const v).
  - rewrite (Hall a Ha). unfold Rdiv. ring.
  - intros E. apply (f_equal (@List.length R)) in E.
    rewrite length_map in E. destruct ps; [destruct Ha|discriminate].
  - intros u Hu. apply in_map_iff in Hu. destruct Hu as (b & <- & Hb). auto.
Qed.

Lemma same_times_same_x c ps tz m q :
  (forall u, In u tz -> u = m) ->
  In q (calculatedPointsAt c ps tz) ->
  x q = chartLeft c.
Proof.
  intros Hall Hq. apply in_calculatedPointsAt in Hq.
  destruct Hq as (a & t & _ & Ht & ->). cbn.
  rewrite (minOf_const (IZR m)).
  - rewrite (Hall t Ht). unfold Rdiv. ring.
  - intros E. apply (f_equal (@List.length R)) in E.
    rewrite length_map in E. destruct tz; [destruct Ht|discriminate].
  - intros u Hu. apply in_map_iff in Hu. destruct Hu as (b & <- & Hb).
    rewrite (Hall b Hb). reflexivity.
Qed.

(* ----------------------------------------------------------------- *)
(** ** Path length and the marker at the end of the path (C1) *)

Lemma segLen_distance a b : segLen a b = distance a b.
Proof. unfold segLen, distance. f_equal. ring. Qed.

Lemma distance_nonneg a b : 0 <= distance a b.
Proof. apply sqrt_pos. Qed.


Lemma pathLength_nonneg cps : 0 <= pathLength cps.
Proof.
  induction cps as [|a cps IH]; [cbn; lra|].
  destruct cps as [|b cps']; [cbn; lra|].
  change (0 <= distance a b + pathLength (b :: cps')).
  pose proof (distance_nonneg a b). lra.
Qed.

Lemma fold_segments cps : forall acc,
  fold_left Rplus (segmentsOf cps) acc = acc + pathLength cps.
Proof.
  induction cps as [|a cps IH]; intros acc; [cbn; lra|].
  destruct cps as [|b cps']; [cbn; lra|].
  change (fold_left Rplus (segmentsOf (b :: cps')) (acc + segLen a b)
          = acc + (distance a b + pathLength (b :: cps'))).
  rewrite IH, segLen_distance. ring.
Qed.

Lemma totalLength_pathLength cps :
  totalLengthOf (segmentsOf cps) = pathLength cps.
Proof. unfold totalLengthOf. rewrite fold_segments. ring. Qed.





Lemma calculatedPointsAt_length c ps tz :
  List.length tz = List.length ps ->
  List.length (calculatedPointsAt c ps tz) = List.length ps.
Proof.
  intros H. unfold calculatedPointsAt.
  rewrite length_map, length_combine, H. apply Nat.min_id.
Qed.




(* ----------------------------------------------------------------- *)
(** ** The collision loop of the label pass (C10, C2) *)

Lemma overlaps_true a b :
  overlaps a b = true <->
  left b < right a /\ left a < right b /\ top b < bottom a /\ top a < bottom b.
Proof.
  unfold overlaps, leb, geb.
  destruct (Rle_dec (right a) (left b)), (Rge_dec (left a) (right b)),
    (Rle_dec (bottom a) (top b)), (Rge_dec (top a) (bottom b));
    cbn; split; intros H; try discriminate; try reflexivity;
    try (destruct H as (? & ? & ? & ?); lra); repeat split; lra.
Qed.

Lemma overlaps_false_above a b : bottom b <= top a -> overlaps a b = false.
Proof.
  intros H. destruct (overlaps a b) eqn:E; [|reflexivity].
  apply overlaps_true in E. lra.
Qed.

(** A relocation puts the top edge at the bottom of the box hit plus the
    spacing, which is strictly lower on the canvas than before. *)
Lemma relocate_moves_down boxHeight st pl :
  overlaps (fst st) pl = true ->
  relocate boxHeight st pl
  = (mkBox (left (fst st)) (right (fst st)) (bottom pl + spacing)
           (bottom pl + spacing + boxHeight), true)
  /\ top (fst st) < top (fst (relocate boxHeight st pl)).
Proof.
  intros H. unfold relocate. rewrite H. split; [reflexivity|].
  apply overlaps_true in H. cbn. unfold spacing. lra.
Qed.

Lemma relocate_keeps boxHeight st pl :
  overlaps (fst st) pl = false -> relocate boxHeight st pl = st.
Proof. intros H. unfold relocate. rewrite H. reflexivity. Qed.

(** What one scan of the placed boxes does to the candidate. *)
Lemma scan_fold boxHeight placedLabels : forall box moved box' moved',
  fold_left (relocate boxHeight) placedLabels (box, moved) = (box', moved') ->
  left box' = left box /\ right box' = right box
  /\ ((box' = box /\ moved' = moved
       /\ forall pl, In pl placedLabels -> overlaps box pl = false)
      \/ (moved' = true /\ top box < top box'
          /\ bottom box' = top box' + boxHeight
          /\ exists pl, In pl placedLabels /\ top box' = bottom pl + spacing)).
Proof.
  induction placedLabels as [|pl rest IH]; intros box moved box' moved' H.
  - cbn in H. inversion H; subst. split; [reflexivity|].
    split; [reflexivity|]. left. repeat split. intros pl [].
  - cbn [fold_left] in H. destruct (overlaps box pl) eqn:E.
    + destruct (relocate_moves_down boxHeight (box, moved) pl E) as [Er Hlt].
      rewrite Er in H, Hlt. cbn in Hlt. apply IH in H.
      destruct H as (Hl & Hr & [(-> & -> & Hno) | (-> & Hup & Hb & e & He & Ht)]).
      * cbn. split; [reflexivity|]. split; [reflexivity|]. right.
        split; [reflexivity|]. split; [exact Hlt|]. split; [reflexivity|].
        exists pl. split; [left; reflexivity|reflexivity].
      * cbn in Hl, Hr, Hup. split; [exact Hl|]. split; [exact Hr|]. right.
        split; [reflexivity|]. split; [lra|]. split; [exact Hb|].
        exists e. split; [right; exact He|exact Ht].
    + rewrite (relocate_keeps boxHeight (box, moved) pl E) in H. apply IH in H.
      destruct H as (Hl & Hr & [(-> & -> & Hno) | (-> & Hup & Hb & e & He & Ht)]).
      * split; [reflexivity|]. split; [reflexivity|]. left.
        repeat split. intros q [<-|Hq]; auto.
      * split; [exact Hl|]. split; [exact Hr|]. right.
        split; [reflexivity|]. split; [exact Hup|]. split; [exact Hb|].
        exists e. split; [right; exact He|exact Ht].
Qed.

Lemma scan_untouched boxHeight l : forall b m,
  (forall q, In q l -> overlaps b q = false) ->
  fold_left (relocate boxHeight) l (b, m) = (b, m).
Proof.
  induction l as [|q l IHl]; intros b m Hq; [reflexivity|].
  cbn [fold_left]. rewrite relocate_keeps by (apply Hq; left; reflexivity).
  apply IHl. intros q' Hq'. apply Hq. right. exact Hq'.
Qed.

Lemma reach_le_length t placedLabels :
  (reach t placedLabels <= List.length placedLabels)%nat.
Proof. unfold reach. apply filter_length_le. Qed.

Lemma reach_antitone t t' placedLabels :
  t <= t' -> (reach t' placedLabels <= reach t placedLabels)%nat.
Proof.
  intros Hle. unfold reach.
  induction placedLabels as [|pl rest IH]; [cbn; lia|].
  cbn [filter].
  destruct (Rlt_dec t' (bottom pl + spacing)),
    (Rlt_dec t (bottom pl + spacing)); cbn [List.length]; try lia; lra.
Qed.

(** Each turn that moves the candidate uses up one placed box. *)
Lemma reach_decreases t pl placedLabels :
  In pl placedLabels -> t < bottom pl + spacing ->
  (reach (bottom pl + spacing) placedLabels < reach t placedLabels)%nat.
Proof.
  intros Hin Hlt.
  induction placedLabels as [|q rest IH]; [destruct Hin|].
  assert (Hmono : (reach (bottom pl + spacing) rest <= reach t rest)%nat)
    by (apply reach_antitone; lra).
  unfold reach in *. cbn [filter].
  destruct Hin as [->|Hin].
  - destruct (Rlt_dec (bottom pl + spacing) (bottom pl + spacing)); [lra|].
    destruct (Rlt_dec t (bottom pl + spacing)); [|lra].
    cbn [List.length]. lia.
  - specialize (IH Hin).
    destruct (Rlt_dec (bottom pl + spacing) (bottom q + spacing)),
      (Rlt_dec t (bottom q + spacing)); cbn [List.length]; try lia; lra.
Qed.

(** The result of the loop, when it has turns enough. *)
Lemma settle_enough boxHeight placedLabels : forall turns box,
  (reach (top box) placedLabels < turns)%nat ->
  exists final,
    settle turns boxHeight box placedLabels = Some final
    /\ left final = left box /\ right final = right box
    /\ (forall pl, In pl placedLabels -> overlaps final pl = false)
    /\ (final = box
        \/ (top box < top final /\ bottom final = top final + boxHeight
            /\ exists pl, In pl placedLabels
                 /\ top final = bottom pl + spacing)).
Proof.
  induction turns as [|turns IH]; intros box Hreach; [lia|].
  cbn [settle]. unfold scan.
  destruct (fold_left (relocate boxHeight) placedLabels (box, false))
    as [box' moved'] eqn:E.
  apply scan_fold in E.
  destruct E as (Hl & Hr & [(-> & -> & Hno) | (-> & Hup & Hb & e & He & Ht)]).
  - exists box. repeat split; auto.
  - destruct (IH box') as (final & Hs & Hl' & Hr' & Hno & Hcase).
    { rewrite Ht. pose proof (reach_decreases (top box) e placedLabels He).
      rewrite Ht in Hup. specialize (H Hup). lia. }
    exists final. split; [exact Hs|]. split; [congruence|].
    split; [congruence|]. split; [exact Hno|]. right.
    destruct Hcase as [->|(Hup' & Hb' & e' & He' & Ht')].
    + split; [exact Hup|]. split; [exact Hb|]. exists e. auto.
    + split; [lra|]. split; [exact Hb'|]. exists e'. auto.
Qed.

Lemma settle_more boxHeight placedLabels final : forall turns more box,
  settle turns boxHeight box placedLabels = Some final ->
  (turns <= more)%nat ->
  settle more boxHeight box placedLabels = Some final.
Proof.
  induction turns as [|turns IH]; intros more box H Hle; [discriminate|].
  destruct more as [|more]; [lia|].
  cbn [settle] in *.
  destruct (scan boxHeight box placedLabels) as [box' [|]]; [|exact H].
  apply IH; [exact H|lia].
Qed.

Lemma placeLabels_defined fontSize lineWidth cps :
  exists boxes, placeLabels fontSize lineWidth cps = Some boxes.
Proof.
  unfold placeLabels.
  generalize (List.length cps) at 1. generalize 0%nat. generalize (@nil Box).
  induction cps as [|p rest IH]; intros placed index n.
  - exists placed. reflexivity.
  - cbn [labelPass]. unfold placeLabel.
    destruct (settle_enough (boxHeightOf fontSize n index) placed
                (S (List.length placed)) (candidate fontSize lineWidth n index p))
      as (final & Hs & _).
    { pose proof (reach_le_length
                    (top (candidate fontSize lineWidth n index p)) placed). lia. }
    rewrite Hs. apply IH.
Qed.

(** C10, as it holds: when every edge of every box is a real number, so
    that none is [NaN], the collision loop ends within one turn more than
    there are placed boxes, whatever the boxes and the box size, and
    further turns would not change its result; each relocation moves the
    candidate's top edge strictly down, to the bottom of a placed box plus
    the spacing; once the top edge is at or below every placed bottom, a
    scan moves nothing and the loop exits; so the label pass of every
    point sequence with such coordinates ends.  With [NaN] coordinates the
    loop need not end, as the last section of this file shows. *)
Theorem collision_loop_terminates (boxHeight : R) (box : Box)
    (placedLabels : list Box) :
  (exists final,
     settle (S (List.length placedLabels)) boxHeight box placedLabels
     = Some final
     /\ forall more, (S (List.length placedLabels) <= more)%nat ->
          settle more boxHeight box placedLabels = Some final)
  /\ (forall st pl,
        overlaps (fst st) pl = true ->
        top (fst (relocate boxHeight st pl)) = bottom pl + spacing
        /\ top (fst st) < top (fst (relocate boxHeight st pl)))
  /\ ((forall pl, In pl placedLabels -> bottom pl <= top box) ->
      scan boxHeight box placedLabels = (box, false)
      /\ settle 1 boxHeight box placedLabels = Some box)
  /\ (forall fontSize lineWidth cps,
        exists boxes, placeLabels fontSize lineWidth cps = Some boxes).
Proof.
  split; [|split; [|split]].
  - destruct (settle_enough boxHeight placedLabels
                (S (List.length placedLabels)) box) as (final & Hs & _).
    { pose proof (reach_le_length (top box) placedLabels). lia. }
    exists final. split; [exact Hs|].
    intros more Hle. eapply settle_more; eauto.
  - intros st pl H.
    destruct (relocate_moves_down boxHeight st pl H) as [E Hlt].
    split; [rewrite E; reflexivity|exact Hlt].
  - intros Habove.
    assert (E : scan boxHeight box placedLabels = (box, false)).
    { unfold scan. apply scan_untouched.
      intros q Hq. apply overlaps_false_above. auto. }
    split; [exact E|]. cbn [settle]. rewrite E. reflexivity.
  - apply placeLabels_defined.
Qed.

Lemma collision_loop_terminates_witness :
  let placed := [mkBox 0 128 40 135; mkBox 0 128 147 209] in
  let box := mkBox 0 128 300 362 in
  (forall pl, In pl placed -> bottom pl <= top box)
  /\ scan 62 box placed = (box, false)
  /\ settle 1 62 box placed = Some box.
Proof.
  intros placed box.
  assert (H : forall pl, In pl placed -> bottom pl <= top box).
  { intros pl [<-|[<-|[]]]; cbn; lra. }
  split; [exact H|].
  destruct (collision_loop_terminates 62 box placed) as (_ & _ & Hexit & _).
  exact (Hexit H).
Defined.

Lemma placeLabel_spec fontSize lineWidth n i p placedLabels :
  exists b,
    placeLabel fontSize lineWidth n i p placedLabels = Some b
    /\ rightlyPlaced fontSize lineWidth n i p placedLabels b.
Proof.
  unfold placeLabel.
  destruct (settle_enough (boxHeightOf fontSize n i) placedLabels
              (S (List.length placedLabels)) (candidate fontSize lineWidth n i p))
    as (b & Hs & Hl & Hr & Hno & Hcase).
  { pose proof (reach_le_length
                  (top (candidate fontSize lineWidth n i p)) placedLabels). lia. }
  exists b. split; [exact Hs|].
  unfold rightlyPlaced. cbn [candidate left right top] in Hl, Hr, Hcase.
  split; [exact Hl|]. split; [exact Hr|].
  destruct Hcase as [->|(Hup & Hb & e & He & Ht)].
  - cbn [candidate top bottom].
    split; [reflexivity|]. split; [lra|]. split; [exact Hno|].
    split; [left; reflexivity|].
    intros (e & He & Ho). rewrite (Hno e He) in Ho. discriminate.
  - split; [exact Hb|]. split; [lra|]. split; [exact Hno|].
    split; [right; exists e; auto|].
    intros _. split; [exact Hup|]. exists e. auto.
Qed.

Lemma labelPass_spec fontSize lineWidth n cps : forall index placedLabels,
  exists fresh,
    labelPass fontSize lineWidth n index cps placedLabels
    = Some (placedLabels ++ fresh)
    /\ List.length fresh = List.length cps
    /\ forall k p b,
         nth_error cps k = Some p -> nth_error fresh k = Some b ->
         rightlyPlaced fontSize lineWidth n (index + k) p
                       (placedLabels ++ firstn k fresh) b.
Proof.
  induction cps as [|p rest IH]; intros index placedLabels.
  - exists []. cbn [labelPass]. rewrite app_nil_r.
    split; [reflexivity|]. split; [reflexivity|].
    intros k q b Hq. destruct k; discriminate.
  - cbn [labelPass].
    destruct (placeLabel_spec fontSize lineWidth n index p placedLabels)
      as (box & Hbox & Hright).
    rewrite Hbox.
    destruct (IH (S index) (placedLabels ++ [box])) as (fresh & Hpass & Hlen & Hall).
    exists (box :: fresh). rewrite Hpass, <- app_assoc.
    split; [reflexivity|]. split; [cbn; lia|].
    intros k q b Hq Hb. destruct k as [|k].
    + cbn in Hq, Hb. inversion Hq; inversion Hb; subst.
      cbn [firstn]. rewrite app_nil_r, Nat.add_0_r. exact Hright.
    + cbn [nth_error] in Hq, Hb. specialize (Hall k q b Hq Hb).
      cbn [firstn]. rewrite Nat.add_succ_r.
      rewrite <- app_assoc in Hall. exact Hall.
Qed.

(* ----------------------------------------------------------------- *)
(** ** Frames and the recorder's stop (C6) *)

Import Recorder.

Lemma animate_tail p lineWidth s startTime now d :
  animate p lineWidth s startTime now = Some d ->
  progress d = progressAt startTime (duration p) now
  /\ ((next d = RequestFrame /\ progress d < 1)
      \/ (next d = StopAfter 500 /\ progress d = 1)).
Proof.
  unfold animate. intros H.
  destruct (placeLabels (labelFontSize p) lineWidth (calculatedPoints s));
    [|discriminate].
  destruct (planeAt s (progressAt startTime (duration p) now));
    [|discriminate].
  inversion H; subst d; clear H. cbn [progress next].
  split; [reflexivity|].
  pose proof (progressAt_le_1 startTime (duration p) now).
  destruct (Rlt_dec (progressAt startTime (duration p) now) 1);
    [left|right]; split; auto; lra.
Qed.

Lemma animate_defined p lineWidth s startTime now :
  calculatedPoints s <> [] ->
  exists d, animate p lineWidth s startTime now = Some d.
Proof.
  intros Hne. unfold animate.
  destruct (placeLabels_defined (labelFontSize p) lineWidth (calculatedPoints s))
    as (boxes & ->).
  unfold planeAt. destruct (calculatedPoints s); [congruence|].
  eexists. reflexivity.
Qed.


Section SessionFacts.

Variable p : Props.
Variable lineWidth : nat -> R.
Variable s : Snapshot.
Variable startTime : R.


Lemma run_after_crash inputs ph tr :
  run p lineWidth s startTime Crashed inputs = Some (ph, tr) ->
  inputs = [] /\ tr = [].
Proof.
  destruct inputs as [|i rest]; cbn.
  - intros H. inversion H. auto.
  - destruct i; discriminate.
Qed.




End SessionFacts.


Lemma step_frame p lineWidth s startTime now :
  calculatedPoints s <> [] ->
  step p lineWidth s startTime AwaitFrame (Raf now)
  = Some (if Rlt_dec (progressAt startTime (duration p) now) 1
          then (AwaitFrame,
                [FrameDrawn (progressAt startTime (duration p) now);
                 FrameRequested])
          else (AwaitTimer,
                [FrameDrawn (progressAt startTime (duration p) now);
                 TimerSet 500])).
Proof.
  intros Hne. unfold step, animate.
  destruct (placeLabels_defined (labelFontSize p) lineWidth (calculatedPoints s))
    as (boxes & ->).
  unfold planeAt. destruct (calculatedPoints s) as [|a l]; [congruence|].
  cbn [next progress].
  destruct (Rlt_dec (progressAt startTime (duration p) now) 1); reflexivity.
Qed.


(* ----------------------------------------------------------------- *)
(** ** The watermark layers (C7) *)

(** The first layer follows the rule: it draws only for an enabled
    watermark at a top edge. *)
Lemma top_layer_only_at_top c wm img :
  wmAt isTop wm = false -> topWatermarkLayer c wm img = [].
Proof. unfold topWatermarkLayer. intros ->. reflexivity. Qed.

(** A text watermark follows the rule in both layers. *)
Lemma text_watermark_layers c w img :
  wtype w = WmText ->
  topWatermarkLayer c (Some w) img
  = (if enabled w && isTop (position w) then textWatermark c w else [])
  /\ finalWatermarkLayer c (Some w) img
     = (if enabled w && isBottom (position w) then textWatermark c w else []).
Proof.
  intros Ht. unfold topWatermarkLayer, finalWatermarkLayer, wmAt,
    drawWatermark, imageWatermark.
  rewrite Ht. destruct (enabled w), (isTop (position w)),
    (isBottom (position w)); cbn; auto.
Qed.

(** An image watermark at a bottom edge is painted twice in the final
    layer of one frame. *)
Lemma bottom_image_watermark_painted_twice c img :
  topWatermarkLayer c (Some bottomLogo) (Some img) = []
  /\ finalWatermarkLayer c (Some bottomLogo) (Some img)
     = imageWatermark c bottomLogo (Some img)
       ++ imageWatermark c bottomLogo (Some img).
Proof.
  split; [reflexivity|].
  unfold finalWatermarkLayer, drawWatermark, wmAt, textWatermark.
  cbn [enabled bottomLogo position isBottom andb wtype].
  rewrite app_nil_r. reflexivity.
Qed.

(** Every enabled image watermark whose image is held is drawn in the
    final layer, whatever its position. *)
Lemma image_watermark_always_in_final_layer c w img :
  enabled w = true -> wtype w = WmImage ->
  exists x0 y0 dw dh rest,
    finalWatermarkLayer c (Some w) (Some img)
    = WatermarkImage x0 y0 dw dh (opacity w) :: rest.
Proof.
  intros He Ht. unfold finalWatermarkLayer, imageWatermark.
  rewrite He, Ht. cbn [app]. do 5 eexists. reflexivity.
Qed.

(** C7 at a failing input: an enabled image watermark anchored at the top
    left is drawn as the first layer, and the final layer of the same
    frame draws it once more, at the same top-left place, over the plane
    icon. *)
Theorem top_image_watermark_drawn_again_in_final_layer (c : Chart)
    (img : Image) :
  topWatermarkLayer c (Some topLogo) (Some img)
  = imageWatermark c topLogo (Some img)
  /\ finalWatermarkLayer c (Some topLogo) (Some img)
     = imageWatermark c topLogo (Some img)
  /\ exists w h,
       imageWatermark c topLogo (Some img) = [WatermarkImage 24 24 w h (8 / 10)].
Proof.
  split; [|split].
  - unfold topWatermarkLayer, drawWatermark, wmAt, textWatermark.
    cbn [enabled topLogo position isTop andb wtype].
    apply app_nil_r.
  - unfold finalWatermarkLayer, wmAt.
    cbn [enabled topLogo position isBottom andb].
    apply app_nil_r.
  - unfold imageWatermark.
    cbn [wtype topLogo position isCenter isRight isBottom margin opacity].
    eexists. eexists. reflexivity.
Qed.

(* ----------------------------------------------------------------- *)
(** ** Failures of the MP4 export (C8) *)

Import Mp4Export.

(** Follow the call through its awaited steps: a stage that fulfils
    lets the call go on, the other two ways end it. *)
Ltac close_case :=
  cbn; repeat split; intros; try discriminate; try reflexivity;
  try congruence; auto 10.

Ltac stage v := destruct v; [cbn | close_case | close_case].

(** C8: when a stage of [downloadMp4] fails (the capture, the engine
    load, a write of the raw capture or of the audio, the transcode, the
    read-back), the call reports one failure and triggers neither an MP4
    download nor a success notice; an anchor click happens only when every
    stage fulfilled, at most once, and only after the output file was read
    back; when every stage fulfils the file is downloaded once under the
    generated name. *)
Theorem mp4_failure_reported_once_without_download (w : World)
    (p : Props) :
  let log := effectsOf w p in
  (outcome (stages w p) = Rejected ->
   countIf isError log = 1%nat /\ countIf isClick log = 0%nat
   /\ countIf isSuccess log = 0%nat)
  /\ (countIf isClick log <> 0%nat ->
      outcome (stages w p) = Fulfilled
      /\ readFile w = Fulfilled /\ readData w = BinaryData
      /\ countIf isClick log = 1%nat /\ countIf isError log = 0%nat)
  /\ clickFollowsRead false log = true
  /\ (outcome (stages w p) = Fulfilled ->
      In (AnchorClick (FileName.generateFileName (clock w) (title p) "mp4")) log
      /\ countIf isClick log = 1%nat /\ countIf isError log = 0%nat).
Proof.
  destruct w as [rec loaded ld fv wv fa wa ex rf rd clk].
  destruct p as [pts ratio dur ttl descr audio wm font img].
  unfold effectsOf, downloadMp4, tryBlock, stages, readBack, countIf.
  cbn [recordAnimation ffmpegLoaded load fetchVideo writeVideo fetchAudio
       writeAudio exec readFile readData clock audioFile title].
  stage rec. destruct loaded; cbn; [|stage ld];
    (stage fv; stage wv; destruct audio; cbn; [stage fa; stage wa|];
     stage ex; stage rf; destruct rd; close_case).
Qed.

Lemma mp4_failure_reported_once_without_download_witness :
  outcome (stages transcodeFails tripWithAudio) = Rejected
  /\ countIf isError (effectsOf transcodeFails tripWithAudio) = 1%nat
  /\ countIf isClick (effectsOf transcodeFails tripWithAudio) = 0%nat
  /\ countIf isSuccess (effectsOf transcodeFails tripWithAudio) = 0%nat.
Proof.
  assert (H : outcome (stages transcodeFails tripWithAudio) = Rejected)
    by reflexivity.
  split; [exact H|].
  exact (proj1 (mp4_failure_reported_once_without_download
                  transcodeFails tripWithAudio) H).
Defined.

(* ----------------------------------------------------------------- *)
(** ** File names (C9) *)

Import FileName.

Lemma alnum_not_hyphen c : isAlnum c = true -> isHyphen c = false.
Proof.
  intros H. unfold isHyphen. destruct (Ascii.eqb c "-") eqn:E; [|reflexivity].
  apply Ascii.eqb_eq in E. subst c. discriminate H.
Qed.

(** After a run, the output resumes with a letter or a digit, if at all. *)
Lemma replaceRuns_in_run_head s :
  replaceRuns true s = EmptyString
  \/ exists c r, replaceRuns true s = String c r /\ isAlnum c = true.
Proof.
  induction s as [|c s IH]; [left; reflexivity|].
  cbn [replaceRuns]. destruct (isAlnum c) eqn:E; [|exact IH].
  right. eauto.
Qed.

Lemma replaceRuns_outside s :
  replaceRuns false s
  = if startsAlnum s then replaceRuns true s
    else match s with
         | EmptyString => EmptyString
         | String _ _ => String "-" (replaceRuns true s)
         end.
Proof.
  destruct s as [|c s]; [reflexivity|].
  cbn [replaceRuns startsAlnum]. destruct (isAlnum c); reflexivity.
Qed.

Lemma dropLeading_replaceRuns s :
  dropLeading (replaceRuns false s) = replaceRuns true s.
Proof.
  destruct s as [|c s]; [reflexivity|].
  cbn [replaceRuns]. destruct (isAlnum c) eqn:E.
  - cbn [dropLeading]. rewrite (alnum_not_hyphen c E). reflexivity.
  - cbn [dropLeading isHyphen]. cbn [Ascii.eqb Bool.eqb].
    destruct (replaceRuns_in_run_head s) as [->|(d & r & -> & Hd)];
      [reflexivity|].
    cbn [dropLeading]. rewrite (alnum_not_hyphen d Hd). reflexivity.
Qed.

Lemma alnumRuns_start s : startsAlnum s = true -> alnumRuns s <> [].
Proof.
  destruct s as [|c s]; [discriminate|].
  cbn [startsAlnum alnumRuns]. intros ->.
  destruct (startsAlnum s); [destruct (alnumRuns s)|]; discriminate.
Qed.

Lemma allHyphens_replaceRuns s :
  allHyphens (replaceRuns true s)
  = match alnumRuns s with [] => true | _ :: _ => false end.
Proof.
  induction s as [|c s IH]; [reflexivity|].
  cbn [replaceRuns alnumRuns]. destruct (isAlnum c) eqn:E; [|exact IH].
  cbn [allHyphens]. rewrite (alnum_not_hyphen c E).
  destruct (startsAlnum s); [destruct (alnumRuns s)|]; reflexivity.
Qed.

Lemma concat_cons_char c w ws :
  String.concat "-" (String c w :: ws) = String c (String.concat "-" (w :: ws)).
Proof. destruct ws; reflexivity. Qed.

(** The two replacements leave the runs of letters and digits, joined
    by single hyphens. *)
Lemma dropTrailing_replaceRuns s :
  dropTrailing (replaceRuns true s) = String.concat "-" (alnumRuns s).
Proof.
  induction s as [|c s IH]; [reflexivity|].
  cbn [replaceRuns alnumRuns]. destruct (isAlnum c) eqn:E; [|exact IH].
  cbn [dropTrailing allHyphens]. rewrite (alnum_not_hyphen c E).
  cbn [andb]. rewrite replaceRuns_outside.
  destruct (startsAlnum s) eqn:Es.
  - rewrite IH. pose proof (alnumRuns_start s Es) as Hne.
    destruct (alnumRuns s) as [|w ws]; [congruence|].
    symmetry. apply concat_cons_char.
  - destruct s as [|d s']; [reflexivity|].
    cbn [dropTrailing allHyphens isHyphen]. cbn [Ascii.eqb Bool.eqb andb].
    rewrite allHyphens_replaceRuns, IH.
    destruct (alnumRuns (String d s')) as [|w ws]; reflexivity.
Qed.

Lemma sanitize_slug t : sanitize t = slug t.
Proof.
  unfold sanitize, slug, trimHyphens.
  rewrite dropLeading_replaceRuns. apply dropTrailing_replaceRuns.
Qed.

Lemma length_append (a b : string) :
  String.length (a ++ b) = (String.length a + String.length b)%nat.
Proof.
  induction a as [|c a IH]; [reflexivity|]. cbn. rewrite IH. reflexivity.
Qed.

Lemma pad_twoDigits n : (n < 100)%N -> pad n = twoDigits n.
Proof.
  intros H.
  assert (A : forallb (fun k => String.eqb (pad (N.of_nat k))
                                           (twoDigits (N.of_nat k)))
                      (seq 0 100) = true) by (vm_compute; reflexivity).
  rewrite forallb_forall in A.
  rewrite <- (N2Nat.id n). apply String.eqb_eq, A, in_seq. lia.
Qed.

Lemma year_four_digits y :
  (1000 <= y <= 9999)%N -> String.length (Js.ofN y) = 4%nat.
Proof.
  intros H.
  assert (A : forallb (fun k => Nat.eqb (String.length
                                           (Js.ofN (1000 + N.of_nat k))) 4)
                      (seq 0 (90 * 100)) = true) by (vm_compute; reflexivity).
  rewrite forallb_forall in A.
  replace y with (1000 + N.of_nat (N.to_nat (y - 1000)))%N by lia.
  apply Nat.eqb_eq, A, in_seq. lia.
Qed.

(** C9: [generateFileName] is a function of the clock reading, the title
    and the extension.  For a non-empty title its result is the title in
    lower case with every run of characters other than letters and digits
    replaced by one hyphen and no hyphen at either end, then a hyphen, the
    time stamp, a dot and the extension; without a title, or with an empty
    one, the prefix is [tradeflight]; the title [My Trip!] gives the
    prefix [my-trip]; and for a clock reading of the years 1000 to 9999
    the time stamp reads YYYY-MM-DD_HH-mm-ss. *)
Theorem generateFileName_shape (now : Clock) (ext : string) :
  (forall c t,
     generateFileName now (Some (String c t)) ext
     = slug (String c t) ++ "-" ++ timestamp now ++ "." ++ ext)%string
  /\ (generateFileName now None ext
      = "tradeflight" ++ "-" ++ timestamp now ++ "." ++ ext)%string
  /\ (generateFileName now (Some "") ext
      = "tradeflight" ++ "-" ++ timestamp now ++ "." ++ ext)%string
  /\ safeTitle (Some "My Trip!") = "my-trip"
  /\ (validClock now ->
      (timestamp now
       = Js.ofN (year now) ++ "-" ++ twoDigits (month now + 1) ++ "-"
         ++ twoDigits (date now) ++ "_" ++ twoDigits (hours now) ++ "-"
         ++ twoDigits (minutes now) ++ "-" ++ twoDigits (seconds now))%string
      /\ String.length (Js.ofN (year now)) = 4%nat
      /\ String.length (timestamp now) = 19%nat).
Proof.
  split; [|split; [|split; [|split]]].
  - intros c t. unfold generateFileName, safeTitle.
    rewrite sanitize_slug. reflexivity.
  - reflexivity.
  - reflexivity.
  - reflexivity.
  - intros (Hy & Hm & Hd & Hh & Hmi & Hs).
    assert (E : (timestamp now
       = Js.ofN (year now) ++ "-" ++ twoDigits (month now + 1) ++ "-"
         ++ twoDigits (date now) ++ "_" ++ twoDigits (hours now) ++ "-"
         ++ twoDigits (minutes now) ++ "-" ++ twoDigits (seconds now))%string).
    { unfold timestamp. rewrite !pad_twoDigits by lia. reflexivity. }
    split; [exact E|]. split; [apply year_four_digits; exact Hy|].
    rewrite E, length_append, (year_four_digits _ Hy). reflexivity.
Qed.

Lemma generateFileName_shape_witness :
  validClock marchMorning
  /\ generateFileName marchMorning (Some "My Trip!") "mp4"
     = "my-trip-2024-03-05_07-08-09.mp4"
  /\ String.length (timestamp marchMorning) = 19%nat.
Proof.
  assert (H : validClock marchMorning).
  { unfold validClock, marchMorning.
    cbn [year month date hours minutes seconds]. lia. }
  split; [exact H|]. split; [reflexivity|].
  destruct (generateFileName_shape marchMorning "mp4")
    as (_ & _ & _ & _ & Hstamp).
  exact (proj2 (proj2 (Hstamp H))).
Defined.

(* ================================================================= *)
(** * Further properties of the code *)

Import MoreSamples View Slug Editor EditorView.

(* ----------------------------------------------------------------- *)
(** ** The layout keeps the points inside the chart *)


Lemma maxOf_ge l a : In a l -> a <= Js.maxOf l.
Proof.
  induction l as [|b l IH]; intros Hin; [destruct Hin|].
  destruct l as [|c l'].
  - destruct Hin as [->|[]]. cbn. lra.
  - change (a <= Rmax b (Js.maxOf (c :: l'))).
    destruct Hin as [->|Hin].
    + apply Rmax_l.
    + apply Rle_trans with (2 := Rmax_r _ _). apply IH. exact Hin.
Qed.

Lemma orElse_pos d : 0 <= d -> 0 < Js.orElse d 1.
Proof. intros H. unfold Js.orElse. destruct (Req_dec_T d 0); lra. Qed.




Lemma snapshot_inv p s :
  snapshot p = Some s ->
  exists w h tz,
    ratioMap (aspectRatio p) = Some (w, h)
    /\ timesOf (points p) = Some tz
    /\ chart s = chartOf p w h
    /\ calculatedPoints s = calculatedPointsAt (chartOf p w h) (points p) tz
    /\ segments s = segmentsOf (calculatedPoints s)
    /\ totalLength s = totalLengthOf (segments s).
Proof.
  unfold snapshot. intros Hs.
  destruct (ratioMap (aspectRatio p)) as [[w h]|]; [|discriminate].
  destruct (timesOf (points p)) as [tz|]; [|discriminate].
  inversion Hs; subst s; clear Hs. exists w, h, tz. cbn. auto 10.
Qed.

Lemma snapshot_defined p w h tz :
  ratioMap (aspectRatio p) = Some (w, h) ->
  timesOf (points p) = Some tz ->
  exists s, snapshot p = Some s.
Proof. unfold snapshot. intros -> ->. eexists. reflexivity. Qed.

Lemma minOf_in l : l <> [] -> In (Js.minOf l) l.
Proof.
  induction l as [|a l IH]; intros Hne; [congruence|].
  destruct l as [|b l']; [left; reflexivity|].
  change (In (Rmin a (Js.minOf (b :: l'))) (a :: b :: l')).
  unfold Rmin. destruct (Rle_dec a (Js.minOf (b :: l')));
    [left; reflexivity|right; apply IH; discriminate].
Qed.


Lemma range_denominator_pos l :
  l <> [] -> 0 < Js.orElse (Js.maxOf l - Js.minOf l) 1.
Proof.
  intros Hne. apply orElse_pos.
  pose proof (minOf_in l Hne) as Hin.
  pose proof (maxOf_ge l _ Hin). lra.
Qed.


Lemma ascending_tail t l : ascending (t :: l) -> ascending l.
Proof. destruct l; [intros; exact I|intros [_ H]; exact H]. Qed.


Lemma last_default {A} (l : list A) (d d' : A) :
  l <> [] -> last l d = last l d'.
Proof.
  induction l as [|a l IH]; intros Hne; [congruence|].
  destruct l as [|b l']; [reflexivity|].
  change (last (b :: l') d = last (b :: l') d'). apply IH. discriminate.
Qed.




(** With a positive chart width, a later time lies further right. *)
Lemma x_increasing c mn mx mnv mxv : forall tz ps,
  0 < graphWidth c -> 0 < Js.orElse (mx - mn) 1 -> ascending tz ->
  increasing (map x (map (calcPoint c mn mx mnv mxv) (combine ps tz))).
Proof.
  induction tz as [|t tz IH]; intros ps Hw HD Ha.
  - destruct ps; exact I.
  - destruct ps as [|a ps]; [exact I|].
    destruct tz as [|t' tz']; [destruct ps; exact I|].
    destruct ps as [|a' ps']; [exact I|].
    specialize (IH (a' :: ps') Hw HD (ascending_tail _ _ Ha)).
    destruct Ha as [Hlt _]. apply IZR_lt in Hlt.
    cbn [combine map] in *. split; [|exact IH].
    cbn [x calcPoint].
    assert (Hinv : 0 < / Js.orElse (mx - mn) 1) by (apply Rinv_0_lt_compat, HD).
    assert (Hk : 0 < / Js.orElse (mx - mn) 1 * graphWidth c)
      by (apply Rmult_lt_0_compat; assumption).
    unfold Rdiv. rewrite !Rmult_assoc. nra.
Qed.




(* ----------------------------------------------------------------- *)
(** ** The size of the chart *)

(** For every aspect ratio of the table and every label size of the
    settings slider (8 to 64) the chart is at least 349 pixels wide, its
    right padding exceeding the left one by 75 pixels; with no enabled
    watermark and a label size up to 24 it is at least 166 pixels high. *)
Theorem chart_has_room (p : Props) (w h : R) :
  ratioMap (aspectRatio p) = Some (w, h) ->
  8 <= labelFontSize p <= 64 ->
  graphWidth (chartOf p w h) = w - 475 - 4 * labelFontSize p
  /\ 349 <= graphWidth (chartOf p w h)
  /\ w - (chartLeft (chartOf p w h) + graphWidth (chartOf p w h))
     = chartLeft (chartOf p w h) + 75
  /\ (wmEnabled (watermark p) = false -> labelFontSize p <= 24 ->
      166 <= graphHeight (chartOf p w h)).
Proof.
  intros Hr Hf.
  assert (Hwh : 1080 <= w /\ 1080 <= h).
  { unfold ratioMap in Hr.
    repeat match type of Hr with
           | (if ?b then _ else _) = _ => destruct b
           end; inversion Hr; subst; lra. }
  unfold chartOf. cbn [graphWidth graphHeight chartLeft].
  split; [lra|]. split; [lra|]. split; [lra|].
  intros Hwm Hsmall. unfold wmEnabled in *.
  destruct (watermark p) as [c|]; [rewrite Hwm; cbn [andb]|];
    destruct (Js.truthy (title p)), (Js.truthy (description p)); lra.
Qed.


(** The sample scenario, laid out. *)
Lemma tripProps_laid_out :
  exists s,
    snapshot tripProps = Some s
    /\ chart s = chartOf tripProps 1440 1440
    /\ calculatedPoints s
       = calculatedPointsAt (chartOf tripProps 1440 1440) (points tripProps)
                            [540; 545; 550]%Z
    /\ chartLeft (chart s) = 248 /\ graphWidth (chart s) = 869
    /\ chartTop (chart s) = 240 /\ graphHeight (chart s) = 776.
Proof.
  destruct (snapshot_defined tripProps 1440 1440 [540; 545; 550]%Z
              eq_refl eq_refl) as (s & Hs).
  exists s. split; [exact Hs|].
  destruct (snapshot_inv _ _ Hs) as (w & h & tz & Hr & Ht & Ec & Ecps & _).
  injection Hr as <- <-. injection Ht as <-.
  split; [exact Ec|]. split; [exact Ecps|]. rewrite Ec.
  unfold chartOf. cbn. repeat split; lra.
Qed.




Lemma chart_has_room_witness :
  ratioMap (aspectRatio tripProps) = Some (1440, 1440)
  /\ 8 <= labelFontSize tripProps <= 64
  /\ 349 <= graphWidth (chartOf tripProps 1440 1440).
Proof.
  assert (Hr : ratioMap (aspectRatio tripProps) = Some (1440, 1440))
    by reflexivity.
  assert (Hf : 8 <= labelFontSize tripProps <= 64) by (cbn; lra).
  split; [exact Hr|]. split; [exact Hf|].
  exact (proj1 (proj2 (chart_has_room tripProps 1440 1440 Hr Hf))).
Defined.


(* ----------------------------------------------------------------- *)
(** ** The plane rides the tip of the drawn path *)

Lemma drawPath_nothing cps segs r : r <= 0 -> drawPath cps segs r = [].
Proof.
  intros Hr. destruct cps as [|a [|b cps]]; try reflexivity;
    destruct segs as [|seg segs]; try reflexivity.
  cbn [drawPath]. destruct (Rle_dec r 0); [reflexivity|lra].
Qed.

Lemma planeWalk_nothing cps segs r pl : r <= 0 -> planeWalk cps segs r pl = pl.
Proof.
  intros Hr. destruct cps as [|a [|b cps]]; try reflexivity;
    destruct segs as [|seg segs]; try reflexivity.
  cbn [planeWalk]. destruct (Rle_dec r 0); [reflexivity|lra].
Qed.

Lemma last_cons {A} (a : A) (l : list A) (d : A) : last (a :: l) d = last l a.
Proof.
  destruct l as [|b l]; [reflexivity|].
  change (last (b :: l) d = last (b :: l) a). apply last_default. discriminate.
Qed.

Lemma planeWalk_step a b cps seg segs r pl :
  planeWalk (a :: b :: cps) (seg :: segs) r pl
  = if Rle_dec r 0 then pl
    else if Rge_dec r seg then
           planeWalk (b :: cps) segs (r - seg)
                     (mkPlane (x b) (y b) (Js.atan2 (y b - y a) (x b - x a)))
         else mkPlane (x a + (x b - x a) * (r / seg))
                      (y a + (y b - y a) * (r / seg))
                      (Js.atan2 (y b - y a) (x b - x a)).
Proof. reflexivity. Qed.

Lemma drawPath_step a b cps seg segs r :
  drawPath (a :: b :: cps) (seg :: segs) r
  = if Rle_dec r 0 then []
    else if Rge_dec r seg then
           mkStroke (segmentColor a b) (x a) (y a) (x b) (y b)
           :: drawPath (b :: cps) segs (r - seg)
         else mkStroke (segmentColor a b) (x a) (y a)
                       (x a + (x b - x a) * (r / seg))
                       (y a + (y b - y a) * (r / seg))
              :: drawPath (b :: cps) segs 0.
Proof. reflexivity. Qed.

Lemma plane_at_path_tip cps : forall segs r pl,
  (planeX (planeWalk cps segs r pl), planeY (planeWalk cps segs r pl))
  = last (map strokeEnd (drawPath cps segs r)) (planeX pl, planeY pl).
Proof.
  induction cps as [|a cps IH]; intros segs r pl; [reflexivity|].
  destruct cps as [|b cps']; [reflexivity|].
  destruct segs as [|seg segs']; [reflexivity|].
  rewrite planeWalk_step, drawPath_step.
  destruct (Rle_dec r 0); [reflexivity|].
  destruct (Rge_dec r seg).
  - cbn [map]. rewrite last_cons. rewrite IH. reflexivity.
  - rewrite drawPath_nothing by lra. reflexivity.
Qed.

(** In every frame the plane icon sits where the drawn part of the path
    ends, and on the first point while nothing of the path is drawn. *)
Theorem plane_rides_path_tip (s : Snapshot) (pr : R) (pl : Plane)
    (p0 : CalcPoint) :
  planeAt s pr = Some pl ->
  hd_error (calculatedPoints s) = Some p0 ->
  (planeX pl, planeY pl)
  = last (map strokeEnd
              (drawPath (calculatedPoints s) (segments s) (totalLength s * pr)))
         (x p0, y p0).
Proof.
  unfold planeAt. intros Hpl Hp0.
  destruct (calculatedPoints s) as [|a l] eqn:E; [discriminate|].
  assert (E0 : a = p0) by (cbn in Hp0; congruence). subst a.
  assert (Epl : pl = planeWalk (p0 :: l) (segments s) (totalLength s * pr)
                               (mkPlane (x p0) (y p0) 0)) by congruence.
  rewrite Epl, plane_at_path_tip. reflexivity.
Qed.

Lemma plane_rides_path_tip_witness :
  exists s pl p0,
    planeAt s (1 / 2) = Some pl
    /\ hd_error (calculatedPoints s) = Some p0
    /\ (planeX pl, planeY pl)
       = last (map strokeEnd
                   (drawPath (calculatedPoints s) (segments s)
                             (totalLength s * (1 / 2))))
              (x p0, y p0).
Proof.
  destruct tripProps_laid_out as (s & _ & _ & Ecps & _).
  assert (H : exists pl p0, planeAt s (1 / 2) = Some pl
                            /\ hd_error (calculatedPoints s) = Some p0).
  { unfold planeAt. rewrite Ecps. eexists. eexists.
    split; reflexivity. }
  destruct H as (pl & p0 & Hpl & Hp0). exists s, pl, p0.
  split; [exact Hpl|]. split; [exact Hp0|].
  exact (plane_rides_path_tip s (1 / 2) pl p0 Hpl Hp0).
Defined.

(* ----------------------------------------------------------------- *)
(** ** What every frame holds *)

Lemma labels_fit fontSize lineWidth cps boxes :
  placeLabels fontSize lineWidth cps = Some boxes ->
  List.length boxes = List.length cps.
Proof.
  intros H.
  destruct (labelPass_spec fontSize lineWidth (List.length cps) cps 0 [])
    as (fresh & Hp & Hlen & _).
  unfold placeLabels in H. rewrite Hp in H. injection H as <-. exact Hlen.
Qed.

Lemma strokesOf_app l1 l2 : strokesOf (l1 ++ l2) = strokesOf l1 ++ strokesOf l2.
Proof.
  induction l1 as [|o l1 IH]; [reflexivity|].
  destruct o; cbn; rewrite IH; reflexivity.
Qed.

Lemma dotsOf_app l1 l2 : dotsOf (l1 ++ l2) = dotsOf l1 ++ dotsOf l2.
Proof.
  induction l1 as [|o l1 IH]; [reflexivity|].
  destruct o; cbn; rewrite IH; reflexivity.
Qed.

Lemma planesOf_app l1 l2 : planesOf (l1 ++ l2) = planesOf l1 ++ planesOf l2.
Proof.
  induction l1 as [|o l1 IH]; [reflexivity|].
  destruct o; cbn; rewrite IH; reflexivity.
Qed.

Lemma labelsOf_app l1 l2 : labelsOf (l1 ++ l2) = labelsOf l1 ++ labelsOf l2.
Proof.
  induction l1 as [|o l1 IH]; [reflexivity|].
  destruct o; cbn; rewrite IH; reflexivity.
Qed.

(** No watermark drawing is a stroke, a dot, a plane or a label. *)
Lemma watermark_only l :
  watermarksOf l = l ->
  strokesOf l = [] /\ dotsOf l = [] /\ planesOf l = [] /\ labelsOf l = [].
Proof.
  unfold watermarksOf. induction l as [|o l IH]; intros H; [auto|].
  cbn [filter] in H. destruct (isWatermarkOp o) eqn:E.
  - injection H as H. destruct o; try discriminate; cbn; auto.
  - exfalso. assert (Hlen : (List.length (filter isWatermarkOp l)
                             <= List.length l)%nat) by apply filter_length_le.
    rewrite H in Hlen. cbn in Hlen. lia.
Qed.

Lemma imageWatermark_only c w img :
  watermarksOf (imageWatermark c w img) = imageWatermark c w img.
Proof. unfold imageWatermark. destruct (wtype w), img; reflexivity. Qed.

Lemma textWatermark_only c w :
  watermarksOf (textWatermark c w) = textWatermark c w.
Proof.
  unfold textWatermark. destruct (wtype w); [reflexivity|].
  destruct (text w) as [[|a t]|]; reflexivity.
Qed.

Lemma watermarksOf_app l1 l2 :
  watermarksOf (l1 ++ l2) = watermarksOf l1 ++ watermarksOf l2.
Proof. apply filter_app. Qed.

Lemma drawWatermark_only c wm img :
  watermarksOf (drawWatermark c wm img) = drawWatermark c wm img.
Proof.
  unfold drawWatermark. destruct wm as [w|]; [|reflexivity].
  destruct (enabled w); [|reflexivity].
  rewrite watermarksOf_app, imageWatermark_only, textWatermark_only.
  reflexivity.
Qed.

Lemma topWatermarkLayer_only c wm img :
  watermarksOf (topWatermarkLayer c wm img) = topWatermarkLayer c wm img.
Proof.
  unfold topWatermarkLayer. destruct (wmAt isTop wm); [|reflexivity].
  apply drawWatermark_only.
Qed.

Lemma finalWatermarkLayer_only c wm img :
  watermarksOf (finalWatermarkLayer c wm img) = finalWatermarkLayer c wm img.
Proof.
  unfold finalWatermarkLayer. destruct wm as [w|]; [|reflexivity].
  destruct (enabled w); [|reflexivity].
  rewrite watermarksOf_app, imageWatermark_only.
  destruct (wmAt isBottom (Some w)); [|reflexivity].
  rewrite drawWatermark_only. reflexivity.
Qed.

Lemma headerLayer_views p c :
  strokesOf (headerLayer p c) = [] /\ dotsOf (headerLayer p c) = []
  /\ planesOf (headerLayer p c) = [] /\ labelsOf (headerLayer p c) = []
  /\ watermarksOf (headerLayer p c) = [].
Proof.
  unfold headerLayer.
  destruct (title p) as [[|a t]|], (description p) as [[|b d]|]; cbn; auto.
Qed.

Lemma labelLayer_views n : forall cps index boxes,
  strokesOf (labelLayer n index cps boxes) = []
  /\ dotsOf (labelLayer n index cps boxes) = []
  /\ planesOf (labelLayer n index cps boxes) = []
  /\ watermarksOf (labelLayer n index cps boxes) = []
  /\ (List.length boxes = List.length cps ->
      labelsOf (labelLayer n index cps boxes)
      = map (fun qb => (x (fst qb), top (snd qb))) (combine cps boxes)).
Proof.
  induction cps as [|q cps IH]; intros index boxes.
  - cbn. repeat split; auto.
  - destruct boxes as [|b boxes]; [cbn; repeat split; auto; discriminate|].
    destruct (IH (S index) boxes) as (H1 & H2 & H3 & H4 & H5).
    cbn [labelLayer strokesOf dotsOf planesOf labelsOf combine map fst snd].
    unfold watermarksOf in *. cbn [filter isWatermarkOp].
    repeat split; auto.
    intros Hlen. f_equal. apply H5. cbn in Hlen. lia.
Qed.

Lemma path_views l :
  strokesOf (map PathStroke l) = l /\ dotsOf (map PathStroke l) = []
  /\ planesOf (map PathStroke l) = [] /\ labelsOf (map PathStroke l) = []
  /\ watermarksOf (map PathStroke l) = [].
Proof.
  induction l as [|st l (H1 & H2 & H3 & H4 & H5)]; [cbn; auto|].
  cbn [map strokesOf dotsOf planesOf labelsOf]. unfold watermarksOf in *.
  cbn [filter isWatermarkOp]. rewrite H1. auto.
Qed.

Lemma dots_views (l : list CalcPoint) :
  strokesOf (map (fun q => Dot (x q) (y q)) l) = []
  /\ dotsOf (map (fun q => Dot (x q) (y q)) l) = map (fun q => (x q, y q)) l
  /\ planesOf (map (fun q => Dot (x q) (y q)) l) = []
  /\ labelsOf (map (fun q => Dot (x q) (y q)) l) = []
  /\ watermarksOf (map (fun q => Dot (x q) (y q)) l) = [].
Proof.
  induction l as [|q l (H1 & H2 & H3 & H4 & H5)]; [cbn; auto|].
  cbn [map strokesOf dotsOf planesOf labelsOf]. unfold watermarksOf in *.
  cbn [filter isWatermarkOp]. rewrite H2. auto.
Qed.

(** The frame, layer by layer. *)
Lemma animate_layers p lineWidth s startTime now d :
  animate p lineWidth s startTime now = Some d ->
  exists boxes pl,
    placeLabels (labelFontSize p) lineWidth (calculatedPoints s) = Some boxes
    /\ planeAt s (progress d) = Some pl
    /\ progress d = progressAt startTime (duration p) now
    /\ ops d
       = FillBackground (width (chart s)) (height (chart s))
         :: topWatermarkLayer (chart s) (watermark p) (watermarkImage p)
         ++ headerLayer p (chart s)
         ++ map PathStroke (drawPath (calculatedPoints s) (segments s)
                                     (totalLength s * progress d))
         ++ map (fun q => Dot (x q) (y q)) (calculatedPoints s)
         ++ labelLayer (List.length (calculatedPoints s)) 0
                       (calculatedPoints s) boxes
         ++ [PlaneIcon pl]
         ++ finalWatermarkLayer (chart s) (watermark p) (watermarkImage p).
Proof.
  unfold animate. intros H.
  destruct (placeLabels (labelFontSize p) lineWidth (calculatedPoints s))
    as [boxes|]; [|discriminate].
  destruct (planeAt s (progressAt startTime (duration p) now)) as [pl|] eqn:E;
    [|discriminate].
  injection H as <-. exists boxes, pl. cbn [progress ops]. auto.
Qed.

Lemma frame_views (p : Props) (lineWidth : nat -> R)
    (s : Snapshot) (startTime now : R) (d : Drawn) :
  animate p lineWidth s startTime now = Some d ->
  strokesOf (ops d)
  = drawPath (calculatedPoints s) (segments s) (totalLength s * progress d)
  /\ dotsOf (ops d) = map (fun q => (x q, y q)) (calculatedPoints s)
  /\ List.length (labelsOf (ops d)) = List.length (calculatedPoints s)
  /\ planesOf (ops d) = match planeAt s (progress d) with
                        | Some pl => [pl]
                        | None => []
                        end.
Proof.
  intros H. destruct (animate_layers _ _ _ _ _ _ H)
    as (boxes & pl & Hb & Hpl & _ & ->).
  rewrite Hpl.
  pose proof (labels_fit (labelFontSize p) lineWidth (calculatedPoints s)
                boxes Hb) as Hlen.
  destruct (watermark_only _ (topWatermarkLayer_only (chart s) (watermark p)
                                (watermarkImage p))) as (T1 & T2 & T3 & T4).
  destruct (watermark_only _ (finalWatermarkLayer_only (chart s) (watermark p)
                                (watermarkImage p))) as (F1 & F2 & F3 & F4).
  destruct (headerLayer_views p (chart s)) as (H1 & H2 & H3 & H4 & _).
  destruct (path_views (drawPath (calculatedPoints s) (segments s)
                                 (totalLength s * progress d)))
    as (P1 & P2 & P3 & P4 & _).
  destruct (dots_views (calculatedPoints s)) as (D1 & D2 & D3 & D4 & _).
  destruct (labelLayer_views (List.length (calculatedPoints s))
              (calculatedPoints s) 0 boxes) as (L1 & L2 & L3 & _ & L5).
  cbn [strokesOf dotsOf planesOf labelsOf].
  rewrite !strokesOf_app, !dotsOf_app, !planesOf_app, !labelsOf_app.
  rewrite T1, T2, T3, T4, F1, F2, F3, F4, H1, H2, H3, H4, P1, P2, P3, P4,
    D1, D2, D3, D4, L1, L2, L3, (L5 Hlen).
  cbn [app strokesOf dotsOf planesOf labelsOf].
  rewrite !app_nil_r. repeat split; auto.
  rewrite length_map, length_combine, Hlen. apply Nat.min_id.
Qed.

(** Whatever the progress, a frame draws the path strokes of [drawPath]
    and nothing else as a stroke, one marker circle on every point, one
    label box per point, and one plane icon. *)
Theorem frame_shows_all_markers (p : Props) (lineWidth : nat -> R)
    (s : Snapshot) (startTime now : R) (d : Drawn) :
  animate p lineWidth s startTime now = Some d ->
  strokesOf (ops d)
  = drawPath (calculatedPoints s) (segments s) (totalLength s * progress d)
  /\ dotsOf (ops d) = map (fun q => (x q, y q)) (calculatedPoints s)
  /\ List.length (labelsOf (ops d)) = List.length (calculatedPoints s)
  /\ planesOf (ops d) = match planeAt s (progress d) with
                        | Some pl => [pl]
                        | None => []
                        end.
Proof. apply frame_views. Qed.

Lemma tripProps_frame now :
  exists s d,
    snapshot tripProps = Some s
    /\ animate tripProps (fun _ => 120) s 0 now = Some d.
Proof.
  destruct tripProps_laid_out as (s & Hs & _ & Ecps & _).
  destruct (animate_defined tripProps (fun _ => 120) s 0 now) as (d & Hd).
  { rewrite Ecps. discriminate. }
  exists s, d. auto.
Qed.

Lemma frame_shows_all_markers_witness :
  exists s d,
    animate tripProps (fun _ => 120) s 0 1500 = Some d
    /\ dotsOf (ops d) = map (fun q => (x q, y q)) (calculatedPoints s)
    /\ List.length (labelsOf (ops d)) = List.length (calculatedPoints s).
Proof.
  destruct (tripProps_frame 1500) as (s & d & _ & Hd).
  exists s, d. split; [exact Hd|].
  destruct (frame_shows_all_markers tripProps (fun _ => 120) s 0 1500 d Hd)
    as (_ & Hdots & Hlabels & _).
  split; [exact Hdots|exact Hlabels].
Defined.

(* ----------------------------------------------------------------- *)
(** ** The first and the last frame *)

Lemma snapshot_totalLength_nonneg p s :
  snapshot p = Some s -> 0 <= totalLength s.
Proof.
  intros Hs. destruct (snapshot_inv p s Hs) as (w & h & tz & _ & _ & _ & _ & Es & Et).
  rewrite Et, Es, totalLength_pathLength. apply pathLength_nonneg.
Qed.

Lemma progress_before_start startTime dur now :
  0 < dur -> now <= startTime -> progressAt startTime dur now <= 0.
Proof.
  intros Hd Hn. unfold progressAt.
  apply Rle_trans with (1 := Rmin_l _ _).
  assert (Hinv : 0 < / (dur * 1000)) by (apply Rinv_0_lt_compat; lra).
  unfold Rdiv. nra.
Qed.

Lemma progress_after_end startTime dur now :
  0 < dur -> startTime + dur * 1000 <= now -> progressAt startTime dur now = 1.
Proof.
  intros Hd Hn. unfold progressAt. apply Rmin_right.
  apply (Rmult_le_reg_r (dur * 1000)); [lra|].
  unfold Rdiv. rewrite Rmult_assoc, Rinv_l by lra. lra.
Qed.

Lemma progress_within startTime dur now :
  0 < dur -> now < startTime + dur * 1000 ->
  progressAt startTime dur now = (now - startTime) / (dur * 1000)
  /\ progressAt startTime dur now < 1.
Proof.
  intros Hd Hn.
  assert (H : (now - startTime) / (dur * 1000) < 1).
  { apply (Rmult_lt_reg_r (dur * 1000)); [lra|].
    unfold Rdiv. rewrite Rmult_assoc, Rinv_l by lra. lra. }
  unfold progressAt. rewrite Rmin_left by lra. auto.
Qed.

(** A frame whose clock reading is not later than the start of the
    recording draws no stroke of the path and puts the plane on the first
    point, unturned; the next frame is requested. *)
Theorem nothing_is_drawn_before_start (p : Props) (lineWidth : nat -> R)
    (s : Snapshot) (startTime now : R) (d : Drawn) :
  snapshot p = Some s ->
  0 < duration p ->
  now <= startTime ->
  animate p lineWidth s startTime now = Some d ->
  strokesOf (ops d) = []
  /\ (exists p0, hd_error (calculatedPoints s) = Some p0
                 /\ planesOf (ops d) = [mkPlane (x p0) (y p0) 0])
  /\ next d = RequestFrame.
Proof.
  intros Hs Hd Hn Ha.
  destruct (frame_views _ _ _ _ _ _ Ha) as (Hst & _ & _ & Hpl).
  destruct (animate_tail _ _ _ _ _ _ Ha) as (Ep & Hnext).
  pose proof (progress_before_start startTime (duration p) now Hd Hn) as Hp.
  pose proof (snapshot_totalLength_nonneg p s Hs) as Ht.
  assert (Hr : totalLength s * progress d <= 0) by (rewrite Ep; nra).
  split; [rewrite Hst; apply drawPath_nothing; exact Hr|]. split.
  - unfold planeAt in Hpl.
    destruct (animate_layers _ _ _ _ _ _ Ha) as (_ & pl & _ & Hpl' & _).
    unfold planeAt in Hpl'.
    destruct (calculatedPoints s) as [|p0 l]; [discriminate|].
    exists p0. split; [reflexivity|].
    rewrite Hpl, planeWalk_nothing by exact Hr. reflexivity.
  - destruct Hnext as [[H _]|[_ H]]; [exact H|]. rewrite Ep in H. lra.
Qed.

Lemma nothing_is_drawn_before_start_witness :
  exists s d,
    snapshot tripProps = Some s
    /\ 0 < duration tripProps
    /\ 0 <= 0
    /\ animate tripProps (fun _ => 120) s 0 0 = Some d
    /\ strokesOf (ops d) = []
    /\ next d = RequestFrame.
Proof.
  destruct (tripProps_frame 0) as (s & d & Hs & Hd).
  exists s, d.
  assert (H0 : 0 < duration tripProps) by (cbn; lra).
  assert (Hn : 0 <= 0) by lra.
  split; [exact Hs|]. split; [exact H0|]. split; [exact Hn|].
  split; [exact Hd|].
  destruct (nothing_is_drawn_before_start tripProps (fun _ => 120) s 0 0 d
              Hs H0 Hn Hd) as (Hst & _ & Hnext).
  split; [exact Hst|exact Hnext].
Defined.

Lemma segLen_pos a b : x a < x b -> 0 < segLen a b.
Proof.
  intros H. unfold segLen. cbv zeta. apply sqrt_lt_R0.
  assert (0 < (x b - x a) * (x b - x a))
    by (apply Rmult_lt_0_compat; lra).
  pose proof (Rle_0_sqr (y b - y a)) as Hy. unfold Rsqr in Hy. lra.
Qed.

(** With the remaining length equal to the whole path, and every point
    right of the one before, every segment is stroked in full. *)
Lemma drawPath_whole cps : forall r,
  increasing (map x cps) -> r = pathLength cps ->
  drawPath cps (segmentsOf cps) r = fullStrokes cps.
Proof.
  induction cps as [|a cps IH]; intros r Hinc Hr; [reflexivity|].
  destruct cps as [|b cps']; [reflexivity|].
  change (segmentsOf (a :: b :: cps')) with (segLen a b :: segmentsOf (b :: cps')).
  rewrite drawPath_step.
  change (pathLength (a :: b :: cps'))
    with (distance a b + pathLength (b :: cps')) in Hr.
  rewrite <- segLen_distance in Hr.
  destruct Hinc as [Hab Hinc].
  pose proof (segLen_pos a b Hab) as Hpos.
  pose proof (pathLength_nonneg (b :: cps')) as Hrest.
  destruct (Rle_dec r 0); [lra|].
  destruct (Rge_dec r (segLen a b)); [|lra].
  cbn [fullStrokes]. f_equal. apply IH; [exact Hinc|lra].
Qed.

(** With the arithmetic carried out on exact real numbers: once the
    duration has elapsed, a frame of a sequence with strictly increasing
    times on a chart of positive width draws the whole polyline, one full
    stroke per segment, sets the progress to 1 and asks for the recorder
    to be stopped after 500 ms.  (On doubles the last stroke can end a
    rounding error short of the last point.) *)
Theorem last_frame_draws_whole_path (p : Props) (lineWidth : nat -> R)
    (s : Snapshot) (tz : list Z) (startTime now : R) (d : Drawn) :
  snapshot p = Some s ->
  timesOf (points p) = Some tz -> ascending tz ->
  0 < graphWidth (chart s) ->
  0 < duration p ->
  startTime + duration p * 1000 <= now ->
  animate p lineWidth s startTime now = Some d ->
  progress d = 1
  /\ strokesOf (ops d) = fullStrokes (calculatedPoints s)
  /\ List.length (strokesOf (ops d)) = (List.length (points p) - 1)%nat
  /\ next d = StopAfter 500.
Proof.
  intros Hs Ht Hasc Hw Hd Hn Ha.
  destruct (frame_views _ _ _ _ _ _ Ha) as (Hst & _).
  destruct (animate_tail _ _ _ _ _ _ Ha) as (Ep & Hnext).
  pose proof (progress_after_end startTime (duration p) now Hd Hn) as H1.
  rewrite H1 in Ep.
  destruct (snapshot_inv p s Hs) as (w & h & tz' & _ & Ht' & Ec & Ecps & Es & Et).
  rewrite Ht in Ht'. injection Ht' as <-.
  assert (Hinc : increasing (map x (calculatedPoints s))).
  { rewrite Ecps. unfold calculatedPointsAt. apply x_increasing; auto.
    - rewrite <- Ec. exact Hw.
    - destruct tz as [|t tz']; [apply orElse_pos; cbn; lra|].
      apply range_denominator_pos. discriminate. }
  assert (Hfull : strokesOf (ops d) = fullStrokes (calculatedPoints s)).
  { rewrite Hst, Es. apply drawPath_whole; [exact Hinc|].
    rewrite Ep, Rmult_1_r, Et, Es. apply totalLength_pathLength. }
  split; [exact Ep|]. split; [exact Hfull|]. split.
  - rewrite Hfull.
    rewrite <- (calculatedPointsAt_length (chartOf p w h) (points p) tz
                  (timesOf_length _ _ Ht)), <- Ecps.
    clear. induction (calculatedPoints s) as [|a l IH]; [reflexivity|].
    destruct l as [|b l']; [reflexivity|].
    cbn [fullStrokes List.length Nat.sub] in *. rewrite IH. lia.
  - destruct Hnext as [[_ H]|[H _]]; [lra|exact H].
Qed.

Lemma last_frame_draws_whole_path_witness :
  exists s d,
    snapshot tripProps = Some s
    /\ timesOf (points tripProps) = Some [540; 545; 550]%Z
    /\ ascending [540; 545; 550]%Z
    /\ 0 < graphWidth (chart s)
    /\ 0 < duration tripProps
    /\ 0 + duration tripProps * 1000 <= 3000
    /\ animate tripProps (fun _ => 120) s 0 3000 = Some d
    /\ progress d = 1
    /\ List.length (strokesOf (ops d)) = 2%nat.
Proof.
  destruct tripProps_laid_out as (s & Hs & _ & Ecps & _ & Ew & _).
  destruct (animate_defined tripProps (fun _ => 120) s 0 3000) as (d & Hd).
  { rewrite Ecps. discriminate. }
  exists s, d.
  assert (Ht : timesOf (points tripProps) = Some [540; 545; 550]%Z)
    by reflexivity.
  assert (Ha : ascending [540; 545; 550]%Z) by (cbn; lia).
  assert (Hw : 0 < graphWidth (chart s)) by lra.
  assert (H0 : 0 < duration tripProps) by (cbn; lra).
  assert (Hn : 0 + duration tripProps * 1000 <= 3000) by (cbn; lra).
  split; [exact Hs|]. split; [exact Ht|]. split; [exact Ha|].
  split; [exact Hw|]. split; [exact H0|]. split; [exact Hn|].
  split; [exact Hd|].
  destruct (last_frame_draws_whole_path tripProps (fun _ => 120) s _ 0 3000 d
              Hs Ht Ha Hw H0 Hn Hd) as (Hp & _ & Hlen & _).
  split; [exact Hp|exact Hlen].
Defined.

(* ----------------------------------------------------------------- *)
(** ** How often the watermark is drawn *)

Lemma frame_watermarks p lineWidth s startTime now d :
  animate p lineWidth s startTime now = Some d ->
  watermarksOf (ops d)
  = topWatermarkLayer (chart s) (watermark p) (watermarkImage p)
    ++ finalWatermarkLayer (chart s) (watermark p) (watermarkImage p).
Proof.
  intros H. destruct (animate_layers _ _ _ _ _ _ H)
    as (boxes & pl & _ & _ & _ & ->).
  destruct (headerLayer_views p (chart s)) as (_ & _ & _ & _ & H5).
  destruct (path_views (drawPath (calculatedPoints s) (segments s)
                                 (totalLength s * progress d)))
    as (_ & _ & _ & _ & P5).
  destruct (dots_views (calculatedPoints s)) as (_ & _ & _ & _ & D5).
  destruct (labelLayer_views (List.length (calculatedPoints s))
              (calculatedPoints s) 0 boxes) as (_ & _ & _ & L4 & _).
  change (watermarksOf (FillBackground (width (chart s)) (height (chart s)) :: ?l))
    with (watermarksOf l).
  rewrite !watermarksOf_app, H5, P5, D5, L4,
    topWatermarkLayer_only, finalWatermarkLayer_only.
  reflexivity.
Qed.

Lemma position_top_or_bottom pos : isTop pos = negb (isBottom pos).
Proof. destruct pos; reflexivity. Qed.

(** A watermark that is absent or disabled leaves no trace in a frame; an
    enabled text watermark is drawn exactly once when it has a text, and
    not at all when its text is empty or missing. *)
Theorem text_watermark_drawn_once (p : Props) (lineWidth : nat -> R)
    (s : Snapshot) (startTime now : R) (d : Drawn) :
  animate p lineWidth s startTime now = Some d ->
  (wmEnabled (watermark p) = false -> watermarksOf (ops d) = [])
  /\ (forall w, watermark p = Some w -> enabled w = true -> wtype w = WmText ->
        watermarksOf (ops d) = textWatermark (chart s) w
        /\ List.length (watermarksOf (ops d))
           = (if Js.truthy (text w) then 1 else 0)%nat).
Proof.
  intros H. rewrite (frame_watermarks _ _ _ _ _ _ H). split.
  - unfold wmEnabled, topWatermarkLayer, finalWatermarkLayer, wmAt.
    destruct (watermark p) as [w|]; [|reflexivity].
    intros ->. reflexivity.
  - intros w -> He Ht.
    destruct (text_watermark_layers (chart s) w (watermarkImage p) Ht)
      as (-> & ->).
    rewrite He, position_top_or_bottom. cbn [andb].
    assert (E : (if negb (isBottom (position w))
                 then textWatermark (chart s) w else [])
                ++ (if isBottom (position w)
                    then textWatermark (chart s) w else [])
                = textWatermark (chart s) w).
    { destruct (isBottom (position w)); cbn [negb app];
        [reflexivity|apply app_nil_r]. }
    rewrite E. split; [reflexivity|].
    unfold textWatermark. rewrite Ht.
    destruct (text w) as [[|a t]|]; reflexivity.
Qed.

(** An enabled image watermark whose image is held is drawn exactly
    twice in every frame, both times on the same rectangle, wherever it is
    anchored. *)
Theorem image_watermark_drawn_twice (p : Props) (lineWidth : nat -> R)
    (s : Snapshot) (startTime now : R) (d : Drawn) (w : WatermarkConfig)
    (img : Image) :
  animate p lineWidth s startTime now = Some d ->
  watermark p = Some w -> enabled w = true -> wtype w = WmImage ->
  watermarkImage p = Some img ->
  exists x0 y0 dw dh,
    watermarksOf (ops d)
    = [WatermarkImage x0 y0 dw dh (opacity w);
       WatermarkImage x0 y0 dw dh (opacity w)].
Proof.
  intros H Hw He Ht Hi. rewrite (frame_watermarks _ _ _ _ _ _ H), Hw, Hi.
  unfold topWatermarkLayer, finalWatermarkLayer, drawWatermark, wmAt,
    textWatermark, imageWatermark.
  rewrite He, Ht, position_top_or_bottom. cbn [andb].
  destruct (isBottom (position w)); cbn [negb app];
    do 4 eexists; reflexivity.
Qed.

(* ----------------------------------------------------------------- *)
(** ** How a recording ends *)


Lemma run_early p lineWidth s startTime : forall early rest,
  calculatedPoints s <> [] -> 0 < duration p ->
  (forall t, In t early -> t < startTime + duration p * 1000) ->
  run p lineWidth s startTime AwaitFrame (map Raf early ++ rest)
  = match run p lineWidth s startTime AwaitFrame rest with
    | Some (ph, tr) =>
        Some (ph, List.concat (map (fun t =>
                                 [FrameDrawn (progressAt startTime (duration p) t);
                                  FrameRequested]) early) ++ tr)
    | None => None
    end.
Proof.
  induction early as [|t early IH]; intros rest Hne Hd Hall.
  - cbn [map app List.concat].
    destruct (run p lineWidth s startTime AwaitFrame rest) as [[ph tr]|];
      reflexivity.
  - cbn [map app run]. rewrite step_frame by exact Hne.
    destruct (progress_within startTime (duration p) t Hd
                (Hall t (or_introl eq_refl))) as (_ & Hlt).
    destruct (Rlt_dec (progressAt startTime (duration p) t) 1); [|contradiction].
    rewrite IH; auto; [|intros u Hu; apply Hall; right; exact Hu].
    destruct (run p lineWidth s startTime AwaitFrame rest) as [[ph tr]|];
      reflexivity.
Qed.

Lemma framesOf_app tr1 tr2 : framesOf (tr1 ++ tr2) = framesOf tr1 ++ framesOf tr2.
Proof.
  induction tr1 as [|e tr1 IH]; [reflexivity|].
  destruct e; cbn; rewrite IH; reflexivity.
Qed.

(** A frame that is drawn has a first point to put the marker on. *)
Lemma animate_needs_points p lineWidth s startTime now :
  animate p lineWidth s startTime now <> None -> calculatedPoints s <> [].
Proof.
  intros H E. apply H. unfold animate, planeAt. rewrite E.
  destruct (placeLabels _ _ _); reflexivity.
Qed.

(** A recording with a positive duration whose frame callbacks each run
    to their end and draw their frame (none throws, and no label loop
    runs for ever) ends: frame callbacks before the end of the duration
    each draw a frame and ask for the next; the first callback at or
    after the end draws the frame with progress 1 and sets the timer, and
    the expiry of the timer stops the recorder.  The frames drawn are
    those of the callbacks, in order. *)
Theorem recording_runs_to_its_stop (p : Props) (lineWidth : nat -> R)
    (s : Snapshot) (startTime : R) (early : list R) (final : R) :
  (forall now, In now (early ++ [final]) ->
     animate p lineWidth s startTime now <> None) ->
  0 < duration p ->
  (forall t, In t early -> t < startTime + duration p * 1000) ->
  startTime + duration p * 1000 <= final ->
  exists tr,
    run p lineWidth s startTime AwaitFrame
        (map Raf early ++ [Raf final; TimerFired])
    = Some (Stopped, tr)
    /\ framesOf tr = map (progressAt startTime (duration p)) early ++ [1]
    /\ In RecorderStop tr.
Proof.
  intros Hframes Hd Hearly Hfinal.
  assert (Hne : calculatedPoints s <> []).
  { apply (animate_needs_points p lineWidth s startTime final).
    apply Hframes. apply in_or_app. right. left. reflexivity. }
  rewrite run_early by assumption.
  cbn [run]. rewrite step_frame by exact Hne.
  rewrite (progress_after_end startTime (duration p) final Hd Hfinal).
  destruct (Rlt_dec 1 1); [lra|]. cbn [step app].
  eexists. split; [reflexivity|]. split.
  - rewrite framesOf_app. cbn [framesOf app]. f_equal.
    clear. induction early as [|t early IH]; [reflexivity|].
    cbn [map List.concat app framesOf]. rewrite IH. reflexivity.
  - apply in_or_app. right. cbn. auto.
Qed.

Lemma frame_exists p lineWidth startTime now w h tz :
  ratioMap (aspectRatio p) = Some (w, h) ->
  timesOf (points p) = Some tz ->
  points p <> [] ->
  exists s d,
    snapshot p = Some s /\ calculatedPoints s <> []
    /\ animate p lineWidth s startTime now = Some d.
Proof.
  intros Hr Ht Hne.
  destruct (snapshot_defined p w h tz Hr Ht) as (s & Hs).
  assert (Hcps : calculatedPoints s <> []).
  { destruct (snapshot_inv p s Hs) as (w' & h' & tz' & _ & Ht' & _ & Ecps & _).
    intros E. apply (f_equal (@List.length CalcPoint)) in E.
    rewrite Ecps, calculatedPointsAt_length in E
      by (apply timesOf_length; exact Ht').
    destruct (points p); [congruence|discriminate]. }
  destruct (animate_defined p lineWidth s startTime now Hcps) as (d & Hd).
  exists s, d. auto.
Qed.

Lemma text_watermark_drawn_once_witness :
  exists s d,
    animate textMarkProps (fun _ => 120) s 0 1500 = Some d
    /\ List.length (watermarksOf (ops d)) = 1%nat.
Proof.
  destruct (frame_exists textMarkProps (fun _ => 120) 0 1500 1440 1440
              [540; 545; 550]%Z eq_refl eq_refl ltac:(discriminate))
    as (s & d & _ & _ & Hd).
  exists s, d. split; [exact Hd|].
  destruct (text_watermark_drawn_once textMarkProps (fun _ => 120) s 0 1500 d Hd)
    as (_ & Htext).
  exact (proj2 (Htext _ eq_refl eq_refl eq_refl)).
Defined.

Lemma image_watermark_drawn_twice_witness :
  exists s d x0 y0 dw dh,
    animate logoProps (fun _ => 120) s 0 1500 = Some d
    /\ watermarksOf (ops d)
       = [WatermarkImage x0 y0 dw dh (opacity topLogo);
          WatermarkImage x0 y0 dw dh (opacity topLogo)].
Proof.
  destruct (frame_exists logoProps (fun _ => 120) 0 1500 1440 1440
              [540; 545; 550]%Z eq_refl eq_refl ltac:(discriminate))
    as (s & d & _ & _ & Hd).
  destruct (image_watermark_drawn_twice logoProps (fun _ => 120) s 0 1500 d
              topLogo (mkImage 400 200) Hd eq_refl eq_refl eq_refl eq_refl)
    as (x0 & y0 & dw & dh & H).
  exists s, d, x0, y0, dw, dh. split; [exact Hd|exact H].
Defined.


Lemma recording_runs_to_its_stop_witness :
  exists s tr,
    (forall now, In now ([16; 1500] ++ [3010]) ->
       animate tripProps (fun _ => 120) s 0 now <> None)
    /\ 0 < duration tripProps
    /\ (forall t, In t [16; 1500] -> t < 0 + duration tripProps * 1000)
    /\ 0 + duration tripProps * 1000 <= 3010
    /\ run tripProps (fun _ => 120) s 0 AwaitFrame
           (map Raf [16; 1500] ++ [Raf 3010; TimerFired])
       = Some (Stopped, tr)
    /\ In RecorderStop tr.
Proof.
  destruct (frame_exists tripProps (fun _ => 120) 0 0 1440 1440
              [540; 545; 550]%Z eq_refl eq_refl ltac:(discriminate))
    as (s & _ & _ & Hne & _).
  assert (Hfr : forall now, In now ([16; 1500] ++ [3010]) ->
                  animate tripProps (fun _ => 120) s 0 now <> None).
  { intros now _.
    destruct (animate_defined tripProps (fun _ => 120) s 0 now Hne)
      as (d & ->). discriminate. }
  assert (Hd : 0 < duration tripProps) by (cbn; lra).
  assert (He : forall t, In t [16; 1500] -> t < 0 + duration tripProps * 1000).
  { intros t [<-|[<-|[]]]; cbn; lra. }
  assert (Hf : 0 + duration tripProps * 1000 <= 3010) by (cbn; lra).
  destruct (recording_runs_to_its_stop tripProps (fun _ => 120) s 0
              [16; 1500] 3010 Hfr Hd He Hf) as (tr & Hrun & _ & Hstop).
  exists s, tr. auto 10.
Defined.

(* ----------------------------------------------------------------- *)
(** ** The prefix of a file name *)

Lemma lower_alnum c : isAlnum (lowerChar c) = true -> lowerOrDigit (lowerChar c) = true.
Proof.
  destruct c as [[] [] [] [] [] [] [] []]; vm_compute; intros H;
    first [reflexivity | discriminate H].
Qed.

Lemma lowerOrDigit_fixed c : lowerOrDigit c = true -> lowerChar c = c /\ isAlnum c = true /\ isHyphen c = false.
Proof.
  destruct c as [[] [] [] [] [] [] [] []]; vm_compute; intros H;
    first [discriminate H | auto].
Qed.

Lemma isHyphen_eq c : isHyphen c = true -> c = "-"%char.
Proof. apply Ascii.eqb_eq. Qed.

Lemma lowered_alnum_is_lower t :
  allChars (fun c => implb (isAlnum c) (lowerOrDigit c)) (toLowerCase t) = true.
Proof.
  induction t as [|c t IH]; [reflexivity|].
  cbn [toLowerCase allChars]. rewrite IH, andb_true_r.
  destruct (isAlnum (lowerChar c)) eqn:E; [|reflexivity].
  cbn. apply lower_alnum. exact E.
Qed.

(** Each run is non-empty and made of the characters of the class. *)
Lemma alnumRuns_words (P : ascii -> bool) s :
  allChars (fun c => implb (isAlnum c) (P c)) s = true ->
  Forall (fun w => w <> EmptyString /\ allChars P w = true) (alnumRuns s).
Proof.
  induction s as [|c s IH]; intros H; [constructor|].
  cbn [allChars] in H. apply andb_true_iff in H. destruct H as [Hc Hs].
  specialize (IH Hs). cbn [alnumRuns].
  destruct (isAlnum c) eqn:E; [|exact IH].
  cbn in Hc.
  destruct (startsAlnum s).
  - destruct (alnumRuns s) as [|w ws].
    + constructor; [|constructor]. split; [discriminate|].
      cbn. rewrite Hc. reflexivity.
    + inversion IH as [|? ? [Hw1 Hw2] Hws]; subst.
      constructor; [|exact Hws]. split; [discriminate|].
      cbn. rewrite Hc, Hw2. reflexivity.
  - constructor; [|exact IH]. split; [discriminate|].
    cbn. rewrite Hc. reflexivity.
Qed.

Lemma wellFormed_word w : forall b r,
  w <> EmptyString -> allChars lowerOrDigit w = true ->
  wellFormed b (w ++ r) = wellFormed false r.
Proof.
  induction w as [|c w IH]; intros b r Hne Hw; [congruence|].
  cbn [allChars] in Hw. apply andb_true_iff in Hw. destruct Hw as [Hc Hw].
  destruct (lowerOrDigit_fixed c Hc) as (_ & _ & Hh).
  cbn [append wellFormed]. rewrite Hh, Hc. cbn [andb].
  destruct w as [|c' w']; [reflexivity|].
  apply IH; [discriminate|exact Hw].
Qed.

Lemma append_empty_r (w : string) : (w ++ "")%string = w.
Proof. induction w as [|c w IH]; [reflexivity|]. cbn. rewrite IH. reflexivity. Qed.

Lemma wellFormed_concat ws : forall b,
  Forall (fun w => w <> EmptyString /\ allChars lowerOrDigit w = true) ws ->
  ws <> [] ->
  wellFormed b (String.concat "-" ws) = true.
Proof.
  induction ws as [|w ws IH]; intros b Hall Hne; [congruence|].
  inversion Hall as [|? ? [Hw1 Hw2] Hws]; subst.
  destruct ws as [|w2 ws'].
  - cbn [String.concat]. rewrite <- (append_empty_r w).
    rewrite wellFormed_word by assumption. reflexivity.
  - change (String.concat "-" (w :: w2 :: ws'))
      with (w ++ "-" ++ String.concat "-" (w2 :: ws'))%string.
    rewrite wellFormed_word by assumption.
    change (wellFormed false ("-" ++ String.concat "-" (w2 :: ws')))
      with (wellFormed true (String.concat "-" (w2 :: ws'))).
    apply IH; [exact Hws|discriminate].
Qed.

Lemma alnumRuns_none s :
  alnumRuns s = [] <-> allChars (fun c => negb (isAlnum c)) s = true.
Proof.
  induction s as [|c s IH]; [split; reflexivity|].
  cbn [alnumRuns allChars]. destruct (isAlnum c) eqn:E; cbn [negb andb].
  - split; [|discriminate].
    destruct (startsAlnum s); [destruct (alnumRuns s)|]; discriminate.
  - exact IH.
Qed.

Lemma hasAlnum_lowered t :
  hasAlnum t = negb (allChars (fun c => negb (isAlnum c)) (toLowerCase t)).
Proof.
  induction t as [|c t IH]; [reflexivity|].
  cbn [hasAlnum toLowerCase allChars]. rewrite IH.
  destruct (isAlnum (lowerChar c)); reflexivity.
Qed.

Lemma concat_nonempty (w : string) ws :
  w <> EmptyString -> String.concat "-" (w :: ws) <> EmptyString.
Proof.
  intros Hw. destruct w as [|c w]; [congruence|].
  destruct ws; cbn; discriminate.
Qed.

Lemma sanitize_shape t :
  (hasAlnum t = false -> sanitize t = EmptyString)
  /\ (hasAlnum t = true ->
      sanitize t <> EmptyString /\ wellFormed true (sanitize t) = true).
Proof.
  rewrite sanitize_slug. unfold slug. rewrite hasAlnum_lowered.
  pose proof (alnumRuns_words lowerOrDigit _ (lowered_alnum_is_lower t)) as Hw.
  pose proof (alnumRuns_none (toLowerCase t)) as Hn.
  destruct (allChars (fun c => negb (isAlnum c)) (toLowerCase t)) eqn:E;
    cbn [negb]; split; intros H; try discriminate.
  - rewrite (proj2 Hn eq_refl). reflexivity.
  - assert (Hne : alnumRuns (toLowerCase t) <> []).
    { intros E'. apply Hn in E'. discriminate. }
    split; [|apply wellFormed_concat; assumption].
    destruct (alnumRuns (toLowerCase t)) as [|w ws]; [congruence|].
    inversion Hw as [|? ? [Hw1 _] _]; subst.
    apply concat_nonempty. exact Hw1.
Qed.

Lemma wellFormed_alphabet u : forall b,
  wellFormed b u = true ->
  allChars (fun c => lowerOrDigit c || isHyphen c) u = true.
Proof.
  induction u as [|c u IH]; intros b Hwf; [reflexivity|].
  cbn [wellFormed allChars] in *. destruct (isHyphen c).
  - apply andb_true_iff in Hwf. destruct Hwf as [_ Hwf].
    rewrite orb_true_r. cbn [andb]. apply (IH true). exact Hwf.
  - apply andb_true_iff in Hwf. destruct Hwf as [Hc Hwf].
    rewrite Hc. cbn [orb andb]. apply (IH false). exact Hwf.
Qed.

(** For a title whose code units are all below 256, which is what a
    [string] holds: the sanitized title is safe as a file-name prefix: it
    is empty when the title holds no ASCII letter or digit, and otherwise
    it is made of
    lower-case letters and digits separated by single hyphens, with no
    hyphen at either end. *)
Theorem sanitized_title_is_safe (t : string) :
  (hasAlnum t = false -> sanitize t = EmptyString)
  /\ (hasAlnum t = true ->
      sanitize t <> EmptyString
      /\ wellFormed true (sanitize t) = true
      /\ allChars (fun c => lowerOrDigit c || isHyphen c) (sanitize t) = true).
Proof.
  destruct (sanitize_shape t) as [H0 H1]. split; [exact H0|].
  intros H. destruct (H1 H) as [Hne Hwf]. split; [exact Hne|].
  split; [exact Hwf|]. apply (wellFormed_alphabet _ true Hwf).
Qed.

Lemma sanitized_title_is_safe_witness :
  hasAlnum "  Q3 -- Trip #2 " = true
  /\ sanitize "  Q3 -- Trip #2 " = "q3-trip-2"
  /\ wellFormed true (sanitize "  Q3 -- Trip #2 ") = true.
Proof.
  assert (H : hasAlnum "  Q3 -- Trip #2 " = true) by reflexivity.
  split; [exact H|]. split; [reflexivity|].
  exact (proj1 (proj2 (proj2 (sanitized_title_is_safe "  Q3 -- Trip #2 ") H))).
Defined.

Lemma wellFormed_lower u : forall b, wellFormed b u = true -> toLowerCase u = u.
Proof.
  induction u as [|c u IH]; intros b H; [reflexivity|].
  cbn [wellFormed toLowerCase] in *. destruct (isHyphen c) eqn:Eh.
  - apply andb_true_iff in H. destruct H as [_ H].
    apply isHyphen_eq in Eh. subst c. rewrite (IH true H). reflexivity.
  - apply andb_true_iff in H. destruct H as [Hc H].
    destruct (lowerOrDigit_fixed c Hc) as (-> & _). rewrite (IH false H).
    reflexivity.
Qed.

Lemma wellFormed_runs u : forall b inRun,
  wellFormed b u = true -> (inRun = true -> b = true) ->
  replaceRuns inRun u = u.
Proof.
  induction u as [|c u IH]; intros b inRun H Hrun; [reflexivity|].
  cbn [wellFormed replaceRuns] in *. destruct (isHyphen c) eqn:Eh.
  - apply andb_true_iff in H. destruct H as [Hb H].
    apply isHyphen_eq in Eh. subst c.
    change (isAlnum "-") with false. cbn iota.
    destruct inRun; [rewrite (Hrun eq_refl) in Hb; discriminate|].
    rewrite (IH true true H); auto.
  - apply andb_true_iff in H. destruct H as [Hc H].
    destruct (lowerOrDigit_fixed c Hc) as (_ & -> & _).
    rewrite (IH false false H); [reflexivity|discriminate].
Qed.

Lemma wellFormed_not_hyphens u : forall b,
  wellFormed b u = true -> u <> EmptyString -> allHyphens u = false.
Proof.
  induction u as [|c u IH]; intros b H Hne; [congruence|].
  cbn [wellFormed allHyphens] in *. destruct (isHyphen c) eqn:Eh;
    [|reflexivity].
  apply andb_true_iff in H. destruct H as [_ H]. cbn [andb].
  apply (IH true H). intros ->. discriminate H.
Qed.

Lemma wellFormed_dropTrailing u : forall b,
  wellFormed b u = true -> dropTrailing u = u.
Proof.
  induction u as [|c u IH]; intros b H; [reflexivity|].
  cbn [dropTrailing].
  rewrite (wellFormed_not_hyphens (String c u) b H) by discriminate.
  f_equal. cbn [wellFormed] in H. destruct (isHyphen c);
    apply andb_true_iff in H; destruct H as [_ H]; eapply IH; exact H.
Qed.

Lemma wellFormed_sanitize u : wellFormed true u = true -> sanitize u = u.
Proof.
  intros H. unfold sanitize, trimHyphens.
  rewrite (wellFormed_lower u true H), (wellFormed_runs u true false H)
    by discriminate.
  assert (Hl : dropLeading u = u).
  { destruct u as [|c u']; [reflexivity|].
    cbn [wellFormed dropLeading] in *. destruct (isHyphen c);
      [discriminate H|reflexivity]. }
  rewrite Hl. apply (wellFormed_dropTrailing u true H).
Qed.

(** Sanitizing a title twice changes nothing more: a prefix the code has
    produced is kept as it is when it is used as a title again. *)
Theorem sanitize_idempotent (t : string) : sanitize (sanitize t) = sanitize t.
Proof.
  destruct (sanitize_shape t) as [H0 H1].
  destruct (hasAlnum t).
  - apply wellFormed_sanitize. apply (H1 eq_refl).
  - rewrite (H0 eq_refl). reflexivity.
Qed.

(** The default prefix is used only when the title is absent or empty:
    a title made of code units below 256 other than ASCII letters and
    digits gives an empty prefix, and the file name then starts with the
    hyphen before the time stamp. *)
Theorem symbol_title_gives_empty_prefix (now : Clock) (c : ascii)
    (t ext : string) :
  hasAlnum (String c t) = false ->
  safeTitle (Some (String c t)) = EmptyString
  /\ generateFileName now (Some (String c t)) ext
     = String "-" (timestamp now ++ "." ++ ext).
Proof.
  intros H. destruct (sanitize_shape (String c t)) as [H0 _].
  unfold generateFileName, safeTitle. rewrite (H0 H). auto.
Qed.

Lemma symbol_title_gives_empty_prefix_witness :
  hasAlnum "!?" = false
  /\ generateFileName marchMorning (Some "!?") "webm"
     = "-2024-03-05_07-08-09.webm".
Proof.
  assert (H : hasAlnum "!?" = false) by reflexivity.
  split; [exact H|].
  rewrite (proj2 (symbol_title_gives_empty_prefix marchMorning "!" "?" "webm" H)).
  reflexivity.
Defined.

(* ----------------------------------------------------------------- *)
(** ** The editor validates what the canvas assumes *)

Lemma timeToMinutes_nonempty t :
  t <> EmptyString -> timeToMinutes t = minutesOf t.
Proof. destruct t; [congruence|reflexivity]. Qed.

Lemma validateFrom_step prev p rest :
  time p <> EmptyString ->
  validateFrom prev (p :: rest)
  = match prev with
    | None => validateFrom (Some (time p)) rest
    | Some tp =>
        match timeToMinutes tp, timeToMinutes (time p) with
        | Some a, Some b =>
            if (b <=? a)%Z then Some (Some TimeOrder)
            else validateFrom (Some (time p)) rest
        | _, _ => None
        end
    end.
Proof.
  intros H. cbn [validateFrom]. destruct (time p); [congruence|reflexivity].
Qed.

Lemma validateFrom_missing prev p rest :
  time p = EmptyString ->
  validateFrom prev (p :: rest) = Some (Some TimeMissing).
Proof. intros H. cbn [validateFrom]. rewrite H. reflexivity. Qed.

Lemma validateFrom_sound : forall ps tp,
  tp <> EmptyString ->
  validateFrom (Some tp) ps = Some None ->
  Forall (fun p => time p <> EmptyString) ps
  /\ (ps <> [] ->
      exists a tz, minutesOf tp = Some a /\ timesOf ps = Some tz
                   /\ ascending (a :: tz)).
Proof.
  induction ps as [|p rest IH]; intros tp Htp H.
  - split; [constructor|congruence].
  - cbn [validateFrom] in H.
    destruct (time p) as [|c t'] eqn:Et; [discriminate|].
    assert (Hp : time p <> EmptyString) by (rewrite Et; discriminate).
    rewrite <- Et in H.
    rewrite !timeToMinutes_nonempty in H by assumption.
    destruct (minutesOf tp) as [a|]; [|discriminate].
    destruct (minutesOf (time p)) as [b|] eqn:Eb; [|discriminate].
    destruct (Z.leb_spec b a); [discriminate|].
    destruct (IH (time p) Hp H) as (Hall & Hrest).
    split; [constructor; assumption|]. intros _.
    exists a. cbn [timesOf]. rewrite Eb.
    destruct rest as [|p2 rest'].
    + exists [b]. cbn. auto.
    + destruct Hrest as (b' & tz & Eb' & Etz & Hasc); [discriminate|].
      rewrite Eb in Eb'. injection Eb' as <-. rewrite Etz.
      exists (b :: tz). split; [reflexivity|]. split; [reflexivity|].
      split; [lia|exact Hasc].
Qed.

Lemma validateFrom_complete : forall ps tp a tz,
  tp <> EmptyString -> minutesOf tp = Some a ->
  timesOf ps = Some tz -> ascending (a :: tz) ->
  Forall (fun p => time p <> EmptyString) ps ->
  validateFrom (Some tp) ps = Some None.
Proof.
  induction ps as [|p rest IH]; intros tp a tz Htp Ha Htz Hasc Hall;
    [reflexivity|].
  inversion Hall as [|? ? Hp Hrest]; subst.
  cbn [timesOf] in Htz.
  destruct (minutesOf (time p)) as [b|] eqn:Eb; [|discriminate].
  destruct (timesOf rest) as [tz'|] eqn:Er; [|discriminate].
  injection Htz as <-. destruct Hasc as [Hab Hasc].
  rewrite validateFrom_step by exact Hp.
  rewrite !timeToMinutes_nonempty by assumption.
  rewrite Ha, Eb. destruct (Z.leb_spec b a); [lia|].
  eapply IH; eauto.
Qed.

Lemma validated_times_sound (ps : list Point) :
  (validateTimes ps = Some None ->
   Forall (fun p => time p <> EmptyString) ps
   /\ ((2 <= List.length ps)%nat ->
       exists tz, timesOf ps = Some tz /\ ascending tz))
  /\ (forall tz,
        timesOf ps = Some tz ->
        Forall (fun p => time p <> EmptyString) ps ->
        ascending tz ->
        validateTimes ps = Some None).
Proof.
  unfold validateTimes. split.
  - intros H. destruct ps as [|p rest]; [split; [constructor|cbn; lia]|].
    cbn [validateFrom] in H.
    destruct (time p) as [|c t'] eqn:Et; [discriminate|].
    assert (Hp : time p <> EmptyString) by (rewrite Et; discriminate).
    rewrite <- Et in H.
    destruct (validateFrom_sound rest (time p) Hp H) as (Hall & Hrest).
    split; [constructor; assumption|]. intros Hlen.
    destruct rest as [|p2 rest']; [cbn in Hlen; lia|].
    destruct Hrest as (a & tz & Ea & Etz & Hasc); [discriminate|].
    exists (a :: tz). split; [|exact Hasc].
    cbn [timesOf] in *. rewrite Ea.
    destruct (minutesOf (time p2)); [|discriminate].
    destruct (timesOf rest'); [|discriminate].
    injection Etz as <-. reflexivity.
  - intros tz Htz Hall Hasc. destruct ps as [|p rest]; [reflexivity|].
    inversion Hall as [|? ? Hp Hrest]; subst.
    cbn [timesOf] in Htz.
    destruct (minutesOf (time p)) as [a|] eqn:Ea; [|discriminate].
    destruct (timesOf rest) as [tz'|] eqn:Er; [|discriminate].
    injection Htz as <-.
    rewrite validateFrom_step by exact Hp.
    eapply validateFrom_complete; eauto.
Qed.

(* ----------------------------------------------------------------- *)
(** ** Five minutes later *)

(** The canvas reads back the two-digit times that the form prints. *)
Lemma parse_printed a b :
  (a < 100)%N -> (b < 100)%N ->
  hourMinute (Js.padStart2 (Js.ofN a) ++ ":" ++ Js.padStart2 (Js.ofN b))
  = Some (Z.of_N a, Z.of_N b).
Proof.
  intros Ha Hb.
  set (check := fun i j : nat =>
         match hourMinute (Js.padStart2 (Js.ofN (N.of_nat i)) ++ ":"
                           ++ Js.padStart2 (Js.ofN (N.of_nat j))) with
         | Some (u, v) => (u =? Z.of_nat i)%Z && (v =? Z.of_nat j)%Z
         | None => false
         end).
  assert (A : forallb (fun i => forallb (check i) (seq 0 100)) (seq 0 100) = true)
    by (vm_compute; reflexivity).
  rewrite forallb_forall in A.
  specialize (A (N.to_nat a)). rewrite forallb_forall in A.
  assert (Hia : In (N.to_nat a) (seq 0 100)) by (apply in_seq; lia).
  assert (Hib : In (N.to_nat b) (seq 0 100)) by (apply in_seq; lia).
  specialize (A Hia (N.to_nat b) Hib). unfold check in A.
  rewrite !N2Nat.id in A.
  destruct (hourMinute _) as [[u v]|]; [|discriminate].
  apply andb_true_iff in A. destruct A as [Hu Hv].
  apply Z.eqb_eq in Hu, Hv. f_equal. f_equal; lia.
Qed.

Lemma hourMinute_nonempty t hm : hourMinute t = Some hm -> t <> EmptyString.
Proof. intros H ->. discriminate H. Qed.

Lemma five_minutes_later h m :
  (0 <= h < 24)%Z -> (0 <= m < 60)%Z ->
  (0 <= (h + (m + 5) / 60) mod 24 < 24)%Z
  /\ (0 <= (m + 5) mod 60 < 60)%Z
  /\ ((h + (m + 5) / 60) mod 24 * 60 + (m + 5) mod 60
      = (h * 60 + m + 5) mod 1440)%Z.
Proof.
  intros Hh Hm.
  pose proof (Z.div_mod (m + 5) 60 ltac:(lia)) as E1.
  pose proof (Z.mod_pos_bound (m + 5) 60 ltac:(lia)) as B1.
  pose proof (Z.div_mod (h + (m + 5) / 60) 24 ltac:(lia)) as E2.
  pose proof (Z.mod_pos_bound (h + (m + 5) / 60) 24 ltac:(lia)) as B2.
  pose proof (Z.div_mod (h * 60 + m + 5) 1440 ltac:(lia)) as E3.
  pose proof (Z.mod_pos_bound (h * 60 + m + 5) 1440 ltac:(lia)) as B3.
  split; [lia|]. split; [lia|]. lia.
Qed.

Lemma addFiveMinutes_parts (t : string) (h m : Z) :
  hourMinute t = Some (h, m) ->
  (0 <= h < 24)%Z -> (0 <= m < 60)%Z ->
  exists t',
    addFiveMinutes t = Some t'
    /\ t' <> EmptyString
    /\ minutesOf t' = Some ((h * 60 + m + 5) mod 1440)%Z.
Proof.
  intros Ht Hh Hm.
  destruct (five_minutes_later h m Hh Hm) as (BH & BM & E).
  unfold addFiveMinutes.
  destruct t as [|c t0]; [discriminate Ht|]. rewrite Ht. cbv zeta.
  eexists. split; [reflexivity|].
  split; [apply (hourMinute_nonempty _ (Z.of_N (Z.to_N ((h + (m + 5) / 60) mod 24)),
                                        Z.of_N (Z.to_N ((m + 5) mod 60))));
          apply parse_printed; lia|].
  unfold minutesOf. rewrite parse_printed by lia.
  rewrite !Z2N.id by lia. rewrite E. reflexivity.
Qed.

(** On a day without a change of the civil time, for a time of the day,
    [addFiveMinutes] prints the time five minutes later, which the canvas
    reads back as such; from 23:55 on the result is past midnight and
    reads as an earlier time of the day. *)
Theorem addFiveMinutes_is_five_later (t : string) (h m : Z) :
  hourMinute t = Some (h, m) ->
  (0 <= h < 24)%Z -> (0 <= m < 60)%Z ->
  exists t',
    addFiveMinutes t = Some t'
    /\ t' <> EmptyString
    /\ minutesOf t' = Some ((h * 60 + m + 5) mod 1440)%Z
    /\ ((h * 60 + m <= 1434)%Z -> minutesOf t' = Some (h * 60 + m + 5)%Z)
    /\ ((1435 <= h * 60 + m)%Z ->
        minutesOf t' = Some (h * 60 + m + 5 - 1440)%Z).
Proof.
  intros Ht Hh Hm.
  destruct (addFiveMinutes_parts t h m Ht Hh Hm) as (t' & E & Hne & Hparse).
  exists t'. split; [exact E|]. split; [exact Hne|]. split; [exact Hparse|].
  split; intros Hrange; rewrite Hparse; f_equal.
  - apply Z.mod_small. lia.
  - pose proof (Z.div_mod (h * 60 + m + 5) 1440 ltac:(lia)).
    pose proof (Z.mod_pos_bound (h * 60 + m + 5) 1440 ltac:(lia)). lia.
Qed.

Lemma addFiveMinutes_is_five_later_witness :
  hourMinute "23:57" = Some (23, 57)%Z
  /\ (0 <= 23 < 24)%Z /\ (0 <= 57 < 60)%Z
  /\ addFiveMinutes "23:57" = Some "00:02"
  /\ exists t', addFiveMinutes "23:57" = Some t'
                /\ minutesOf t' = Some (23 * 60 + 57 + 5 - 1440)%Z.
Proof.
  assert (Ht : hourMinute "23:57" = Some (23, 57)%Z) by reflexivity.
  assert (Hh : (0 <= 23 < 24)%Z) by lia.
  assert (Hm : (0 <= 57 < 60)%Z) by lia.
  split; [exact Ht|]. split; [exact Hh|]. split; [exact Hm|].
  split; [reflexivity|].
  destruct (addFiveMinutes_is_five_later "23:57" 23 57 Ht Hh Hm)
    as (t' & E & _ & _ & _ & Hwrap).
  exists t'. split; [exact E|]. apply Hwrap. lia.
Defined.

(* ----------------------------------------------------------------- *)
(** ** Adding, deleting and moving points *)

Lemma lastOf_snoc ps l :
  lastOf ps = Some l -> exists front, ps = front ++ [l].
Proof.
  unfold lastOf. intros H.
  destruct (exists_last (l := ps)) as (front & q & ->).
  { intros ->. discriminate H. }
  exists front. rewrite length_app in H. cbn [List.length] in H.
  replace (List.length front + 1 - 1)%nat with (List.length front) in H by lia.
  rewrite nth_error_app2, Nat.sub_diag in H by lia. cbn in H.
  injection H as ->. reflexivity.
Qed.

Lemma validateFrom_snoc : forall front prev l q a b,
  validateFrom prev (front ++ [l]) = Some None ->
  time q <> EmptyString ->
  minutesOf (time l) = Some a -> minutesOf (time q) = Some b ->
  validateFrom prev ((front ++ [l]) ++ [q])
  = Some (if (b <=? a)%Z then Some TimeOrder else None).
Proof.
  induction front as [|p front IH]; intros prev l q a b H Hq Ha Hb.
  - cbn [app] in *.
    assert (Hl : time l <> EmptyString).
    { intros E. rewrite validateFrom_missing in H by exact E. discriminate. }
    rewrite validateFrom_step in H |- * by exact Hl.
    assert (Hnext : validateFrom (Some (time l)) [q]
                    = Some (if (b <=? a)%Z then Some TimeOrder else None)).
    { rewrite validateFrom_step by exact Hq.
      rewrite !timeToMinutes_nonempty by assumption. rewrite Ha, Hb.
      destruct (b <=? a)%Z; reflexivity. }
    destruct prev as [tp|]; [|exact Hnext].
    destruct (timeToMinutes tp) as [a0|]; [|discriminate].
    destruct (timeToMinutes (time l)) as [b0|]; [|discriminate].
    destruct (b0 <=? a0)%Z; [discriminate|exact Hnext].
  - cbn [app] in *.
    assert (Hp : time p <> EmptyString).
    { intros E. rewrite validateFrom_missing in H by exact E. discriminate. }
    rewrite validateFrom_step in H |- * by exact Hp.
    destruct prev as [tp|]; [|eapply IH; eauto].
    destruct (timeToMinutes tp) as [a0|]; [|discriminate].
    destruct (timeToMinutes (time p)) as [b0|]; [|discriminate].
    destruct (b0 <=? a0)%Z; [discriminate|eapply IH; eauto].
Qed.

(** On a day without a change of the civil time, on a form without a
    time error whose last point carries a time of the day, [addPoint]
    appends a point with the last value and the time five minutes later.
    Up to 23:54 the form stays free of error; from 23:55 on the new time
    is past midnight and the form shows the order error. *)
Theorem addPoint_appends_five_minutes_later (f : Form) (l : Point)
    (h m : Z) :
  timeError f = None ->
  validateTimes (formPoints f) = Some None ->
  lastOf (formPoints f) = Some l ->
  hourMinute (time l) = Some (h, m) ->
  (0 <= h < 24)%Z -> (0 <= m < 60)%Z ->
  exists f' t',
    addPoint f = Some f'
    /\ formPoints f' = formPoints f ++ [mkPoint (value l) t']
    /\ minutesOf t' = Some ((h * 60 + m + 5) mod 1440)%Z
    /\ timeError f'
       = (if (h * 60 + m <=? 1434)%Z then None else Some TimeOrder).
Proof.
  intros He Hv Hl Ht Hh Hm.
  destruct (addFiveMinutes_parts (time l) h m Ht Hh Hm)
    as (t' & E & Hne & Hparse).
  destruct (lastOf_snoc _ _ Hl) as (front & Efront).
  assert (Ha : minutesOf (time l) = Some (h * 60 + m)%Z)
    by (unfold minutesOf; rewrite Ht; reflexivity).
  unfold addPoint, commit. rewrite He, Hl, E.
  unfold validateTimes in *. rewrite Efront in Hv |- *.
  rewrite (validateFrom_snoc front None l (mkPoint (value l) t')
             (h * 60 + m)%Z ((h * 60 + m + 5) mod 1440)%Z Hv Hne Ha Hparse).
  eexists. exists t'. split; [reflexivity|]. cbn [formPoints withPoints timeError].
  split; [reflexivity|]. split; [exact Hparse|].
  pose proof (Z.div_mod (h * 60 + m + 5) 1440 ltac:(lia)).
  pose proof (Z.mod_pos_bound (h * 60 + m + 5) 1440 ltac:(lia)).
  destruct (Z.leb_spec (h * 60 + m) 1434);
    destruct (Z.leb_spec ((h * 60 + m + 5) mod 1440) (h * 60 + m));
    try reflexivity; exfalso.
  - rewrite Z.mod_small in * by lia. lia.
  - lia.
Qed.

Lemma addPoint_appends_five_minutes_later_witness :
  timeError initialForm = None
  /\ validateTimes (formPoints initialForm) = Some None
  /\ lastOf (formPoints initialForm) = Some (mkPoint 10 "09:05")
  /\ hourMinute "09:05" = Some (9, 5)%Z
  /\ exists f' t',
       addPoint initialForm = Some f'
       /\ formPoints f' = formPoints initialForm ++ [mkPoint 10 t']
       /\ minutesOf t' = Some ((9 * 60 + 5 + 5) mod 1440)%Z
       /\ timeError f' = None.
Proof.
  assert (He : timeError initialForm = None) by reflexivity.
  assert (Hv : validateTimes (formPoints initialForm) = Some None)
    by reflexivity.
  assert (Hl : lastOf (formPoints initialForm) = Some (mkPoint 10 "09:05"))
    by reflexivity.
  assert (Ht : hourMinute (time (mkPoint 10 "09:05")) = Some (9, 5)%Z)
    by reflexivity.
  split; [exact He|]. split; [exact Hv|]. split; [exact Hl|].
  split; [exact Ht|].
  exact (addPoint_appends_five_minutes_later initialForm (mkPoint 10 "09:05")
           9 5 He Hv Hl Ht ltac:(lia) ltac:(lia)).
Defined.

Lemma validateFrom_drop_head prev p rest :
  validateFrom prev (p :: rest) = Some None ->
  validateFrom prev rest = Some None.
Proof.
  intros H.
  assert (Hp : time p <> EmptyString).
  { intros E. rewrite validateFrom_missing in H by exact E. discriminate. }
  rewrite validateFrom_step in H by exact Hp.
  destruct rest as [|p2 r]; [reflexivity|].
  assert (H' : validateFrom (Some (time p)) (p2 :: r) = Some None).
  { destruct prev as [tp|]; [|exact H].
    destruct (timeToMinutes tp), (timeToMinutes (time p)); try discriminate.
    destruct (_ <=? _)%Z; [discriminate|exact H]. }
  assert (Hp2 : time p2 <> EmptyString).
  { intros E. rewrite validateFrom_missing in H' by exact E. discriminate. }
  rewrite validateFrom_step in H' |- * by exact Hp2.
  destruct prev as [tp|]; [|destruct (timeToMinutes (time p)),
                               (timeToMinutes (time p2)); try discriminate;
                             destruct (_ <=? _)%Z; [discriminate|exact H']].
  destruct (timeToMinutes tp) as [a|]; [|discriminate].
  destruct (timeToMinutes (time p)) as [b|]; [|discriminate].
  destruct (Z.leb_spec b a); [discriminate|].
  destruct (timeToMinutes (time p2)) as [c|]; [|discriminate].
  destruct (Z.leb_spec c b); [discriminate|].
  destruct (Z.leb_spec c a); [lia|exact H'].
Qed.

Lemma validateFrom_removeAt : forall ps prev i,
  validateFrom prev ps = Some None ->
  validateFrom prev (removeAt i ps) = Some None.
Proof.
  induction ps as [|p rest IH]; intros prev i H.
  - unfold removeAt. rewrite firstn_nil, skipn_nil. reflexivity.
  - destruct i as [|i].
    + unfold removeAt. cbn [firstn skipn app].
      eapply validateFrom_drop_head. exact H.
    + change (removeAt (S i) (p :: rest)) with (p :: removeAt i rest).
      assert (Hp : time p <> EmptyString).
      { intros E. rewrite validateFrom_missing in H by exact E. discriminate. }
      rewrite validateFrom_step in H |- * by exact Hp.
      destruct prev as [tp|]; [|apply IH; exact H].
      destruct (timeToMinutes tp), (timeToMinutes (time p)); try discriminate.
      destruct (_ <=? _)%Z; [discriminate|apply IH; exact H].
Qed.

Lemma removeAt_keeps_two i ps :
  (2 <= i)%nat ->
  firstn 2 (removeAt i ps) = firstn 2 ps
  /\ ((2 <= List.length ps)%nat -> (2 <= List.length (removeAt i ps))%nat).
Proof.
  intros Hi. destruct i as [|[|i]]; try lia.
  destruct ps as [|a [|b ps']]; unfold removeAt.
  - cbn. split; [reflexivity|lia].
  - cbn. destruct i; cbn; (split; [reflexivity|lia]).
  - cbn. split; [reflexivity|lia].
Qed.

(** [deletePoint] leaves the form as it is for the first two points; for
    any other index it removes that point, keeps the first two points,
    and a sequence that was valid stays valid. *)
Theorem deletePoint_spares_first_two (f : Form) (i : nat) :
  ((i < 2)%nat -> deletePoint f i = Some f)
  /\ ((2 <= i)%nat -> validateTimes (formPoints f) = Some None ->
      exists f',
        deletePoint f i = Some f'
        /\ formPoints f' = removeAt i (formPoints f)
        /\ timeError f' = None
        /\ firstn 2 (formPoints f') = firstn 2 (formPoints f)
        /\ ((2 <= List.length (formPoints f))%nat ->
            (2 <= List.length (formPoints f'))%nat)).
Proof.
  unfold deletePoint. split.
  - intros Hi. destruct (Nat.ltb_spec i 2); [reflexivity|lia].
  - intros Hi Hv. destruct (Nat.ltb_spec i 2); [lia|].
    unfold commit, validateTimes in *.
    rewrite (validateFrom_removeAt _ None i Hv).
    eexists. split; [reflexivity|]. cbn [formPoints withPoints timeError].
    split; [reflexivity|]. split; [reflexivity|].
    apply removeAt_keeps_two. exact Hi.
Qed.

Lemma deletePoint_spares_first_two_witness :
  (1 < 2)%nat /\ deletePoint initialForm 1 = Some initialForm.
Proof.
  assert (H : (1 < 2)%nat) by lia.
  split; [exact H|].
  exact (proj1 (deletePoint_spares_first_two initialForm 1) H).
Defined.

Lemma updateAt_times g : forall l i u,
  (forall p, time (g p) = time p) ->
  updateAt i g l = Some u ->
  map time u = map time l /\ List.length u = List.length l.
Proof.
  induction l as [|p l IH]; intros i u Hg H; [destruct i; discriminate|].
  destruct i as [|i]; cbn [updateAt] in H.
  - injection H as <-. cbn. rewrite Hg. auto.
  - destruct (updateAt i g l) as [u'|] eqn:E; [|discriminate].
    injection H as <-. destruct (IH i u' Hg E) as [Ht Hl].
    cbn. rewrite Ht, Hl. auto.
Qed.

Lemma validateFrom_times : forall ps ps' prev,
  map time ps = map time ps' ->
  validateFrom prev ps = validateFrom prev ps'.
Proof.
  induction ps as [|p ps IH]; intros ps' prev H.
  - destruct ps'; [reflexivity|discriminate].
  - destruct ps' as [|p' ps']; [discriminate|].
    cbn [map] in H. injection H as Hp Hrest.
    cbn [validateFrom]. rewrite <- Hp.
    rewrite (IH ps' (Some (time p)) Hrest). reflexivity.
Qed.

Lemma updateAt_succ i g p l :
  updateAt (S i) g (p :: l)
  = match updateAt i g l with
    | Some u => Some (p :: u)
    | None => None
    end.
Proof. reflexivity. Qed.

Lemma swap_down : forall ps i a b u1 u2,
  nth_error ps i = Some a -> nth_error ps (S i) = Some b ->
  updateAt i (fun p => mkPoint (value b) (time p)) ps = Some u1 ->
  updateAt (S i) (fun p => mkPoint (value a) (time p)) u1 = Some u2 ->
  u2 = swapValuesAt i ps.
Proof.
  induction ps as [|p ps IH]; intros i a b u1 u2 Ha Hb H1 H2;
    [destruct i; discriminate|].
  destruct i as [|i].
  - cbn in Ha. injection Ha as ->.
    destruct ps as [|q ps']; [discriminate|].
    cbn in Hb. injection Hb as ->.
    cbn in H1. injection H1 as <-. cbn in H2. injection H2 as <-.
    reflexivity.
  - change (nth_error ps i = Some a) in Ha.
    change (nth_error ps (S i) = Some b) in Hb.
    rewrite updateAt_succ in H1.
    destruct (updateAt i (fun p0 => mkPoint (value b) (time p0)) ps)
      as [u1'|] eqn:E1; [|discriminate].
    injection H1 as <-. rewrite updateAt_succ in H2.
    destruct (updateAt (S i) (fun p0 => mkPoint (value a) (time p0)) u1')
      as [u2'|] eqn:E2; [|discriminate].
    injection H2 as <-.
    destruct ps as [|q ps']; [destruct i; discriminate|].
    change (swapValuesAt (S i) (p :: q :: ps'))
      with (p :: swapValuesAt i (q :: ps')).
    f_equal. eapply IH; eauto.
Qed.

Lemma swap_up : forall ps i a b u1 u2,
  nth_error ps (S i) = Some a -> nth_error ps i = Some b ->
  updateAt (S i) (fun p => mkPoint (value b) (time p)) ps = Some u1 ->
  updateAt i (fun p => mkPoint (value a) (time p)) u1 = Some u2 ->
  u2 = swapValuesAt i ps.
Proof.
  induction ps as [|p ps IH]; intros i a b u1 u2 Ha Hb H1 H2;
    [destruct i; discriminate|].
  destruct i as [|i].
  - cbn in Hb. injection Hb as ->.
    destruct ps as [|q ps']; [discriminate|].
    cbn in Ha. injection Ha as ->.
    cbn in H1. injection H1 as <-. cbn in H2. injection H2 as <-.
    reflexivity.
  - change (nth_error ps (S i) = Some a) in Ha.
    change (nth_error ps i = Some b) in Hb.
    rewrite updateAt_succ in H1.
    destruct (updateAt (S i) (fun p0 => mkPoint (value b) (time p0)) ps)
      as [u1'|] eqn:E1; [|discriminate].
    injection H1 as <-. rewrite updateAt_succ in H2.
    destruct (updateAt i (fun p0 => mkPoint (value a) (time p0)) u1')
      as [u2'|] eqn:E2; [|discriminate].
    injection H2 as <-.
    destruct ps as [|q ps']; [destruct i; discriminate|].
    change (swapValuesAt (S i) (p :: q :: ps'))
      with (p :: swapValuesAt i (q :: ps')).
    f_equal. eapply IH; eauto.
Qed.

Lemma swapValuesAt_facts : forall ps i,
  map time (swapValuesAt i ps) = map time ps
  /\ Permutation (map value (swapValuesAt i ps)) (map value ps)
  /\ List.length (swapValuesAt i ps) = List.length ps.
Proof.
  induction ps as [|p ps IH]; intros i.
  - destruct i; cbn; auto.
  - destruct i as [|i].
    + destruct ps as [|q ps']; cbn; [auto|].
      split; [reflexivity|]. split; [apply perm_swap|reflexivity].
    + destruct ps as [|q ps'].
      * cbn. destruct i; cbn; auto.
      * change (swapValuesAt (S i) (p :: q :: ps'))
          with (p :: swapValuesAt i (q :: ps')).
        destruct (IH i) as (Ht & Hp & Hl). cbn [map List.length].
        rewrite Ht, Hl. split; [reflexivity|].
        split; [apply perm_skip; exact Hp|reflexivity].
Qed.

Lemma moveValue_result f i dir f' :
  moveValue f i dir = Some f' ->
  f' = f
  \/ exists k, f' = withPoints f (swapValuesAt k (formPoints f)) (timeError f)
               /\ (S k < List.length (formPoints f))%nat
               /\ (k = i \/ S k = i).
Proof.
  unfold moveValue. intros H.
  destruct dir, i as [|i]; try (injection H as <-; left; reflexivity).
  - destruct (Nat.leb_spec (List.length (formPoints f)) i);
      [injection H as <-; left; reflexivity|].
    destruct (nth_error (formPoints f) (S i)) as [a|] eqn:Ea; [|discriminate].
    destruct (nth_error (formPoints f) i) as [b|] eqn:Eb; [|discriminate].
    destruct (updateAt (S i) _ (formPoints f)) as [u1|] eqn:E1; [|discriminate].
    destruct (updateAt i _ u1) as [u2|] eqn:E2; [|discriminate].
    injection H as <-. right. exists i.
    rewrite (swap_up _ _ _ _ _ _ Ea Eb E1 E2).
    split; [reflexivity|]. split; [|auto].
    apply nth_error_Some. congruence.
  - destruct (Nat.leb_spec (List.length (formPoints f)) 1);
      [injection H as <-; left; reflexivity|].
    destruct (nth_error (formPoints f) 0) as [a|] eqn:Ea; [|discriminate].
    destruct (nth_error (formPoints f) 1) as [b|] eqn:Eb; [|discriminate].
    destruct (updateAt 0 _ (formPoints f)) as [u1|] eqn:E1; [|discriminate].
    destruct (updateAt 1 _ u1) as [u2|] eqn:E2; [|discriminate].
    injection H as <-. right. exists 0%nat.
    rewrite (swap_down _ _ _ _ _ _ Ea Eb E1 E2). auto.
  - destruct (Nat.leb_spec (List.length (formPoints f)) (S (S i)));
      [injection H as <-; left; reflexivity|].
    destruct (nth_error (formPoints f) (S i)) as [a|] eqn:Ea; [|discriminate].
    destruct (nth_error (formPoints f) (S (S i))) as [b|] eqn:Eb; [|discriminate].
    destruct (updateAt (S i) _ (formPoints f)) as [u1|] eqn:E1; [|discriminate].
    destruct (updateAt (S (S i)) _ u1) as [u2|] eqn:E2; [|discriminate].
    injection H as <-. right. exists (S i).
    rewrite (swap_down _ _ _ _ _ _ Ea Eb E1 E2). auto.
Qed.

(** [moveValue] exchanges the values of two neighbouring points and
    nothing else: the times stay where they are, the values are the same
    up to their order, no point is added or lost, and the verdict of
    [validateTimes] on the points is unchanged, as is the error shown. *)
Theorem moveValue_swaps_values_only (f f' : Form) (i : nat) (dir : Direction) :
  moveValue f i dir = Some f' ->
  map time (formPoints f') = map time (formPoints f)
  /\ Permutation (map value (formPoints f'))
                             (map value (formPoints f))
  /\ List.length (formPoints f') = List.length (formPoints f)
  /\ timeError f' = timeError f
  /\ validateTimes (formPoints f') = validateTimes (formPoints f).
Proof.
  intros H. destruct (moveValue_result f i dir f' H) as [->|(k & -> & _)].
  - repeat split; auto.
  - cbn [formPoints withPoints timeError].
    destruct (swapValuesAt_facts (formPoints f) k) as (Ht & Hp & Hl).
    repeat split; auto.
    unfold validateTimes. apply validateFrom_times. exact Ht.
Qed.

Lemma moveValue_swaps_values_only_witness :
  exists f',
    moveValue risingForm 0 Down = Some f'
    /\ formPoints f' = [mkPoint 15 "09:00"; mkPoint 10 "09:05"]
    /\ map time (formPoints f') = map time (formPoints risingForm).
Proof.
  assert (H : moveValue risingForm 0 Down
              = Some (mkForm [mkPoint 15 "09:00"; mkPoint 10 "09:05"] None
                             "" "" (Some 5) "16:9")) by reflexivity.
  eexists. split; [exact H|]. split; [reflexivity|].
  exact (proj1 (moveValue_swaps_values_only _ _ 0 Down H)).
Defined.

(* ----------------------------------------------------------------- *)
(** ** From the form to the canvas *)

Lemma commit_result f u f' :
  commit f u = Some f' ->
  formPoints f' = u /\ consistent f'.
Proof.
  unfold commit, consistent. intros H.
  destruct (validateTimes u) as [e|] eqn:E; [|discriminate].
  injection H as <-. cbn. auto.
Qed.

Lemma updateAt_length g : forall l i u,
  updateAt i g l = Some u -> List.length u = List.length l.
Proof.
  induction l as [|p l IH]; intros i u H; [destruct i; discriminate|].
  destruct i as [|i].
  - cbn in H. injection H as <-. reflexivity.
  - rewrite updateAt_succ in H.
    destruct (updateAt i g l) as [u'|] eqn:E; [|discriminate].
    injection H as <-. cbn. rewrite (IH i u' E). reflexivity.
Qed.

Lemma removeAt_length i ps :
  (2 <= i)%nat -> (2 <= List.length ps)%nat ->
  (2 <= List.length (removeAt i ps))%nat.
Proof. intros Hi. apply (proj2 (removeAt_keeps_two i ps Hi)). Qed.

(** What the handlers keep true of the form. *)
Lemma act_keeps_form_sound f a f' :
  consistent f /\ (2 <= List.length (formPoints f))%nat ->
  act f a = Some f' ->
  consistent f' /\ (2 <= List.length (formPoints f'))%nat.
Proof.
  intros [Hc Hl] H. destruct a as [i v|i t| |i|i dir|t|t|d|r]; cbn [act] in H;
    try (injection H as <-; split; assumption).
  - unfold updateValue in H.
    destruct (updateAt i _ (formPoints f)) as [u|] eqn:E; [|discriminate].
    destruct (commit_result _ _ _ H) as [Ep Hc']. split; [exact Hc'|].
    rewrite Ep, (updateAt_length _ _ _ _ E). exact Hl.
  - unfold updateTime in H.
    destruct (updateAt i _ (formPoints f)) as [u|] eqn:E; [|discriminate].
    pose proof (updateAt_length _ _ _ _ E) as Hlen.
    destruct i as [|i].
    + destruct u as [|a [|b rest]];
        try (destruct (commit_result _ _ _ H) as [Ep Hc']; split;
             [exact Hc'|rewrite Ep, Hlen; exact Hl]).
      destruct (addFiveMinutes t) as [t'|]; [|discriminate].
      destruct (commit_result _ _ _ H) as [Ep Hc']. split; [exact Hc'|].
      rewrite Ep. cbn [List.length] in *. lia.
    + destruct (commit_result _ _ _ H) as [Ep Hc']. split; [exact Hc'|].
      rewrite Ep, Hlen. exact Hl.
  - unfold addPoint in H. destruct (timeError f);
      [injection H as <-; split; assumption|].
    destruct (lastOf (formPoints f)) as [l|]; [|discriminate].
    destruct (addFiveMinutes (time l)) as [t'|]; [|discriminate].
    destruct (commit_result _ _ _ H) as [Ep Hc']. split; [exact Hc'|].
    rewrite Ep, length_app. lia.
  - unfold deletePoint in H. destruct (Nat.ltb_spec i 2);
      [injection H as <-; split; assumption|].
    destruct (commit_result _ _ _ H) as [Ep Hc']. split; [exact Hc'|].
    rewrite Ep. apply removeAt_length; assumption.
  - destruct (moveValue_result f i dir f' H) as [->|(k & -> & _)];
      [split; assumption|].
    destruct (swapValuesAt_facts (formPoints f) k) as (Ht & _ & Hlen).
    unfold consistent in *. cbn [formPoints withPoints timeError].
    split; [|rewrite Hlen; exact Hl].
    rewrite <- Hc. unfold validateTimes. apply validateFrom_times. exact Ht.
Qed.

Lemma actAll_keeps_form_sound : forall actions f f',
  consistent f /\ (2 <= List.length (formPoints f))%nat ->
  actAll f actions = Some f' ->
  consistent f' /\ (2 <= List.length (formPoints f'))%nat.
Proof.
  induction actions as [|a actions IH]; intros f f' Hinv H.
  - cbn in H. injection H as <-. exact Hinv.
  - cbn [actAll] in H. destruct (act f a) as [f1|] eqn:E; [|discriminate].
    apply (IH f1 f'); [|exact H].
    eapply act_keeps_form_sound; eauto.
Qed.

Lemma table_ratio_width r w h : ratioMap r = Some (w, h) -> 1080 <= w.
Proof.
  unfold ratioMap.
  repeat match goal with
         | |- (if ?b then _ else _) = _ -> _ => destruct b
         end; intros H; inversion H; subst; lra.
Qed.

(** Whatever the user does to the form, a configuration that
    [handleGenerate] lets through has what the canvas assumes: the points
    of the form, two of them at least, with times that the canvas reads in
    strictly increasing order, a positive duration, and a title and a
    description that are absent rather than empty.  With an aspect ratio of
    the table, the canvas lays such a configuration out strictly from left
    to right. *)
Theorem form_hands_over_what_canvas_assumes (actions : list Action)
    (f : Form) (cfg : Props) :
  actAll initialForm actions = Some f ->
  handleGenerate f = Some cfg ->
  points cfg = formPoints f
  /\ timeError f = None
  /\ 0 < duration cfg
  /\ (2 <= List.length (points cfg))%nat
  /\ (exists tz, timesOf (points cfg) = Some tz /\ ascending tz)
  /\ title cfg <> Some EmptyString /\ description cfg <> Some EmptyString
  /\ (forall w h, ratioMap (aspectRatio cfg) = Some (w, h) ->
      exists s, snapshot cfg = Some s
                /\ increasing (map x (calculatedPoints s))).
Proof.
  intros Hall Hgen.
  destruct (actAll_keeps_form_sound actions initialForm f) as [Hc Hl];
    [split; [reflexivity|cbn; lia]|exact Hall|].
  unfold handleGenerate in Hgen.
  destruct (timeError f) as [e|] eqn:He; [discriminate|].
  destruct (parsedDuration f) as [d|]; [|discriminate].
  destruct (Req_dec_T d 0); [discriminate|].
  destruct (Rle_dec d 0); [discriminate|].
  injection Hgen as <-. cbn [points duration title description aspectRatio].
  unfold consistent in Hc. rewrite He in Hc.
  destruct (proj1 (validated_times_sound (formPoints f)) Hc) as [_ Htz].
  destruct (Htz Hl) as (tz & Etz & Hasc).
  split; [reflexivity|]. split; [reflexivity|]. split; [lra|].
  split; [exact Hl|]. split; [exists tz; auto|].
  split; [destruct (formTitle f); discriminate|].
  split; [destruct (formDescription f); discriminate|].
  intros w h Hr.
  set (cfg := mkProps _ _ _ _ _ _ _ _ _).
  destruct (snapshot_defined cfg w h tz Hr Etz) as (s & Hs).
  exists s. split; [exact Hs|].
  destruct (snapshot_inv cfg s Hs) as (w' & h' & tz' & Hr' & Ht' & Ec & Ecps & _).
  change (ratioMap (formAspectRatio f) = Some (w', h')) in Hr'.
  change (ratioMap (formAspectRatio f) = Some (w, h)) in Hr.
  rewrite Hr in Hr'. injection Hr' as <- <-.
  change (timesOf (formPoints f) = Some tz') in Ht'.
  rewrite Etz in Ht'. injection Ht' as <-.
  rewrite Ecps. unfold calculatedPointsAt. apply x_increasing.
  - pose proof (table_ratio_width _ _ _ Hr). unfold chartOf, cfg. cbn. lra.
  - destruct tz as [|t tz0]; [apply orElse_pos; cbn; lra|].
    apply range_denominator_pos. discriminate.
  - exact Hasc.
Qed.

Lemma form_hands_over_what_canvas_assumes_witness :
  exists f cfg,
    actAll initialForm [AddPoint; SetValue 2 15; MoveValue 2 Up;
                        SetTitle "My Trip!"] = Some f
    /\ handleGenerate f = Some cfg
    /\ map time (points cfg) = ["09:00"; "09:05"; "09:10"]
    /\ 0 < duration cfg
    /\ exists tz, timesOf (points cfg) = Some tz /\ ascending tz.
Proof.
  assert (Hf : exists f,
             actAll initialForm [AddPoint; SetValue 2 15; MoveValue 2 Up;
                                 SetTitle "My Trip!"] = Some f
             /\ map time (formPoints f) = ["09:00"; "09:05"; "09:10"]
             /\ timeError f = None /\ parsedDuration f = Some 5).
  { eexists. split; [reflexivity|]. cbn. auto. }
  destruct Hf as (f & Hf & Ht & He & Hd).
  assert (Hg : exists cfg, handleGenerate f = Some cfg).
  { unfold handleGenerate. rewrite He, Hd.
    destruct (Req_dec_T 5 0); [lra|]. destruct (Rle_dec 5 0); [lra|].
    eexists. reflexivity. }
  destruct Hg as (cfg & Hg). exists f, cfg.
  destruct (form_hands_over_what_canvas_assumes _ f cfg Hf Hg)
    as (Ep & _ & Hdur & _ & Htz & _).
  split; [exact Hf|]. split; [exact Hg|].
  split; [rewrite Ep; exact Ht|]. split; [exact Hdur|exact Htz].
Defined.

(* ----------------------------------------------------------------- *)
(** ** The time picker *)

Import TimePicker.

Lemma pad_nonneg n :
  (0 <= n)%Z -> pad n = Js.padStart2 (Js.ofN (Z.to_N n)).
Proof. intros H. destruct n; [reflexivity|reflexivity|lia]. Qed.

Lemma shown_time_is_read h m :
  (0 <= h < 100)%Z -> (0 <= m < 100)%Z ->
  hourMinute (pad h ++ ":" ++ pad m) = Some (h, m).
Proof.
  intros Hh Hm. rewrite !pad_nonneg by lia.
  rewrite parse_printed by lia. rewrite !Z2N.id by lia. reflexivity.
Qed.

Lemma hour24_range s :
  onDial s -> (0 <= hour24 s < 24)%Z.
Proof.
  intros [Hh _]. unfold hour24.
  destruct (period s); destruct (Z.eqb_spec (hour s) 12); lia.
Qed.

Lemma emitted_shape s :
  emitted s = (pad (hour24 s) ++ ":" ++ pad (minute s))%string.
Proof.
  unfold emitted, convert12To24, hour24.
  destruct (period s); cbn [Period_eqb andb negb].
  - destruct (Z.eqb_spec (hour s) 12); reflexivity.
  - destruct (Z.eqb_spec (hour s) 12) as [E|E]; cbn [negb];
      [rewrite E|]; reflexivity.
Qed.

Lemma emitted_is_read s :
  onDial s -> hourMinute (emitted s) = Some (hour24 s, minute s).
Proof.
  intros H. rewrite emitted_shape.
  pose proof (hour24_range s H). destruct H as [_ Hm].
  apply shown_time_is_read; lia.
Qed.

Lemma convert24To12_read val h m :
  hourMinute val = Some (h, m) ->
  convert24To12 val
  = Some (mkPicked (if (Z.rem h 12 =? 0)%Z then 12%Z else Z.rem h 12) m
                   (if (12 <=? h)%Z then PM else AM)).
Proof.
  intros H. unfold convert24To12.
  destruct val as [|c v]; [discriminate H|]. rewrite H. reflexivity.
Qed.

(** What the picker hands to its parent is a time of day that the editor
    reads: for a state on the dial the emitted string is the two-digit
    24-hour form of the state, [timeToMinutes] finds in it the minute of
    the day below 1440, and [convert24To12] reads the very state back, so
    that the parent's echo does not move the picker. *)
Theorem picker_reads_back_what_it_emits (s : Picked) :
  onDial s ->
  emitted s = (pad (hour24 s) ++ ":" ++ pad (minute s))%string
  /\ (0 <= hour24 s < 24)%Z
  /\ timeToMinutes (emitted s) = Some (hour24 s * 60 + minute s)%Z
  /\ (0 <= hour24 s * 60 + minute s < 1440)%Z
  /\ convert24To12 (emitted s) = Some s.
Proof.
  intros H. pose proof (hour24_range s H) as Hr.
  pose proof (emitted_is_read s H) as Hp.
  split; [apply emitted_shape|]. split; [exact Hr|].
  split.
  { rewrite timeToMinutes_nonempty by (eapply hourMinute_nonempty; eauto).
    unfold minutesOf. rewrite Hp. reflexivity. }
  destruct H as [Hh Hm]. split; [lia|].
  rewrite (convert24To12_read _ _ _ Hp).
  destruct s as [h m p]. cbn [hour minute period] in *.
  unfold hour24. cbn [hour minute period].
  assert (Hc : (h = 1 \/ h = 2 \/ h = 3 \/ h = 4 \/ h = 5 \/ h = 6 \/ h = 7
                \/ h = 8 \/ h = 9 \/ h = 10 \/ h = 11 \/ h = 12)%Z) by lia.
  destruct p;
    (repeat (destruct Hc as [->|Hc]; [reflexivity|])); subst h; reflexivity.
Qed.

Lemma picker_reads_back_what_it_emits_witness :
  emitted (mkPicked 12 5 AM) = "00:05"
  /\ convert24To12 (emitted (mkPicked 12 5 AM)) = Some (mkPicked 12 5 AM).
Proof.
  assert (H : onDial (mkPicked 12 5 AM)) by (unfold onDial; cbn; lia).
  split; [reflexivity|].
  exact (proj2 (proj2 (proj2 (proj2
           (picker_reads_back_what_it_emits (mkPicked 12 5 AM) H))))).
Defined.

(** A two-digit time of day of the parent is shown on the dial and handed
    back unchanged: the picker reads hour 0 as 12 AM, the hours 1 to 11 as
    themselves, 12 as 12 PM and the hours 13 to 23 as 1 to 11 PM, and what
    it emits for that state is the parent's value again. *)
Theorem picker_echoes_time_of_day (h m : Z) :
  (0 <= h < 24)%Z -> (0 <= m < 60)%Z ->
  exists s,
    convert24To12 (pad h ++ ":" ++ pad m) = Some s
    /\ onDial s
    /\ minute s = m
    /\ period s = (if (h <? 12)%Z then AM else PM)
    /\ hour24 s = h
    /\ emitted s = (pad h ++ ":" ++ pad m)%string.
Proof.
  intros Hh Hm.
  pose proof (shown_time_is_read h m ltac:(lia) ltac:(lia)) as Hp.
  rewrite (convert24To12_read _ _ _ Hp). eexists. split; [reflexivity|].
  assert (Hc : (h = 0 \/ h = 1 \/ h = 2 \/ h = 3 \/ h = 4 \/ h = 5 \/ h = 6
                \/ h = 7 \/ h = 8 \/ h = 9 \/ h = 10 \/ h = 11 \/ h = 12
                \/ h = 13 \/ h = 14 \/ h = 15 \/ h = 16 \/ h = 17 \/ h = 18
                \/ h = 19 \/ h = 20 \/ h = 21 \/ h = 22 \/ h = 23)%Z) by lia.
  assert (G : forall h0 : Z,
             (h0 = h) ->
             (1 <= (if (Z.rem h0 12 =? 0)%Z then 12 else Z.rem h0 12) <= 12)%Z
             /\ (if (12 <=? h0)%Z then PM else AM)
                = (if (h0 <? 12)%Z then AM else PM)
             /\ hour24 (mkPicked (if (Z.rem h0 12 =? 0)%Z then 12
                                  else Z.rem h0 12) m
                                 (if (12 <=? h0)%Z then PM else AM)) = h0).
  { intros h0 ->.
    repeat (destruct Hc as [->|Hc];
            [split; [cbn; lia|split; reflexivity]|]).
    subst h. split; [cbn; lia|split; reflexivity]. }
  destruct (G h eq_refl) as (G1 & G2 & G3).
  unfold onDial. cbn [hour minute period].
  split; [split; [exact G1|lia]|]. split; [reflexivity|].
  split; [exact G2|]. split; [exact G3|].
  rewrite emitted_shape, G3. reflexivity.
Qed.

Lemma picker_echoes_time_of_day_witness :
  exists s,
    convert24To12 "13:05" = Some s
    /\ hour s = 1%Z /\ period s = PM
    /\ emitted s = "13:05".
Proof.
  destruct (picker_echoes_time_of_day 13 5 ltac:(lia) ltac:(lia))
    as (s & Hs & _ & _ & _ & _ & He).
  exists s. split; [exact Hs|].
  change (convert24To12 "13:05" = Some s) in Hs.
  cbn in Hs. injection Hs as <-.
  split; [reflexivity|]. split; [reflexivity|reflexivity].
Defined.

Lemma digitOf_range c d : Js.digitOf c = Some d -> (0 <= d <= 9)%Z.
Proof.
  unfold Js.digitOf.
  destruct ((48 <=? nat_of_ascii c)%nat && (nat_of_ascii c <=? 57)%nat)
    eqn:E; [|discriminate].
  intros H. injection H as <-.
  apply andb_prop in E. destruct E as [E1 E2].
  apply Nat.leb_le in E1. apply Nat.leb_le in E2. lia.
Qed.

Lemma typed_digits_are_read : forall val acc,
  (0 <= acc)%Z ->
  exists num, Js.readDigits (digitsOnly val) acc = Some num /\ (0 <= num)%Z.
Proof.
  induction val as [|c val IH]; intros acc Hacc.
  - exists acc. split; [reflexivity|exact Hacc].
  - cbn [digitsOnly]. destruct (Js.digitOf c) as [d|] eqn:E.
    + cbn [Js.readDigits]. rewrite E.
      pose proof (digitOf_range c d E). apply IH. lia.
    + apply IH. exact Hacc.
Qed.

Lemma roundToStep_nearest step num :
  (0 < step)%Z ->
  exists k,
    roundToStep step num = Some (k * step)%Z
    /\ (- step < 2 * (k * step - num) <= step)%Z
    /\ ((0 <= num)%Z -> (0 <= k)%Z).
Proof.
  intros Hs. unfold roundToStep.
  destruct (Z.eqb_spec step 0); [lia|].
  exists ((2 * num + step) / (2 * step))%Z. split; [reflexivity|].
  pose proof (Z.div_mod (2 * num + step) (2 * step) ltac:(lia)) as E.
  pose proof (Z.mod_pos_bound (2 * num + step) (2 * step) ltac:(lia)) as B.
  set (k := ((2 * num + step) / (2 * step))%Z) in *.
  set (r := ((2 * num + step) mod (2 * step))%Z) in *.
  replace (2 * step * k)%Z with (2 * (k * step))%Z in E by ring.
  split; [lia|]. intros Hn. apply Z.div_pos; lia.
Qed.

Lemma wrapMinute_on_dial step num :
  (0 < step <= 60)%Z -> (0 <= wrapMinute step num < 60)%Z.
Proof.
  intros Hs. unfold wrapMinute.
  destruct (Z.leb_spec 60 num); [lia|].
  destruct (Z.ltb_spec num 0); lia.
Qed.

Lemma wrapHour_on_dial num : (1 <= wrapHour num <= 12)%Z.
Proof.
  unfold wrapHour. destruct (Z.ltb_spec 12 num); [lia|].
  destruct (Z.ltb_spec num 1); lia.
Qed.

Lemma handle_on_dial step s g :
  (0 < step <= 60)%Z ->
  exists s', handle step s g = Some s'
             /\ (onDial s -> onDial s').
Proof.
  intros Hs. unfold onDial.
  pose proof (wrapMinute_on_dial step) as WM.
  pose proof wrapHour_on_dial as WH.
  destruct g as [val|val| | | | |p]; cbn [handle].
  - unfold handleHourChange, Js.Number.
    destruct (typed_digits_are_read val 0 ltac:(lia)) as (num & -> & _).
    destruct (num =? 0)%Z; eexists; (split; [reflexivity|]);
      cbn [hour minute period]; intros [? ?]; auto.
  - unfold handleMinuteChange, Js.Number.
    destruct (typed_digits_are_read val 0 ltac:(lia)) as (num & -> & _).
    destruct (roundToStep_nearest step num ltac:(lia)) as (k & -> & _).
    eexists; (split; [reflexivity|]); cbn [hour minute period].
    intros [? ?]; auto.
  - eexists; (split; [reflexivity|]); cbn [hour minute period].
    intros [? ?]; auto.
  - eexists; (split; [reflexivity|]); cbn [hour minute period].
    intros [? ?]; auto.
  - eexists; (split; [reflexivity|]); cbn [hour minute period].
    intros [? ?]; auto.
  - eexists; (split; [reflexivity|]); cbn [hour minute period].
    intros [? ?]; auto.
  - eexists; (split; [reflexivity|]); cbn [hour minute period].
    intros [? ?]; auto.
Qed.

(** With a step from 1 to 60 minutes no sequence of gestures fails or
    takes the picker off the dial: the hour stays from 1 to 12 and the
    minute from 0 to 59, so that what the picker emits after the gestures
    is again a time of day that the editor reads. *)
Theorem picker_stays_on_dial (stepMinutes : Z) (gs : list Gesture)
    (s : Picked) :
  (0 < stepMinutes <= 60)%Z ->
  onDial s ->
  exists s',
    handleAll stepMinutes s gs = Some s'
    /\ onDial s'
    /\ timeToMinutes (emitted s') = Some (hour24 s' * 60 + minute s')%Z
    /\ (0 <= hour24 s' * 60 + minute s' < 1440)%Z.
Proof.
  intros Hs. revert s. induction gs as [|g gs IH]; intros s Hd.
  - exists s. split; [reflexivity|]. split; [exact Hd|].
    pose proof (hour24_range s Hd) as Hr.
    pose proof (emitted_is_read s Hd) as Hp.
    split; [|destruct Hd; lia].
    rewrite timeToMinutes_nonempty by (eapply hourMinute_nonempty; eauto).
    unfold minutesOf. rewrite Hp. reflexivity.
  - destruct (handle_on_dial stepMinutes s g Hs) as (s1 & E & Hk).
    cbn [handleAll]. rewrite E. apply IH. apply Hk. exact Hd.
Qed.

Lemma picker_stays_on_dial_witness :
  exists s',
    handleAll 5 (mkPicked 9 0 AM)
              [MinuteTyped "58"; HourArrowDown; MinuteArrowDown;
               PeriodChosen PM; HourTyped "x13"] = Some s'
    /\ onDial s'.
Proof.
  destruct (picker_stays_on_dial 5
              [MinuteTyped "58"; HourArrowDown; MinuteArrowDown;
               PeriodChosen PM; HourTyped "x13"] (mkPicked 9 0 AM))
    as (s' & H & Hd & _).
  - lia.
  - unfold onDial. cbn. lia.
  - exists s'. split; assumption.
Defined.

(** A typed minute goes to the nearest multiple of the step, a tie to the
    greater one, and a result of 60 or more to 0: with the step 5 the
    minutes 58 and 59 give 0, not 55. *)
Theorem typed_minute_goes_to_nearest_step (stepMinutes : Z) (s : Picked)
    (val : string) :
  (0 < stepMinutes)%Z ->
  exists num k,
    Js.Number (digitsOnly val) = Some num
    /\ (0 <= num)%Z /\ (0 <= k)%Z
    /\ (- stepMinutes < 2 * (k * stepMinutes - num) <= stepMinutes)%Z
    /\ handle stepMinutes s (MinuteTyped val)
       = Some (mkPicked (hour s)
                        (if (60 <=? k * stepMinutes)%Z then 0
                         else k * stepMinutes)%Z
                        (period s)).
Proof.
  intros Hs. cbn [handle]. unfold handleMinuteChange, Js.Number.
  destruct (typed_digits_are_read val 0 ltac:(lia)) as (num & E & Hn).
  destruct (roundToStep_nearest stepMinutes num Hs) as (k & Er & Hk & Hk0).
  exists num, k. rewrite E, Er.
  split; [reflexivity|]. split; [exact Hn|]. split; [auto|].
  split; [exact Hk|].
  unfold wrapMinute. destruct (Z.leb_spec 60 (k * stepMinutes)); [reflexivity|].
  destruct (Z.ltb_spec (k * stepMinutes) 0); [|reflexivity].
  specialize (Hk0 Hn). nia.
Qed.

Lemma typed_minute_goes_to_nearest_step_witness :
  handle 5 (mkPicked 9 30 AM) (MinuteTyped "58") = Some (mkPicked 9 0 AM)
  /\ exists num k,
       Js.Number (digitsOnly "58") = Some num
       /\ (- 5 < 2 * (k * 5 - num) <= 5)%Z.
Proof.
  split; [reflexivity|].
  destruct (typed_minute_goes_to_nearest_step 5 (mkPicked 9 30 AM) "58")
    as (num & k & E & _ & _ & Hk & _); [lia|].
  exists num, k. split; assumption.
Defined.

Lemma divides_sixty_gap step a :
  (0 < step)%Z -> (step | 60)%Z -> (step | a)%Z -> (0 <= a < 60)%Z ->
  (60 <= a + step)%Z -> a = (60 - step)%Z.
Proof.
  intros Hs [b Hb] [c Hc] Ha Hge. subst a.
  assert (c < b)%Z by nia. assert (b <= c + 1)%Z by nia.
  assert (b = c + 1)%Z by lia. subst b. lia.
Qed.

Lemma multiple_below_step step a :
  (0 < step)%Z -> (step | a)%Z -> (0 <= a)%Z -> (a - step < 0)%Z -> a = 0%Z.
Proof.
  intros Hs [c Hc] Ha Hlt. subst a.
  assert (c < 1)%Z by nia. assert (0 <= c)%Z by nia.
  replace c with 0%Z by lia. reflexivity.
Qed.

(** The minutes stay multiples of the step under every gesture exactly
    when the step divides 60.  For another step, the down arrow at minute
    0 gives [60 - stepMinutes], which is no multiple of the step. *)
Theorem minutes_stay_on_grid_iff_step_divides_60 (stepMinutes : Z) :
  (0 < stepMinutes)%Z ->
  ((forall s g s',
       onDial s -> (stepMinutes | minute s)%Z ->
       handle stepMinutes s g = Some s' ->
       (stepMinutes | minute s')%Z)
   <-> (stepMinutes | 60)%Z).
Proof.
  intros Hs. split.
  - intros H.
    specialize (H (mkPicked 12 0 AM) MinuteArrowDown
                  (mkPicked 12 (60 - stepMinutes) AM)).
    cbn [minute hour period] in H.
    assert (D : (stepMinutes | 60 - stepMinutes)%Z).
    { apply H.
      - unfold onDial. cbn. lia.
      - apply Z.divide_0_r.
      - cbn [handle hour minute period]. unfold wrapMinute.
        destruct (Z.leb_spec 60 (0 - stepMinutes)); [lia|].
        destruct (Z.ltb_spec (0 - stepMinutes) 0); [reflexivity|lia]. }
    replace 60%Z with ((60 - stepMinutes) + stepMinutes)%Z by ring.
    apply Z.divide_add_r; [exact D|apply Z.divide_refl].
  - intros H60 s g s' Hd Hm Hg.
    assert (W : forall num, (stepMinutes | num)%Z ->
                            (stepMinutes | wrapMinute stepMinutes num)%Z).
    { intros num Hn. unfold wrapMinute.
      destruct (Z.leb_spec 60 num); [apply Z.divide_0_r|].
      destruct (Z.ltb_spec num 0); [|exact Hn].
      apply Z.divide_sub_r; [exact H60|apply Z.divide_refl]. }
    destruct g as [val|val| | | | |p]; cbn [handle] in Hg.
    + unfold handleHourChange in Hg.
      destruct (Js.Number (digitsOnly val)) as [num|];
        [destruct (num =? 0)%Z|]; injection Hg as <-; exact Hm.
    + unfold handleMinuteChange in Hg.
      destruct (Js.Number (digitsOnly val)) as [num|];
        [|injection Hg as <-; exact Hm].
      destruct (roundToStep_nearest stepMinutes num Hs) as (k & Er & _).
      rewrite Er in Hg. injection Hg as <-. cbn [minute].
      apply W. exists k. reflexivity.
    + injection Hg as <-. exact Hm.
    + injection Hg as <-. exact Hm.
    + injection Hg as <-. cbn [minute]. apply W.
      apply Z.divide_add_r; [exact Hm|apply Z.divide_refl].
    + injection Hg as <-. cbn [minute]. apply W.
      apply Z.divide_sub_r; [exact Hm|apply Z.divide_refl].
    + injection Hg as <-. exact Hm.
Qed.

Lemma minutes_stay_on_grid_iff_step_divides_60_witness :
  ~ (forall s g s',
        onDial s -> (7 | minute s)%Z ->
        handle 7 s g = Some s' -> (7 | minute s')%Z)
  /\ handle 7 (mkPicked 12 0 AM) MinuteArrowDown = Some (mkPicked 12 53 AM).
Proof.
  split; [|reflexivity].
  intros H.
  apply (proj1 (minutes_stay_on_grid_iff_step_divides_60 7 ltac:(lia))) in H.
  destruct H as [c Hc]. lia.
Defined.

Lemma wrapMinute_cases step num :
  ((60 <= num) /\ wrapMinute step num = 0)%Z
  \/ ((num < 0) /\ wrapMinute step num = 60 - step)%Z
  \/ ((0 <= num < 60) /\ wrapMinute step num = num)%Z.
Proof.
  unfold wrapMinute. destruct (Z.leb_spec 60 num); [left; lia|].
  destruct (Z.ltb_spec num 0); [right; left; lia|right; right; lia].
Qed.

Lemma wrapHour_cases num :
  ((12 < num) /\ wrapHour num = 1)%Z
  \/ ((num < 1) /\ wrapHour num = 12)%Z
  \/ ((1 <= num <= 12) /\ wrapHour num = num)%Z.
Proof.
  unfold wrapHour. destruct (Z.ltb_spec 12 num); [left; lia|].
  destruct (Z.ltb_spec num 1); [right; left; lia|right; right; lia].
Qed.

(** For a step that divides 60 the arrow keys undo each other on the grid
    of the step: up then down, and down then up, leave the minute where it
    was, also across the hour (from [60 - stepMinutes] to 0 and back); the
    same holds for the hour across 12 and 1. *)
Theorem arrow_keys_undo_each_other (stepMinutes : Z) (s : Picked) :
  (0 < stepMinutes)%Z -> (stepMinutes | 60)%Z ->
  onDial s -> (stepMinutes | minute s)%Z ->
  handleAll stepMinutes s [MinuteArrowUp; MinuteArrowDown] = Some s
  /\ handleAll stepMinutes s [MinuteArrowDown; MinuteArrowUp] = Some s
  /\ handleAll stepMinutes s [HourArrowUp; HourArrowDown] = Some s
  /\ handleAll stepMinutes s [HourArrowDown; HourArrowUp] = Some s.
Proof.
  intros Hs H60 [Hh Hm] Hg. destruct s as [h m p].
  cbn [hour minute period] in *.
  pose proof (divides_sixty_gap stepMinutes m Hs H60 Hg Hm) as Gap.
  pose proof (multiple_below_step stepMinutes m Hs Hg ltac:(lia)) as Low.
  assert (Hle : (stepMinutes <= 60)%Z).
  { apply Z.divide_pos_le; [lia|exact H60]. }
  cbn [handleAll handle hour minute period].
  pose proof (wrapMinute_cases stepMinutes (m + stepMinutes)) as U1.
  pose proof (wrapMinute_cases stepMinutes
                (wrapMinute stepMinutes (m + stepMinutes) - stepMinutes))
    as U2.
  pose proof (wrapMinute_cases stepMinutes (m - stepMinutes)) as D1.
  pose proof (wrapMinute_cases stepMinutes
                (wrapMinute stepMinutes (m - stepMinutes) + stepMinutes))
    as D2.
  pose proof (wrapHour_cases (h + 1)) as V1.
  pose proof (wrapHour_cases (wrapHour (h + 1) - 1)) as V2.
  pose proof (wrapHour_cases (h - 1)) as E1.
  pose proof (wrapHour_cases (wrapHour (h - 1) + 1)) as E2.
  repeat split; f_equal; f_equal; lia.
Qed.

Lemma arrow_keys_undo_each_other_witness :
  handleAll 5 (mkPicked 12 55 PM) [MinuteArrowUp; MinuteArrowDown]
  = Some (mkPicked 12 55 PM)
  /\ handleAll 5 (mkPicked 12 55 PM) [HourArrowUp; HourArrowDown]
     = Some (mkPicked 12 55 PM).
Proof.
  assert (D60 : (5 | 60)%Z) by (exists 12%Z; reflexivity).
  assert (D55 : (5 | 55)%Z) by (exists 11%Z; reflexivity).
  assert (Hd : onDial (mkPicked 12 55 PM)) by (unfold onDial; cbn; lia).
  destruct (arrow_keys_undo_each_other 5 (mkPicked 12 55 PM)
              ltac:(lia) D60 Hd D55) as (A & _ & B & _).
  split; assumption.
Defined.

(* ----------------------------------------------------------------- *)
(** ** Captures and exports *)

Lemma chunks_from acc : forall events,
  fold_left WebmExport.ondataavailable events acc
  = acc ++ filter (fun e => (0 <? WebmExport.size e)%N) events.
Proof.
  intros events. revert acc.
  induction events as [|e events IH]; intros acc.
  - cbn. rewrite app_nil_r. reflexivity.
  - cbn [fold_left filter]. rewrite IH. unfold WebmExport.ondataavailable.
    destruct (0 <? WebmExport.size e)%N; [|reflexivity].
    rewrite <- app_assoc. reflexivity.
Qed.

(** The recorded blob is made of the delivered pieces that are not empty,
    in the order of their delivery, and is as long as all delivered pieces
    together: leaving the empty ones out loses nothing. *)
Theorem blob_holds_all_delivered_data (events : list WebmExport.Data) :
  WebmExport.chunksAfter events
  = filter (fun e => (0 <? WebmExport.size e)%N) events
  /\ Forall (fun c => (0 < WebmExport.size c)%N) (WebmExport.chunksAfter events)
  /\ WebmExport.blobSize (WebmExport.chunksAfter events)
     = WebmExport.blobSize events.
Proof.
  unfold WebmExport.chunksAfter. rewrite chunks_from. cbn [app].
  split; [reflexivity|]. split.
  - apply Forall_forall. intros c Hc. apply filter_In in Hc.
    destruct Hc as [_ Hc]. apply N.ltb_lt in Hc. exact Hc.
  - unfold WebmExport.blobSize.
    induction events as [|e events IH]; [reflexivity|].
    cbn [filter]. destruct (N.ltb_spec 0 (WebmExport.size e)) as [Hpos|Hz].
    + cbn [fold_right]. rewrite IH. reflexivity.
    + cbn [fold_right]. rewrite IH. lia.
Qed.

(** Whatever its collaborators do, [downloadMp4] itself never throws, and
    how it ends follows the first stage that does not fulfil: after a
    rejection it returns with the failure notice last; when every stage
    fulfils it returns with the success notice last; when a stage never
    settles it never returns, and shows neither a failure nor a success
    notice and downloads nothing. *)
Theorem downloadMp4_ends_as_its_stages (w : World) (p : Props) :
  let r := downloadMp4 w p [] in
  snd r <> Thrown
  /\ match outcome (stages w p) with
     | Fulfilled =>
         snd r = Done tt
         /\ last (fst r) FfmpegLoad = ToastSuccess "toast.mp4Downloaded"
     | Rejected =>
         snd r = Done tt
         /\ last (fst r) FfmpegLoad = ToastError "toast.mp4Failed"
     | Pending =>
         snd r = Blocked
         /\ countIf isError (fst r) = 0%nat
         /\ countIf isSuccess (fst r) = 0%nat
         /\ countIf isClick (fst r) = 0%nat
     end.
Proof.
  destruct w as [rec loaded ld fv wv fa wa ex rf rd clk].
  destruct p as [pts ratio dur ttl descr audio wm font img].
  unfold downloadMp4, tryBlock, stages, readBack, countIf.
  cbn [recordAnimation ffmpegLoaded load fetchVideo writeVideo fetchAudio
       writeAudio exec readFile readData clock audioFile title].
  stage rec. destruct loaded; cbn; [|stage ld];
    (stage fv; stage wv; destruct audio; cbn; [stage fa; stage wa|];
     stage ex; stage rf; destruct rd; close_case).
Qed.

Lemma session_without_points p lineWidth s startTime inputs ph tr :
  snapshot p = Some s ->
  points p = [] ->
  run p lineWidth s startTime AwaitFrame inputs = Some (ph, tr) ->
  ph <> Stopped.
Proof.
  intros Hs Hp Hrun.
  destruct (snapshot_inv p s Hs) as (w & h & tz & _ & _ & _ & Ecps & _).
  assert (Hnone : forall now, animate p lineWidth s startTime now = None).
  { intros now. unfold animate, planeAt. rewrite Ecps, Hp.
    destruct (placeLabels _ _ _); reflexivity. }
  destruct inputs as [|i rest].
  - cbn in Hrun. injection Hrun as <- <-. discriminate.
  - cbn [run step] in Hrun. destruct i as [now|]; [|discriminate].
    rewrite Hnone in Hrun.
    destruct (run p lineWidth s startTime Crashed rest) as [[ph' tr']|] eqn:E;
      [|discriminate].
    pose proof (run_after_crash _ _ _ _ _ _ _ E) as [Er _]. subst rest.
    cbn in E. inversion E; subst ph' tr'. inversion Hrun; subst ph tr.
    discriminate.
Qed.

(** With a mounted canvas and a loaded plane image, a recording of at
    least one point with a positive duration, whose frame callbacks run
    up to the end of the duration and whose timer then fires, makes
    [startRecording] show the loading notice, download the capture once
    under the generated [.webm] name, and then report success; nothing
    else happens and the call returns. *)
Theorem startRecording_downloads_then_reports (st : WebmExport.Stage)
    (p : Props) (lineWidth : nat -> R) (s : Snapshot) (startTime : R)
    (early : list R) (final : R) :
  WebmExport.canvasMounted st = true ->
  WebmExport.planeLoaded st = true ->
  calculatedPoints s <> [] ->
  0 < duration p ->
  (forall t, In t early -> t < startTime + duration p * 1000) ->
  startTime + duration p * 1000 <= final ->
  WebmExport.startRecording st p
    (run p lineWidth s startTime AwaitFrame
         (map Raf early ++ [Raf final; TimerFired])) []
  = ([ToastLoading "toast.recording";
      AnchorClick (generateFileName (WebmExport.stageClock st) (title p)
                                    "webm");
      ToastSuccess "toast.webmDownloaded"],
     Done tt).
Proof.
  intros Hc Hl Hne Hd Hearly Hfinal.
  rewrite run_early by assumption.
  cbn [run]. rewrite step_frame by exact Hne.
  rewrite (progress_after_end startTime (duration p) final Hd Hfinal).
  destruct (Rlt_dec 1 1); [lra|]. cbn [step app].
  unfold WebmExport.startRecording, WebmExport.recordAnimation,
    WebmExport.captureSettles.
  rewrite Hc, Hl. reflexivity.
Qed.

Lemma startRecording_downloads_then_reports_witness :
  exists s,
    snapshot tripProps = Some s
    /\ fst (WebmExport.startRecording
              (WebmExport.mkStage true true marchMorning) tripProps
              (run tripProps (fun _ => 120) s 0 AwaitFrame
                   (map Raf [0; 1500] ++ [Raf 3000; TimerFired])) [])
       = [ToastLoading "toast.recording";
          AnchorClick (generateFileName marchMorning None "webm");
          ToastSuccess "toast.webmDownloaded"].
Proof.
  destruct (frame_exists tripProps (fun _ => 120) 0 0 1440 1440
              [540; 545; 550]%Z eq_refl eq_refl ltac:(discriminate))
    as (s & _ & Hs & Hcps & _).
  exists s. split; [exact Hs|].
  rewrite (startRecording_downloads_then_reports
             (WebmExport.mkStage true true marchMorning) tripProps
             (fun _ => 120) s 0 [0; 1500] 3000).
  - reflexivity.
  - reflexivity.
  - reflexivity.
  - exact Hcps.
  - cbn. lra.
  - intros t [<-|[<-|[]]]; cbn; lra.
  - cbn. lra.
Defined.

(** A capture of no points never settles.  Whatever frame callbacks and
    timers the platform delivers, [startRecording] and [downloadMp4] both
    stay at their loading notice: neither returns, reports a failure or a
    success, touches the transcoder or downloads anything. *)
Theorem export_of_no_points_hangs (st : WebmExport.Stage) (p : Props)
    (lineWidth : nat -> R) (s : Snapshot) (startTime : R)
    (inputs : list Input) (w : World) :
  WebmExport.canvasMounted st = true ->
  snapshot p = Some s ->
  points p = [] ->
  let session := run p lineWidth s startTime AwaitFrame inputs in
  WebmExport.startRecording st p session []
  = ([ToastLoading "toast.recording"], Blocked)
  /\ downloadMp4 (WebmExport.worldOf st session w) p []
     = ([ToastLoading "toast.recording"], Blocked).
Proof.
  intros Hc Hs Hp session.
  assert (Hpend : WebmExport.captureSettles st session = Pending).
  { unfold WebmExport.captureSettles. rewrite Hc. cbn [negb].
    destruct (WebmExport.planeLoaded st); [cbn [negb]|reflexivity].
    destruct session as [[ph tr]|] eqn:E; [|reflexivity].
    pose proof (session_without_points _ _ _ _ _ _ _ Hs Hp E) as Hph.
    destruct ph; try reflexivity. congruence. }
  split.
  - unfold WebmExport.startRecording, WebmExport.recordAnimation.
    rewrite Hpend. reflexivity.
  - unfold downloadMp4, tryBlock, WebmExport.worldOf.
    cbn [recordAnimation]. rewrite Hpend. reflexivity.
Qed.

Lemma export_of_no_points_hangs_witness :
  exists s,
    snapshot emptyProps = Some s
    /\ WebmExport.startRecording (WebmExport.mkStage true true marchMorning)
         emptyProps
         (run emptyProps (fun _ => 120) s 0 AwaitFrame [Raf 0; Raf 16]) []
       = ([ToastLoading "toast.recording"], Blocked).
Proof.
  destruct (snapshot_defined emptyProps 1440 1440 [] eq_refl eq_refl)
    as (s & Hs).
  exists s. split; [exact Hs|].
  exact (proj1 (export_of_no_points_hangs
                  (WebmExport.mkStage true true marchMorning) emptyProps
                  (fun _ => 120) s 0 [Raf 0; Raf 16] transcodeFails
                  eq_refl Hs eq_refl)).
Defined.

(* ----------------------------------------------------------------- *)
(** ** The editor on shared point objects *)


Lemma read_write g : forall h r r',
  ES.read (ES.write h r g) r'
  = if Nat.eqb r' r then option_map g (ES.read h r') else ES.read h r'.
Proof.
  unfold ES.read. induction h as [|p h IH]; intros r r'.
  - cbn. destruct r'; destruct (Nat.eqb _ r); reflexivity.
  - destruct r as [|r]; destruct r' as [|r']; cbn; try reflexivity.
    apply IH.
Qed.

Lemma length_write g : forall h r,
  List.length (ES.write h r g) = List.length h.
Proof.
  induction h as [|p h IH]; intros r; [reflexivity|].
  destruct r; cbn; [reflexivity|]. rewrite IH. reflexivity.
Qed.

Lemma readAll_cons h r rs :
  ES.readAll h (r :: rs)
  = match ES.read h r, ES.readAll h rs with
    | Some p, Some ps => Some (p :: ps)
    | _, _ => None
    end.
Proof. reflexivity. Qed.

Lemma readAll_write_notin g h r : forall rs,
  ~ In r rs -> ES.readAll (ES.write h r g) rs = ES.readAll h rs.
Proof.
  induction rs as [|r0 rs IH]; intros Hn; [reflexivity|].
  rewrite !readAll_cons, read_write.
  destruct (Nat.eqb_spec r0 r) as [->|Hne]; [exfalso; apply Hn; left; reflexivity|].
  rewrite IH; [reflexivity|]. intros Hin. apply Hn. right. exact Hin.
Qed.

Lemma readAll_write_at g h r : forall rs i ps,
  NoDup rs -> nth_error rs i = Some r ->
  ES.readAll h rs = Some ps ->
  ES.readAll (ES.write h r g) rs = updateAt i g ps
  /\ exists u, updateAt i g ps = Some u.
Proof.
  induction rs as [|r0 rs IH]; intros i ps Hnd Hi Hr;
    [destruct i; discriminate|].
  rewrite readAll_cons in Hr.
  destruct (ES.read h r0) as [p0|] eqn:E0; [|discriminate].
  destruct (ES.readAll h rs) as [ps0|] eqn:E1; [|discriminate].
  injection Hr as <-. inversion Hnd as [|? ? Hnotin Hnd']; subst.
  destruct i as [|i].
  - cbn in Hi. injection Hi as ->.
    rewrite readAll_cons, read_write, Nat.eqb_refl, E0.
    rewrite readAll_write_notin by exact Hnotin. rewrite E1.
    cbn. split; [reflexivity|eauto].
  - cbn in Hi. rewrite readAll_cons, read_write.
    destruct (Nat.eqb_spec r0 r) as [->|Hne].
    { exfalso. apply Hnotin. eapply nth_error_In; eauto. }
    rewrite E0. destruct (IH i ps0 Hnd' Hi eq_refl) as (Ew & u & Eu).
    rewrite Ew, updateAt_succ, Eu. split; [reflexivity|eauto].
Qed.

Lemma readAll_length h : forall rs ps,
  ES.readAll h rs = Some ps -> List.length ps = List.length rs.
Proof.
  induction rs as [|r rs IH]; intros ps H.
  - injection H as <-. reflexivity.
  - rewrite readAll_cons in H.
    destruct (ES.read h r); [|discriminate].
    destruct (ES.readAll h rs) as [ps0|]; [|discriminate].
    injection H as <-. cbn. rewrite (IH ps0 eq_refl). reflexivity.
Qed.

Lemma readAll_nth h : forall rs ps i,
  ES.readAll h rs = Some ps ->
  nth_error ps i = match nth_error rs i with
                   | Some r => ES.read h r
                   | None => None
                   end.
Proof.
  induction rs as [|r rs IH]; intros ps i H.
  - injection H as <-. destruct i; reflexivity.
  - rewrite readAll_cons in H.
    destruct (ES.read h r) as [p|] eqn:E; [|discriminate].
    destruct (ES.readAll h rs) as [ps0|]; [|discriminate].
    injection H as <-. destruct i as [|i]; cbn; [auto|].
    apply IH. reflexivity.
Qed.

Lemma readAll_app h : forall a b,
  ES.readAll h (a ++ b)
  = match ES.readAll h a, ES.readAll h b with
    | Some x, Some y => Some (x ++ y)
    | _, _ => None
    end.
Proof.
  induction a as [|r a IH]; intros b.
  - cbn. destruct (ES.readAll h b); reflexivity.
  - cbn [app]. rewrite !readAll_cons, IH.
    destruct (ES.read h r); [|reflexivity].
    destruct (ES.readAll h a); [|reflexivity].
    destruct (ES.readAll h b); reflexivity.
Qed.

Lemma readAll_grow h h' : forall rs,
  Forall (fun r => (r < List.length h)%nat) rs ->
  ES.readAll (h ++ h') rs = ES.readAll h rs.
Proof.
  induction rs as [|r rs IH]; intros Hf; [reflexivity|].
  inversion Hf as [|? ? Hr Hf']; subst.
  rewrite !readAll_cons, IH by exact Hf'.
  unfold ES.read. rewrite nth_error_app1 by exact Hr. reflexivity.
Qed.

Lemma readAll_firstn h n : forall rs ps,
  ES.readAll h rs = Some ps ->
  ES.readAll h (firstn n rs) = Some (firstn n ps).
Proof.
  induction n as [|n IH]; intros rs ps H; [reflexivity|].
  destruct rs as [|r rs].
  - injection H as <-. reflexivity.
  - rewrite readAll_cons in H.
    destruct (ES.read h r) as [p|] eqn:E; [|discriminate].
    destruct (ES.readAll h rs) as [ps0|] eqn:E1; [|discriminate].
    injection H as <-. cbn [firstn]. rewrite readAll_cons, E.
    rewrite (IH rs ps0 E1). reflexivity.
Qed.

Lemma readAll_skipn h n : forall rs ps,
  ES.readAll h rs = Some ps ->
  ES.readAll h (skipn n rs) = Some (skipn n ps).
Proof.
  induction n as [|n IH]; intros rs ps H; [exact H|].
  destruct rs as [|r rs].
  - injection H as <-. reflexivity.
  - rewrite readAll_cons in H.
    destruct (ES.read h r) as [p|] eqn:E; [|discriminate].
    destruct (ES.readAll h rs) as [ps0|] eqn:E1; [|discriminate].
    injection H as <-. cbn [skipn]. apply IH. exact E1.
Qed.

Lemma readAll_defined h : forall rs,
  Forall (fun r => (r < List.length h)%nat) rs ->
  exists ps, ES.readAll h rs = Some ps.
Proof.
  induction rs as [|r rs IH]; intros Hf; [eexists; reflexivity|].
  inversion Hf as [|? ? Hr Hf']; subst.
  destruct (IH Hf') as (ps & E). rewrite readAll_cons, E.
  unfold ES.read. destruct (nth_error h r) as [p|] eqn:En.
  - eexists; reflexivity.
  - apply nth_error_None in En. lia.
Qed.

Lemma updateAt_none g : forall l i,
  (List.length l <= i)%nat -> updateAt i g l = None.
Proof.
  induction l as [|p l IH]; intros i H; [destruct i; reflexivity|].
  destruct i as [|i]; [cbn in H; lia|].
  rewrite updateAt_succ, IH by (cbn in H; lia). reflexivity.
Qed.

Lemma in_firstn_in (n : nat) (l : list nat) x : In x (firstn n l) -> In x l.
Proof.
  intros H. rewrite <- (firstn_skipn n l). apply in_or_app. left. exact H.
Qed.

Lemma in_skipn_in (n : nat) (l : list nat) x : In x (skipn n l) -> In x l.
Proof.
  intros H. rewrite <- (firstn_skipn n l). apply in_or_app. right. exact H.
Qed.

Lemma without_one_NoDup (i : nat) : forall l : list nat,
  NoDup l -> NoDup (firstn i l ++ skipn (S i) l).
Proof.
  induction i as [|i IH]; intros l H.
  - destruct l as [|a l]; [exact H|]. cbn. inversion H; assumption.
  - destruct l as [|a l]; [exact H|].
    inversion H as [|? ? Hn Hd]; subst. cbn [firstn skipn app].
    constructor; [|apply IH; exact Hd].
    intros Hin. apply Hn. apply in_app_or in Hin.
    destruct Hin as [Hin|Hin];
      [eapply (in_firstn_in i) | eapply (in_skipn_in (S i))]; eauto.
Qed.

Lemma without_one_Forall (P : nat -> Prop) (i : nat) (l : list nat) :
  Forall P l -> Forall P (firstn i l ++ skipn (S i) l).
Proof.
  intros H. apply Forall_app. split.
  - apply Forall_forall. intros x Hx.
    eapply Forall_forall; [exact H|]. eapply in_firstn_in; eauto.
  - apply Forall_forall. intros x Hx.
    eapply Forall_forall; [exact H|]. eapply in_skipn_in; eauto.
Qed.

Lemma formOf_inv st f :
  ES.formOf st = Some f ->
  ES.readAll (ES.heap st) (ES.pointRefs st) = Some (formPoints f)
  /\ f = mkForm (formPoints f) (ES.stTimeError st) (ES.stTitle st)
                (ES.stDescription st) (ES.stDuration st)
                (ES.stAspectRatio st).
Proof.
  unfold ES.formOf. intros H.
  destruct (ES.readAll (ES.heap st) (ES.pointRefs st)) as [ps|]; [|discriminate].
  injection H as <-. split; reflexivity.
Qed.

Lemma unchanged_refined st f b :
  ES.wellFormed st -> ES.formOf st = Some f ->
  ES.refined st f (Some st) (Some f) b.
Proof.
  intros Hwf Hf. unfold ES.refined. split; [exact Hwf|].
  split; [eauto|]. split; [reflexivity|]. split; [lia|reflexivity].
Qed.

Lemma commit_refined st f h' rs' u b :
  ES.formOf st = Some f ->
  ES.readAll h' rs' = Some u ->
  NoDup rs' ->
  Forall (fun r => (r < List.length h')%nat) rs' ->
  (List.length (ES.heap st) <= List.length h')%nat ->
  (b = true -> rs' = ES.pointRefs st) ->
  ES.refined st f (ES.commit st h' rs') (Editor.commit f u) b.
Proof.
  intros Hf Hr Hnd Hall Hlen Hb.
  destruct (formOf_inv st f Hf) as [_ Ef].
  unfold ES.commit, Editor.commit, ES.refined. rewrite Hr.
  destruct (validateTimes u) as [e|]; [|reflexivity].
  split; [split; assumption|]. split.
  - eexists. split; [reflexivity|].
    unfold ES.formOf. cbn [ES.heap ES.pointRefs ES.stTimeError ES.stTitle
                           ES.stDescription ES.stDuration ES.stAspectRatio].
    rewrite Hr. rewrite Ef. reflexivity.
  - cbn [ES.generatedConfig ES.heap ES.pointRefs]. auto.
Qed.

Lemma write_keeps_allocated g h r (rs : list nat) :
  Forall (fun r0 => (r0 < List.length h)%nat) rs ->
  Forall (fun r0 => (r0 < List.length (ES.write h r g))%nat) rs.
Proof. rewrite length_write. auto. Qed.

Lemma updateValue_refined st f i v :
  ES.wellFormed st -> ES.formOf st = Some f ->
  ES.refined st f (ES.updateValue st i v) (Editor.updateValue f i v) true.
Proof.
  intros [Hnd Hall] Hf. destruct (formOf_inv st f Hf) as [Hr _].
  unfold ES.updateValue, Editor.updateValue.
  destruct (nth_error (ES.pointRefs st) i) as [r|] eqn:Ei.
  - destruct (readAll_write_at (fun p => mkPoint v (time p)) _ r _ i _
                Hnd Ei Hr) as (Ew & u & Eu).
    rewrite Eu. rewrite Eu in Ew.
    apply commit_refined; auto.
    + apply write_keeps_allocated; exact Hall.
    + rewrite length_write. lia.
  - apply nth_error_None in Ei.
    rewrite updateAt_none
      by (rewrite (readAll_length _ _ _ Hr); exact Ei).
    reflexivity.
Qed.

Lemma updateAt_second g a b rest :
  updateAt 1 g (a :: b :: rest) = Some (a :: g b :: rest).
Proof. reflexivity. Qed.

Lemma updateTime_refined st f i t :
  ES.wellFormed st -> ES.formOf st = Some f ->
  ES.refined st f (ES.updateTime st i t) (Editor.updateTime f i t) true.
Proof.
  intros [Hnd Hall] Hf. destruct (formOf_inv st f Hf) as [Hr _].
  unfold ES.updateTime, Editor.updateTime.
  destruct (nth_error (ES.pointRefs st) i) as [r|] eqn:Ei.
  - destruct (readAll_write_at (fun p => mkPoint (value p) t) _ r _ i _
                Hnd Ei Hr) as (Ew & u & Eu).
    rewrite Eu. rewrite Eu in Ew. cbv zeta.
    pose proof (readAll_length _ _ _ Ew) as Hlen.
    assert (Hcommit : ES.refined st f
              (ES.commit st (ES.write (ES.heap st) r
                                      (fun p => mkPoint (value p) t))
                         (ES.pointRefs st))
              (Editor.commit f u) true).
    { apply commit_refined; auto.
      - apply write_keeps_allocated; exact Hall.
      - rewrite length_write. lia. }
    destruct i as [|i]; [|destruct u as [|a [|b rest]]; exact Hcommit].
    destruct (nth_error (ES.pointRefs st) 1) as [r1|] eqn:E1.
    + assert (H1 : (1 < List.length (ES.pointRefs st))%nat)
        by (apply nth_error_Some; rewrite E1; discriminate).
      destruct u as [|a [|b rest]].
      * exfalso. cbn in Hlen. lia.
      * exfalso. cbn in Hlen. lia.
      * destruct (addFiveMinutes t) as [t'|]; [|reflexivity].
        destruct (readAll_write_at (fun p => mkPoint (value p) t')
                    (ES.write (ES.heap st) r (fun p => mkPoint (value p) t))
                    r1 _ 1%nat _ Hnd E1 Ew) as (Ew2 & _).
        rewrite updateAt_second in Ew2.
        apply commit_refined; auto.
        -- apply write_keeps_allocated, write_keeps_allocated; exact Hall.
        -- rewrite !length_write. lia.
    + apply nth_error_None in E1.
      destruct u as [|a [|b rest]]; try exact Hcommit.
      exfalso. cbn in Hlen. lia.
  - apply nth_error_None in Ei.
    rewrite updateAt_none
      by (rewrite (readAll_length _ _ _ Hr); exact Ei).
    reflexivity.
Qed.

Lemma addPoint_refined st f :
  ES.wellFormed st -> ES.formOf st = Some f ->
  ES.refined st f (ES.addPoint st) (Editor.addPoint f) false.
Proof.
  intros [Hnd Hall] Hf. destruct (formOf_inv st f Hf) as [Hr Ef].
  unfold ES.addPoint, Editor.addPoint, lastOf.
  replace (timeError f) with (ES.stTimeError st) by (rewrite Ef; reflexivity).
  destruct (ES.stTimeError st) as [e|].
  { apply unchanged_refined; [split; assumption|exact Hf]. }
  rewrite (readAll_nth _ _ _ (List.length (formPoints f) - 1) Hr).
  rewrite (readAll_length _ _ _ Hr).
  destruct (nth_error (ES.pointRefs st) (List.length (ES.pointRefs st) - 1))
    as [rl|]; [|reflexivity].
  destruct (ES.read (ES.heap st) rl) as [l|]; [|reflexivity].
  destruct (addFiveMinutes (time l)) as [t'|]; [|reflexivity].
  unfold ES.alloc.
  apply commit_refined; auto.
  - rewrite readAll_app, readAll_grow by exact Hall. rewrite Hr.
    rewrite readAll_cons. unfold ES.read.
    rewrite nth_error_app2 by lia. rewrite Nat.sub_diag. reflexivity.
  - apply Permutation.Permutation_NoDup
      with (l := List.length (ES.heap st) :: ES.pointRefs st).
    + apply Permutation.Permutation_cons_append.
    + constructor; [|exact Hnd]. intros Hin.
      pose proof (proj1 (Forall_forall _ _) Hall _ Hin) as Hlt.
      cbn beta in Hlt. lia.
  - apply Forall_app. split.
    + eapply Forall_impl; [|exact Hall]. intros a Ha. cbn beta in *.
      rewrite length_app. lia.
    + constructor; [|constructor]. rewrite length_app. cbn. lia.
  - rewrite length_app. lia.
  - discriminate.
Qed.

Lemma deletePoint_refined st f i :
  ES.wellFormed st -> ES.formOf st = Some f ->
  ES.refined st f (ES.deletePoint st i) (Editor.deletePoint f i) false.
Proof.
  intros [Hnd Hall] Hf. destruct (formOf_inv st f Hf) as [Hr _].
  unfold ES.deletePoint, Editor.deletePoint, removeAt.
  destruct (i <? 2)%nat.
  { apply unchanged_refined; [split; assumption|exact Hf]. }
  apply commit_refined; auto.
  - rewrite readAll_app, (readAll_firstn _ _ _ _ Hr),
      (readAll_skipn _ _ _ _ Hr). reflexivity.
  - apply without_one_NoDup; exact Hnd.
  - apply without_one_Forall; exact Hall.
  - discriminate.
Qed.

Lemma moveValue_refined st f i dir :
  ES.wellFormed st -> ES.formOf st = Some f ->
  ES.refined st f (ES.moveValue st i dir) (Editor.moveValue f i dir) true.
Proof.
  intros [Hnd Hall] Hf. destruct (formOf_inv st f Hf) as [Hr Ef].
  unfold ES.moveValue, Editor.moveValue. cbv zeta.
  set (target := match dir, i with
                 | Up, O => None
                 | Up, S i0 => Some i0
                 | Down, i0 => Some (S i0)
                 end).
  destruct target as [newIndex|];
    [|apply unchanged_refined; [split; assumption|exact Hf]].
  rewrite (readAll_length _ _ _ Hr).
  destruct (List.length (ES.pointRefs st) <=? newIndex)%nat;
    [apply unchanged_refined; [split; assumption|exact Hf]|].
  rewrite (readAll_nth _ _ _ i Hr), (readAll_nth _ _ _ newIndex Hr).
  destruct (nth_error (ES.pointRefs st) i) as [ra|] eqn:Ea; [|reflexivity].
  destruct (nth_error (ES.pointRefs st) newIndex) as [rb|] eqn:Eb.
  2:{ destruct (ES.read (ES.heap st) ra); reflexivity. }
  destruct (ES.read (ES.heap st) ra) as [a|]; [|reflexivity].
  destruct (ES.read (ES.heap st) rb) as [b|]; [|reflexivity].
  destruct (readAll_write_at (fun p => mkPoint (value b) (time p)) _ ra _ i _
              Hnd Ea Hr) as (Ew1 & u1 & Eu1).
  rewrite Eu1. rewrite Eu1 in Ew1.
  destruct (readAll_write_at (fun p => mkPoint (value a) (time p))
              (ES.write (ES.heap st) ra (fun p => mkPoint (value b) (time p)))
              rb _ newIndex _ Hnd Eb Ew1) as (Ew2 & u2 & Eu2).
  rewrite Eu2. rewrite Eu2 in Ew2.
  unfold ES.refined.
  cbn [ES.heap ES.pointRefs ES.generatedConfig].
  split.
  { split; [exact Hnd|]. cbn [ES.heap ES.pointRefs].
    apply write_keeps_allocated, write_keeps_allocated; exact Hall. }
  split.
  { eexists. split; [reflexivity|]. unfold ES.formOf.
    cbn [ES.heap ES.pointRefs ES.stTimeError ES.stTitle ES.stDescription
         ES.stDuration ES.stAspectRatio].
    rewrite Ew2. rewrite Ef. reflexivity. }
  split; [reflexivity|]. split; [rewrite !length_write; lia|reflexivity].
Qed.

Lemma act_refined st f a :
  ES.wellFormed st -> ES.formOf st = Some f ->
  ES.refined st f (ES.act st a) (Editor.act f a) (ES.inPlace a).
Proof.
  intros Hwf Hf.
  destruct a as [i v|i t| |i|i dir|t|t|d|r]; cbn [ES.act Editor.act ES.inPlace].
  - apply updateValue_refined; assumption.
  - apply updateTime_refined; assumption.
  - apply addPoint_refined; assumption.
  - apply deletePoint_refined; assumption.
  - apply moveValue_refined; assumption.
  - destruct (formOf_inv st f Hf) as [Hr Ef]. unfold ES.refined.
    split; [exact Hwf|]. split; [|cbn; auto].
    eexists. split; [reflexivity|]. unfold ES.formOf. cbn. rewrite Hr.
    rewrite Ef. reflexivity.
  - destruct (formOf_inv st f Hf) as [Hr Ef]. unfold ES.refined.
    split; [exact Hwf|]. split; [|cbn; auto].
    eexists. split; [reflexivity|]. unfold ES.formOf. cbn. rewrite Hr.
    rewrite Ef. reflexivity.
  - destruct (formOf_inv st f Hf) as [Hr Ef]. unfold ES.refined.
    split; [exact Hwf|]. split; [|cbn; auto].
    eexists. split; [reflexivity|]. unfold ES.formOf. cbn. rewrite Hr.
    rewrite Ef. reflexivity.
  - destruct (formOf_inv st f Hf) as [Hr Ef]. unfold ES.refined.
    split; [exact Hwf|]. split; [|cbn; auto].
    eexists. split; [reflexivity|]. unfold ES.formOf. cbn. rewrite Hr.
    rewrite Ef. reflexivity.
Qed.

Lemma actAll_refined : forall actions st f,
  ES.wellFormed st -> ES.formOf st = Some f ->
  ES.refined st f (ES.actAll st actions) (Editor.actAll f actions)
             (forallb ES.inPlace actions).
Proof.
  induction actions as [|a actions IH]; intros st f Hwf Hf.
  - cbn. apply unchanged_refined; assumption.
  - cbn [ES.actAll Editor.actAll forallb].
    pose proof (act_refined st f a Hwf Hf) as Ha. unfold ES.refined in Ha.
    destruct (ES.act st a) as [st1|]; [|rewrite Ha; reflexivity].
    destruct Ha as (Hwf1 & (f1 & Ef1 & Hf1) & Hc1 & Hh1 & Hk1).
    rewrite Ef1. specialize (IH st1 f1 Hwf1 Hf1). unfold ES.refined in *.
    destruct (ES.actAll st1 actions) as [st2|]; [|exact IH].
    destruct IH as (Hwf2 & Hex & Hc2 & Hh2 & Hk2).
    split; [exact Hwf2|]. split; [exact Hex|].
    split; [congruence|]. split; [lia|].
    intros Hb. apply andb_prop in Hb. destruct Hb as [Hb1 Hb2].
    rewrite (Hk2 Hb2). apply Hk1. exact Hb1.
Qed.

Lemma initialState_is_initialForm :
  ES.wellFormed ES.initialState
  /\ ES.formOf ES.initialState = Some initialForm.
Proof.
  split; [|reflexivity]. split.
  - cbn. repeat constructor; cbn; intuition discriminate.
  - cbn. repeat constructor.
Qed.

(** The handlers write into point objects that several arrays share, and
    still act on what the form shows as if they replaced values: from the
    first state of the component on, every run of handlers on the objects
    goes with the same run on the form, fails when that one fails, and
    leaves an array of distinct allocated objects. *)
Theorem handlers_on_objects_act_on_the_form (actions : list Action) :
  match ES.actAll ES.initialState actions with
  | Some st' =>
      ES.wellFormed st'
      /\ exists f',
           Editor.actAll initialForm actions = Some f'
           /\ ES.formOf st' = Some f'
  | None => Editor.actAll initialForm actions = None
  end.
Proof.
  destruct initialState_is_initialForm as [Hwf Hf].
  pose proof (actAll_refined actions _ _ Hwf Hf) as H.
  unfold ES.refined in H.
  destruct (ES.actAll ES.initialState actions) as [st'|]; [|exact H].
  destruct H as (Hwf' & Hex & _). split; assumption.
Qed.

Lemma generate_refined st f props :
  ES.formOf st = Some f ->
  Editor.handleGenerate f = Some props ->
  exists cfg,
    ES.handleGenerate st
    = ES.mkState (ES.heap st) (ES.pointRefs st) (ES.stTimeError st)
                 (ES.stTitle st) (ES.stDescription st) (ES.stDuration st)
                 (ES.stAspectRatio st) (Some cfg)
    /\ ES.configPoints cfg = ES.pointRefs st
    /\ ES.propsOf (ES.heap st) cfg = Some props
    /\ ES.configAspectRatio cfg = aspectRatio props
    /\ ES.configDuration cfg = duration props
    /\ ES.configTitle cfg = title props
    /\ ES.configDescription cfg = description props.
Proof.
  intros Hf Hg. destruct (formOf_inv st f Hf) as [Hr Ef].
  unfold Editor.handleGenerate in Hg. unfold ES.handleGenerate.
  rewrite Ef in Hg. cbn [timeError parsedDuration formTitle formDescription
                         formAspectRatio formPoints] in Hg.
  destruct (ES.stTimeError st); [discriminate|].
  destruct (ES.stDuration st) as [d|]; [|discriminate].
  destruct (Req_dec_T d 0); [discriminate|].
  destruct (Rle_dec d 0); [discriminate|].
  injection Hg as <-. eexists. split; [reflexivity|].
  cbn [ES.configPoints ES.configAspectRatio ES.configDuration
       ES.configTitle ES.configDescription aspectRatio duration title
       description].
  split; [reflexivity|]. split; [|auto].
  unfold ES.propsOf. cbn [ES.configPoints]. rewrite Hr. reflexivity.
Qed.

(** The configuration that [handleGenerate] hands to the canvas shares
    its point objects with the form.  Right after the click the canvas
    reads what the form shows; after later edits of values and times,
    without a new click, the same configuration reads the edited points,
    also when the edit raised a time error that [handleGenerate] would
    have refused; the other properties stay as generated. *)
Theorem generated_config_follows_later_edits (st st2 : ES.State) (f : Form)
    (props : Props) (actions : list Action) :
  ES.wellFormed st ->
  ES.formOf st = Some f ->
  Editor.handleGenerate f = Some props ->
  forallb ES.inPlace actions = true ->
  ES.actAll (ES.handleGenerate st) actions = Some st2 ->
  exists cfg f2,
    ES.generatedConfig (ES.handleGenerate st) = Some cfg
    /\ ES.propsOf (ES.heap st) cfg = Some props
    /\ ES.generatedConfig st2 = Some cfg
    /\ Editor.actAll f actions = Some f2
    /\ ES.formOf st2 = Some f2
    /\ ES.propsOf (ES.heap st2) cfg
       = Some (mkProps (formPoints f2) (aspectRatio props) (duration props)
                       (title props) (description props) false None 24 None).
Proof.
  intros Hwf Hf Hg Hin Hrun.
  destruct (generate_refined st f props Hf Hg)
    as (cfg & Est & Ec & Hp & Ea & Ed & Et & Ede).
  assert (Hwf1 : ES.wellFormed (ES.handleGenerate st)) by (rewrite Est; exact Hwf).
  assert (Hf1 : ES.formOf (ES.handleGenerate st) = Some f).
  { rewrite Est. exact Hf. }
  pose proof (actAll_refined actions _ _ Hwf1 Hf1) as H.
  unfold ES.refined in H. rewrite Hrun in H.
  destruct H as (Hwf2 & (f2 & Ef2 & Hf2) & Hc2 & _ & Hk2).
  exists cfg, f2.
  assert (Ecfg : ES.generatedConfig (ES.handleGenerate st) = Some cfg)
    by (rewrite Est; reflexivity).
  split; [exact Ecfg|]. split; [exact Hp|].
  split; [congruence|]. split; [exact Ef2|]. split; [exact Hf2|].
  destruct (formOf_inv st2 f2 Hf2) as [Hr2 _].
  unfold ES.propsOf. rewrite Ec.
  replace (ES.pointRefs st) with (ES.pointRefs st2).
  - rewrite Hr2, Ea, Ed, Et, Ede. reflexivity.
  - rewrite (Hk2 Hin), Est. reflexivity.
Qed.

Lemma generated_config_follows_later_edits_witness :
  exists st2 cfg props2,
    ES.actAll (ES.handleGenerate ES.initialState) [SetTime 1 "08:00"]
    = Some st2
    /\ ES.stTimeError st2 = Some TimeOrder
    /\ ES.generatedConfig st2 = Some cfg
    /\ ES.propsOf (ES.heap st2) cfg = Some props2
    /\ map time (points props2) = ["09:00"; "08:00"].
Proof.
  destruct initialState_is_initialForm as [Hwf Hf].
  assert (Hg : exists props, Editor.handleGenerate initialForm = Some props).
  { unfold Editor.handleGenerate, initialForm.
    cbn [timeError parsedDuration].
    destruct (Req_dec_T 5 0); [lra|]. destruct (Rle_dec 5 0); [lra|].
    eexists. reflexivity. }
  destruct Hg as (props & Hg).
  assert (Hrun : exists st2,
             ES.actAll (ES.handleGenerate ES.initialState) [SetTime 1 "08:00"]
             = Some st2
             /\ ES.stTimeError st2 = Some TimeOrder).
  { unfold ES.handleGenerate, ES.initialState.
    cbn [ES.stTimeError ES.stDuration].
    destruct (Req_dec_T 5 0); [lra|]. destruct (Rle_dec 5 0); [lra|].
    eexists. split; reflexivity. }
  destruct Hrun as (st2 & Hrun & Herr).
  destruct (generated_config_follows_later_edits ES.initialState st2
              initialForm props [SetTime 1 "08:00"] Hwf Hf Hg eq_refl Hrun)
    as (cfg & f2 & _ & _ & Hc & Hf2 & _ & Hp).
  exists st2, cfg. eexists. split; [exact Hrun|]. split; [exact Herr|].
  split; [exact Hc|]. split; [exact Hp|].
  cbn [points]. cbn in Hf2. injection Hf2 as <-. reflexivity.
Defined.

Lemma readAll_after st l st' (rs : list nat) :
  ES.wellFormed st ->
  Forall (fun r => (r < List.length (ES.heap st))%nat) rs ->
  ES.actAll st l = Some st' ->
  Forall (fun r => (r < List.length (ES.heap st'))%nat) rs.
Proof.
  intros Hwf Hall Hrun.
  destruct (readAll_defined _ _ (proj2 Hwf)) as (ps & Hps).
  assert (Hf : ES.formOf st
               = Some (mkForm ps (ES.stTimeError st) (ES.stTitle st)
                              (ES.stDescription st) (ES.stDuration st)
                              (ES.stAspectRatio st))).
  { unfold ES.formOf. rewrite Hps. reflexivity. }
  pose proof (actAll_refined l _ _ Hwf Hf) as H.
  unfold ES.refined in H. rewrite Hrun in H.
  destruct H as (_ & _ & _ & Hlen & _).
  eapply Forall_impl; [|exact Hall]. intros r Hr. cbn beta in *. lia.
Qed.

(** Points added or deleted after the click do not reach the generated
    configuration: whatever the later edits are, the configuration stays
    the one of the click and the canvas still reads from it as many points
    as the form had then. *)
Theorem generated_config_keeps_its_points (st st2 : ES.State) (f : Form)
    (props : Props) (actions : list Action) :
  ES.wellFormed st ->
  ES.formOf st = Some f ->
  Editor.handleGenerate f = Some props ->
  ES.actAll (ES.handleGenerate st) actions = Some st2 ->
  exists cfg props2,
    ES.generatedConfig (ES.handleGenerate st) = Some cfg
    /\ ES.generatedConfig st2 = Some cfg
    /\ ES.propsOf (ES.heap st2) cfg = Some props2
    /\ List.length (points props2) = List.length (formPoints f).
Proof.
  intros Hwf Hf Hg Hrun.
  destruct (generate_refined st f props Hf Hg)
    as (cfg & Est & Ec & Hp & Ea & Ed & Et & Ede).
  assert (Hwf1 : ES.wellFormed (ES.handleGenerate st)) by (rewrite Est; exact Hwf).
  assert (Hf1 : ES.formOf (ES.handleGenerate st) = Some f).
  { rewrite Est. exact Hf. }
  pose proof (actAll_refined actions _ _ Hwf1 Hf1) as H.
  unfold ES.refined in H. rewrite Hrun in H.
  destruct H as (_ & _ & Hc2 & _ & _).
  assert (Ecfg : ES.generatedConfig (ES.handleGenerate st) = Some cfg)
    by (rewrite Est; reflexivity).
  assert (Hall : Forall (fun r => (r < List.length (ES.heap st2))%nat)
                        (ES.configPoints cfg)).
  { rewrite Ec. apply (readAll_after (ES.handleGenerate st) actions st2);
      [exact Hwf1| |exact Hrun].
    rewrite Est. exact (proj2 Hwf). }
  destruct (readAll_defined _ _ Hall) as (ps2 & Hps2).
  exists cfg. eexists. split; [exact Ecfg|]. split; [congruence|].
  unfold ES.propsOf. rewrite Hps2. split; [reflexivity|].
  cbn [points]. rewrite (readAll_length _ _ _ Hps2), Ec.
  destruct (formOf_inv st f Hf) as [Hr _].
  rewrite (readAll_length _ _ _ Hr). reflexivity.
Qed.

Lemma generated_config_keeps_its_points_witness :
  exists st2 cfg props2 f2,
    ES.actAll (ES.handleGenerate ES.initialState) [AddPoint; AddPoint]
    = Some st2
    /\ ES.formOf st2 = Some f2
    /\ List.length (formPoints f2) = 4%nat
    /\ ES.generatedConfig st2 = Some cfg
    /\ ES.propsOf (ES.heap st2) cfg = Some props2
    /\ List.length (points props2) = 2%nat.
Proof.
  destruct initialState_is_initialForm as [Hwf Hf].
  assert (Hg : exists props, Editor.handleGenerate initialForm = Some props).
  { unfold Editor.handleGenerate, initialForm.
    cbn [timeError parsedDuration].
    destruct (Req_dec_T 5 0); [lra|]. destruct (Rle_dec 5 0); [lra|].
    eexists. reflexivity. }
  destruct Hg as (props & Hg).
  assert (Hrun : exists st2 f2,
             ES.actAll (ES.handleGenerate ES.initialState) [AddPoint; AddPoint]
             = Some st2
             /\ ES.formOf st2 = Some f2
             /\ List.length (formPoints f2) = 4%nat).
  { unfold ES.handleGenerate, ES.initialState.
    cbn [ES.stTimeError ES.stDuration].
    destruct (Req_dec_T 5 0); [lra|]. destruct (Rle_dec 5 0); [lra|].
    eexists. eexists. split; [reflexivity|]. split; reflexivity. }
  destruct Hrun as (st2 & f2 & Hrun & Hf2 & Hlen).
  destruct (generated_config_keeps_its_points ES.initialState st2
              initialForm props [AddPoint; AddPoint] Hwf Hf Hg Hrun)
    as (cfg & props2 & _ & Hc & Hp & Hl).
  exists st2, cfg, props2, f2. auto 10.
Defined.

(* ----------------------------------------------------------------- *)
(** ** From the dial to the label *)

Lemma toString_small n : (0 <= n)%Z -> toString n = Js.ofN (Z.to_N n).
Proof. intros H. destruct n; [reflexivity|reflexivity|lia]. Qed.

Lemma dialog_rows_count : forall gs rows rows',
  (rows = [] \/ (2 <= List.length rows)%nat) ->
  ID.handleAll rows gs = Some rows' ->
  rows' = [] \/ (2 <= List.length rows')%nat.
Proof.
  induction gs as [|g gs IH]; intros rows rows' Hinv H.
  - cbn in H. injection H as <-. exact Hinv.
  - cbn [ID.handleAll] in H.
    destruct (ID.handle rows g) as [rows1|] eqn:E; [|discriminate].
    apply (IH rows1 rows'); [|exact H].
    destruct g as [mapped|index field text|]; cbn [ID.handle] in E.
    + injection E as <-. unfold ID.processRows.
      destruct (Nat.ltb_spec (List.length mapped) 2); [exact Hinv|right; lia].
    + assert (Hlen : List.length rows1 = List.length rows).
      { clear - E. revert index rows1 E.
        induction rows as [|r rows IHr]; intros index rows1 E;
          [destruct index; discriminate|].
        destruct index as [|index]; cbn [ID.updateCell] in E.
        - injection E as <-. reflexivity.
        - destruct (ID.updateCell rows index field text) as [r'|] eqn:E';
            [|discriminate].
          injection E as <-. cbn. rewrite (IHr _ _ E'). reflexivity. }
      destruct Hinv as [->|Hinv]; [destruct index; discriminate|].
      right. lia.
    + injection E as <-. left. reflexivity.
Qed.

(* ----------------------------------------------------------------- *)
(** ** Presets *)

Lemma NoDup_snoc {A : Type} (l : list A) (a : A) :
  NoDup l -> ~ In a l -> NoDup (l ++ [a]).
Proof.
  intros Hl Ha.
  apply Permutation_NoDup with (l := a :: l).
  - apply Permutation_cons_append.
  - constructor; assumption.
Qed.

Lemma NoDup_map_filter {A B : Type} (g : A -> B) (keep : A -> bool) :
  forall l, NoDup (map g l) -> NoDup (map g (filter keep l)).
Proof.
  induction l as [|a l IH]; intros H; [constructor|].
  cbn [map] in H. inversion H as [|? ? Hn Hd]; subst.
  cbn [filter]. destruct (keep a); [|apply IH; exact Hd].
  cbn [map]. constructor; [|apply IH; exact Hd].
  intros Hin. apply Hn. apply in_map_iff in Hin.
  destruct Hin as (b & Eb & Hb). apply filter_In in Hb.
  apply in_map_iff. exists b. tauto.
Qed.

Lemma nameExists_false ps n :
  PS.nameExists ps n = false ->
  ~ In (FileName.toLowerCase n)
       (map (fun p => FileName.toLowerCase (PS.name p)) ps).
Proof.
  unfold PS.nameExists. intros H Hin. apply in_map_iff in Hin.
  destruct Hin as (p & Ep & Hp).
  assert (Hex : existsb (fun p0 => PS.sameName (PS.name p0) n) ps = true).
  { apply existsb_exists. exists p. split; [exact Hp|].
    unfold PS.sameName. apply String.eqb_eq. exact Ep. }
  congruence.
Qed.

Lemma renamed_presets_distinct active n d : forall ps,
  NoDup (map (fun p => FileName.toLowerCase (PS.name p)) ps) ->
  NoDup (map PS.presetId ps) ->
  existsb (fun p => PS.sameName (PS.name p) n
                    && negb (String.eqb (PS.presetId p) active)) ps = false ->
  NoDup (map (fun p => FileName.toLowerCase (PS.name p))
             (map (fun p => if String.eqb (PS.presetId p) active
                            then PS.mkPreset (PS.presetId p) n d
                            else p) ps)).
Proof.
  set (f := fun p => if String.eqb (PS.presetId p) active
                     then PS.mkPreset (PS.presetId p) n d else p).
  induction ps as [|p ps IH]; intros Hn Hi Hex; [constructor|].
  cbn [map] in *. inversion Hn as [|? ? Hn1 Hn2]; subst.
  inversion Hi as [|? ? Hi1 Hi2]; subst.
  cbn [existsb] in Hex. apply orb_false_elim in Hex. destruct Hex as [Hp Hex].
  assert (Hothers : forall q, In q ps ->
             PS.presetId q <> active ->
             FileName.toLowerCase (PS.name q) <> FileName.toLowerCase n).
  { intros q Hq Hid Heq.
    assert (Hc : existsb (fun p0 => PS.sameName (PS.name p0) n
                     && negb (String.eqb (PS.presetId p0) active)) ps = true).
    { apply existsb_exists. exists q. split; [exact Hq|].
      apply andb_true_intro. split.
      - unfold PS.sameName. apply String.eqb_eq. exact Heq.
      - apply negb_true_iff. apply String.eqb_neq. exact Hid. }
    congruence. }
  constructor; [|apply IH; assumption].
  intros Hin. apply in_map_iff in Hin. destruct Hin as (q' & Eq' & Hq').
  apply in_map_iff in Hq'. destruct Hq' as (q & <- & Hq).
  unfold f in Eq' at 1 2.
  destruct (String.eqb_spec (PS.presetId p) active) as [Ep|Ep];
    destruct (String.eqb_spec (PS.presetId q) active) as [Eq|Eq];
    cbn [PS.name] in Eq'.
  - apply Hi1. apply in_map_iff. exists q. split; [congruence|exact Hq].
  - apply (Hothers q Hq Eq). exact Eq'.
  - apply andb_false_elim in Hp. destruct Hp as [Hp|Hp].
    + unfold PS.sameName in Hp. apply String.eqb_neq in Hp. congruence.
    + apply negb_false_iff in Hp.
      first [discriminate Hp | apply String.eqb_eq in Hp; congruence].
  - apply Hn1. apply in_map_iff. exists q. split; [exact Eq'|exact Hq].
Qed.

Lemma step_keeps_presets_distinct ids s c s' :
  PS.distinctPresets (PS.presets s) ->
  incl (map PS.presetId (PS.presets s)) ids ->
  PS.freshSaves ids [c] ->
  PS.step s c = Some s' ->
  PS.distinctPresets (PS.presets s')
  /\ incl (map PS.presetId (PS.presets s'))
          (match c with PS.SaveAsNew now => now :: ids | _ => ids end).
Proof.
  intros [Hn Hi] Hincl Hfresh H.
  destruct c as [text| |now| |index|id|a]; cbn [PS.step] in H.
  - injection H as <-. cbn. split; [split|]; assumption.
  - injection H as <-. cbn. split; [split|]; assumption.
  - unfold PS.handleSaveAsNew in H.
    assert (Hweak : incl (map PS.presetId (PS.presets s)) (now :: ids))
      by (apply incl_tl; exact Hincl).
    destruct (PS.blank (PS.presetName s));
      [injection H as <-; cbn; split; [split|]; assumption|].
    destruct (PS.nameExists (PS.presets s) (PS.presetName s)) eqn:Ex;
      [injection H as <-; cbn; split; [split|]; assumption|].
    cbv zeta in H.
    destruct (PS.stringify _ _) as [text|]; [|discriminate].
    injection H as <-. unfold PS.distinctPresets. cbn [PS.presets].
    rewrite !map_app. cbn [map PS.name PS.presetId].
    split; [split|].
    + apply NoDup_snoc; [exact Hn|]. apply nameExists_false. exact Ex.
    + apply NoDup_snoc; [exact Hi|]. intros Hin.
      destruct Hfresh as [Hf _]. apply Hf. apply Hincl. exact Hin.
    + apply incl_app; [exact Hweak|].
      intros x [<-|[]]. left. reflexivity.
  - unfold PS.handleUpdatePreset in H.
    destruct (PS.activePresetId s) as [[|c0 active0]|];
      try (injection H as <-; split; [split|]; assumption).
    destruct (PS.blank (PS.presetName s));
      [injection H as <-; cbn; split; [split|]; assumption|].
    destruct (existsb _ (PS.presets s)) eqn:Ex;
      [injection H as <-; cbn; split; [split|]; assumption|].
    cbv zeta in H.
    destruct (PS.stringify _ _) as [text|]; [|discriminate].
    injection H as <-. cbn [PS.presets].
    assert (Eids : map PS.presetId
                     (map (fun p => if String.eqb (PS.presetId p)
                                                   (String c0 active0)
                                    then PS.mkPreset (PS.presetId p)
                                           (PS.presetName s)
                                           (PS.dataOf (PS.editor s))
                                    else p) (PS.presets s))
                   = map PS.presetId (PS.presets s)).
    { rewrite map_map. apply map_ext. intros p.
      destruct (String.eqb _ _); reflexivity. }
    split; [split|].
    + apply renamed_presets_distinct; assumption.
    + rewrite Eids. exact Hi.
    + rewrite Eids. exact Hincl.
  - destruct (nth_error (PS.presets s) index); [|discriminate].
    injection H as <-. cbn. split; [split|]; assumption.
  - unfold PS.deletePreset in H. cbv zeta in H.
    destruct (PS.stringify _ _) as [text|]; [|discriminate].
    assert (G : PS.distinctPresets
                  (filter (fun p => negb (String.eqb (PS.presetId p) id))
                          (PS.presets s))
                /\ incl (map PS.presetId
                           (filter (fun p => negb (String.eqb (PS.presetId p) id))
                                   (PS.presets s))) ids).
    { split; [split; apply NoDup_map_filter; assumption|].
      intros x Hx. apply Hincl. apply in_map_iff in Hx.
      destruct Hx as (p & <- & Hp). apply filter_In in Hp.
      apply in_map. tauto. }
    destruct (PS.activePresetId s) as [active|];
      [destruct (String.eqb id active)|]; injection H as <-; exact G.
  - unfold PS.edit in H. destruct (ES.act _ _); [|discriminate].
    injection H as <-. cbn. split; [split|]; assumption.
Qed.

(** The presets of a session keep names that differ beyond their case
    and ids of their own, whatever is typed, saved, updated, loaded,
    deleted and edited, as long as every save happens at a clock reading
    that no earlier save had. *)
Theorem preset_names_stay_distinct (cs : list PS.Command)
    (ids : list string) (s s' : PS.Session) :
  PS.distinctPresets (PS.presets s) ->
  incl (map PS.presetId (PS.presets s)) ids ->
  PS.freshSaves ids cs ->
  PS.run s cs = Some s' ->
  PS.distinctPresets (PS.presets s').
Proof.
  revert ids s. induction cs as [|c cs IH]; intros ids s Hd Hincl Hfresh H.
  - cbn in H. injection H as <-. exact Hd.
  - cbn [PS.run] in H. destruct (PS.step s c) as [s1|] eqn:E; [|discriminate].
    assert (Hf1 : PS.freshSaves ids [c]).
    { destruct c; cbn in *; tauto. }
    destruct (step_keeps_presets_distinct ids s c s1 Hd Hincl Hf1 E)
      as [Hd1 Hi1].
    apply (IH (match c with PS.SaveAsNew now => now :: ids | _ => ids end) s1);
      try assumption.
    destruct c; cbn in Hfresh |- *; tauto.
Qed.

Lemma preset_names_stay_distinct_witness :
  exists s',
    PS.run PS.initialSession
           [PS.NameTyped "Morning"; PS.SaveAsNew "1700000000000";
            PS.NameTyped "MORNING"; PS.SaveAsNew "1700000000001"] = Some s'
    /\ map PS.name (PS.presets s') = ["Morning"]
    /\ PS.nameError s' = Some PS.NameExists
    /\ PS.distinctPresets (PS.presets s').
Proof.
  assert (H : exists s',
             PS.run PS.initialSession
               [PS.NameTyped "Morning"; PS.SaveAsNew "1700000000000";
                PS.NameTyped "MORNING"; PS.SaveAsNew "1700000000001"]
             = Some s'
             /\ map PS.name (PS.presets s') = ["Morning"]
             /\ PS.nameError s' = Some PS.NameExists).
  { eexists. split; [reflexivity|]. split; reflexivity. }
  destruct H as (s' & Hrun & Hn & He).
  exists s'. split; [exact Hrun|]. split; [exact Hn|]. split; [exact He|].
  apply (preset_names_stay_distinct
           [PS.NameTyped "Morning"; PS.SaveAsNew "1700000000000";
            PS.NameTyped "MORNING"; PS.SaveAsNew "1700000000001"]
           [] PS.initialSession s').
  - split; constructor.
  - intros x [].
  - cbn. repeat split; intros H; cbn in H; intuition discriminate.
  - exact Hrun.
Defined.

Lemma stringify_last h p : forall ps text,
  PS.stringify h (ps ++ [p]) = Some text ->
  exists sp, PS.stringifyOne h p = Some sp /\ In sp text.
Proof.
  induction ps as [|q ps IH]; intros text H.
  - cbn in H. destruct (PS.stringifyOne h p) as [sp|]; [|discriminate].
    injection H as <-. exists sp. split; [reflexivity|left; reflexivity].
  - cbn [app PS.stringify] in H.
    destruct (PS.stringifyOne h q) as [sq|]; [|discriminate].
    destruct (PS.stringify h (ps ++ [p])) as [t|] eqn:E; [|discriminate].
    injection H as <-. destruct (IH t eq_refl) as (sp & Es & Hin).
    exists sp. split; [exact Es|right; exact Hin].
Qed.

Lemma editAll_is_actAll : forall l s s',
  PS.editAll s l = Some s' ->
  ES.actAll (PS.editor s) l = Some (PS.editor s')
  /\ PS.presets s' = PS.presets s
  /\ PS.storage s' = PS.storage s.
Proof.
  induction l as [|a l IH]; intros s s' H.
  - cbn in H. injection H as <-. auto.
  - cbn [PS.editAll] in H. unfold PS.edit in H. cbn [ES.actAll].
    destruct (ES.act (PS.editor s) a) as [st|]; [|discriminate].
    destruct (IH _ _ H) as (Ha & Hp & Hs). cbn in Ha, Hp, Hs. auto.
Qed.

(** A saved preset keeps the form's point objects, not their values.
    After a save, edits of values and times in the form also change what
    the preset holds in memory: loading it brings back the edited points,
    with the time error of the moment, while the text written to
    [localStorage] at the save still has the points as they were saved. *)
Theorem saved_preset_follows_later_edits (s s1 s2 : PS.Session)
    (now : string) (f : Form) (actions : list Action) :
  ES.wellFormed (PS.editor s) ->
  ES.formOf (PS.editor s) = Some f ->
  PS.handleSaveAsNew now s = Some s1 ->
  PS.nameError s1 = None ->
  forallb ES.inPlace actions = true ->
  PS.editAll s1 actions = Some s2 ->
  exists p sp f2,
    PS.presets s2 = PS.presets s ++ [p]
    /\ PS.presetId p = now
    /\ In sp (PS.storage s2)
    /\ PS.storedId sp = now
    /\ PS.storedPoints sp = formPoints f
    /\ Editor.actAll f actions = Some f2
    /\ ES.formOf (PS.editor s2) = Some f2
    /\ ES.formOf (PS.editor (PS.loadPreset s2 p))
       = Some (mkForm (formPoints f2) (timeError f2) (formTitle f)
                      (formDescription f) (parsedDuration f)
                      (formAspectRatio f)).
Proof.
  intros Hwf Hf Hsave Hok Hin Hedit.
  destruct (formOf_inv _ _ Hf) as [Hr Ef].
  unfold PS.handleSaveAsNew in Hsave.
  destruct (PS.blank (PS.presetName s));
    [injection Hsave as <-; discriminate Hok|].
  destruct (PS.nameExists (PS.presets s) (PS.presetName s));
    [injection Hsave as <-; discriminate Hok|].
  cbv zeta in Hsave.
  destruct (PS.stringify _ _) as [text|] eqn:Etext; [|discriminate].
  destruct (stringify_last _ _ _ _ Etext) as (sp & Esp & Hsp).
  unfold PS.stringifyOne in Esp. cbn [PS.data PS.dataOf PS.dataPoints] in Esp.
  rewrite Hr in Esp. injection Esp as Esp.
  injection Hsave as <-.
  destruct (editAll_is_actAll _ _ _ Hedit) as (Hact & Hp & Hs).
  cbn [PS.editor PS.presets PS.storage] in Hact, Hp, Hs.
  pose proof (actAll_refined actions _ _ Hwf Hf) as Href.
  unfold ES.refined in Href. rewrite Hact in Href.
  destruct Href as (Hwf2 & (f2 & Ef2 & Hf2) & _ & _ & Hk).
  specialize (Hk Hin).
  destruct (formOf_inv _ _ Hf2) as [Hr2 Ef2'].
  eexists. exists sp, f2.
  split; [exact Hp|]. split; [reflexivity|].
  split; [rewrite Hs; exact Hsp|].
  split; [rewrite <- Esp; reflexivity|].
  split; [rewrite <- Esp; reflexivity|].
  split; [exact Ef2|]. split; [exact Hf2|].
  unfold PS.loadPreset, ES.formOf.
  cbn [PS.editor ES.heap ES.pointRefs ES.stTimeError ES.stTitle
       ES.stDescription ES.stDuration ES.stAspectRatio PS.data PS.dataOf
       PS.dataPoints PS.dataTitle PS.dataDescription PS.dataDuration
       PS.dataAspectRatio].
  rewrite <- Hk, Hr2. rewrite Ef, Ef2'. reflexivity.
Qed.

Lemma saved_preset_follows_later_edits_witness :
  exists s2 p sp f3,
    PS.run PS.initialSession
           [PS.NameTyped "Flat"; PS.SaveAsNew "1700000000000";
            PS.Edit (SetValue 1 40)] = Some s2
    /\ nth_error (PS.presets s2) 0 = Some p
    /\ nth_error (PS.storage s2) 0 = Some sp
    /\ map value (PS.storedPoints sp) = [10; 10]
    /\ ES.formOf (PS.editor (PS.loadPreset s2 p)) = Some f3
    /\ map value (formPoints f3) = [10; 40].
Proof.
  set (s := PS.mkSession ES.initialState [] "Flat" None None false []).
  assert (Hsave : exists s1,
             PS.handleSaveAsNew "1700000000000" s = Some s1
             /\ PS.nameError s1 = None).
  { eexists. split; reflexivity. }
  destruct Hsave as (s1 & Hsave & Hok).
  assert (Hedit : exists s2,
             PS.editAll s1 [SetValue 1 40] = Some s2
             /\ PS.run PS.initialSession
                  [PS.NameTyped "Flat"; PS.SaveAsNew "1700000000000";
                   PS.Edit (SetValue 1 40)] = Some s2).
  { cbn in Hsave. injection Hsave as <-. eexists. split; reflexivity. }
  destruct Hedit as (s2 & Hedit & Hrun).
  destruct initialState_is_initialForm as [Hwf Hf].
  destruct (saved_preset_follows_later_edits s s1 s2 "1700000000000"
              initialForm [SetValue 1 40] Hwf Hf Hsave Hok eq_refl Hedit)
    as (p & sp & f2 & Hp & Hid & Hsp & Hsid & Hpts & Hact & Hf2 & Hload).
  exists s2, p, sp. eexists.
  split; [exact Hrun|]. split; [rewrite Hp; reflexivity|].
  assert (Est : PS.storage s2 = [sp]).
  { cbn in Hsave. injection Hsave as <-. cbn in Hedit.
    injection Hedit as <-. cbn [PS.storage] in Hsp |- *.
    destruct Hsp as [<-|[]]. reflexivity. }
  split; [rewrite Est; reflexivity|].
  split; [rewrite Hpts; reflexivity|].
  split; [exact Hload|].
  cbn [formPoints]. cbn in Hact. injection Hact as <-. reflexivity.
Defined.

(** The chart rectangle that the samples on doubles use is the one the
    layout gives the 1:1 canvas at the label size 24, without title,
    description and watermark. *)
Lemma square_chart_layout :
  let c := chartOf tripProps 1440 1440 in
  chartLeft c = 248 /\ chartTop c = 240
  /\ graphWidth c = 869 /\ graphHeight c = 776.
Proof.
  unfold chartOf, tripProps. cbn. repeat split; lra.
Qed.

(* ================================================================= *)
(** * The program on doubles *)

Section Doubles.

Import PrimFloat.
Import FloatOps FloatAxioms SpecFloat.
Local Open Scope float_scope.

(** ** Facts about doubles *)

Lemma Prim2SF_inj (a b : float) : Prim2SF a = Prim2SF b -> a = b.
Proof.
  intros H. rewrite <- (SF2Prim_Prim2SF a), <- (SF2Prim_Prim2SF b), H.
  reflexivity.
Qed.

Lemma nan_plus (a : float) : nan + a = nan.
Proof. apply Prim2SF_inj. rewrite add_spec. reflexivity. Qed.

Lemma nan_leb (a : float) : (nan <=? a) = false.
Proof. rewrite leb_spec. reflexivity. Qed.

Lemma leb_nan (a : float) : (a <=? nan) = false.
Proof. rewrite leb_spec. destruct (Prim2SF a); reflexivity. Qed.












(** ** Degenerate ranges (C3) *)





(** ** The marker at the end of the path (C1) *)


(** ** The label pass (C2) *)








(** ** The collision loop on [NaN] (C10) *)

(** A candidate whose top and bottom edges are [NaN] among placed boxes
    whose bottom edges are [NaN] is left as it is by a scan, and the scan
    sets [moved] as soon as the candidate lies across a placed box. *)
Lemma scan_on_nan boxHeight box : forall placedLabels moved,
  Ieee.top box = nan -> Ieee.bottom box = nan ->
  (forall e, In e placedLabels -> Ieee.bottom e = nan) ->
  fold_left (Ieee.relocate boxHeight) placedLabels (box, moved)
  = (box,
     moved || existsb (fun e => negb ((Ieee.right box <=? Ieee.left e)
                                      || (Ieee.right e <=? Ieee.left box)))
                      placedLabels).
Proof.
  intros placedLabels moved Ht Hb.
  revert moved. induction placedLabels as [|e rest IH]; intros moved Hall.
  - cbn. rewrite orb_false_r. reflexivity.
  - cbn [fold_left existsb]. unfold Ieee.relocate at 2. cbn [fst].
    unfold Ieee.overlaps. rewrite Hb, Ht, nan_leb, leb_nan, !orb_false_r.
    destruct ((Ieee.right box <=? Ieee.left e)
              || (Ieee.right e <=? Ieee.left box)) eqn:E; cbn [negb].
    + rewrite IH by (intros q Hq; apply Hall; right; exact Hq).
      reflexivity.
    + rewrite (Hall e (or_introl eq_refl)).
      unfold Ieee.spacing. rewrite !nan_plus.
      assert (Ebox : Ieee.mkBox (Ieee.left box) (Ieee.right box) nan nan = box).
      { destruct box as [l r t b]. cbn in Ht, Hb. subst. reflexivity. }
      rewrite Ebox.
      rewrite IH by (intros q Hq; apply Hall; right; exact Hq).
      rewrite orb_true_r. reflexivity.
Qed.

(** Such a candidate that lies across a placed box keeps the loop running
    for ever. *)
Lemma nan_box_never_settles boxHeight box placedLabels :
  Ieee.top box = nan -> Ieee.bottom box = nan ->
  (forall e, In e placedLabels -> Ieee.bottom e = nan) ->
  existsb (fun e => negb ((Ieee.right box <=? Ieee.left e)
                          || (Ieee.right e <=? Ieee.left box)))
          placedLabels = true ->
  forall turns, Ieee.settle turns boxHeight box placedLabels = None.
Proof.
  intros Ht Hb Hall Hacross turns.
  induction turns as [|turns IH]; [reflexivity|].
  cbn [Ieee.settle]. unfold Ieee.scan.
  rewrite (scan_on_nan boxHeight box placedLabels false Ht Hb Hall), Hacross.
  cbn [orb]. exact IH.
Qed.

(** Where the claim of the specification fails in the program: the value
    field of the form accepts a lone dot, for which [Number] gives [NaN].
    With such a value every y-coordinate is [NaN]; the label of the second
    point, a minute after the first, lies across the label of the first,
    and its collision loop never ends, however many turns it is given. *)
Lemma collision_loop_hangs_on_nan :
  map Ieee.y
      (Ieee.calculatedPoints Ieee.digitsNumber Ieee.squareChart
                             Ieee.dotPoints)
  = [nan; nan; nan]
  /\ (forall turns,
        exists box0 box1,
          Ieee.placeLabel 24 (fun _ => 120) (S turns) 3 0
            (Ieee.mkCalc 248 nan nan) [] = Some box0
          /\ box1 = Ieee.candidate 24 (fun _ => 120) 3 1
                      (Ieee.mkCalc 0x1.f474d74d74d75p+7 nan 10)
          /\ Ieee.overlaps box1 box0 = true
          /\ Ieee.settle turns (Ieee.boxHeightOf 24 3 1) box1 [box0] = None)
  /\ forall turns,
       Ieee.placeLabels 24 (fun _ => 120) turns
         (Ieee.calculatedPoints Ieee.digitsNumber Ieee.squareChart
                                Ieee.dotPoints)
       = None.
Proof.
  assert (Hcps : Ieee.calculatedPoints Ieee.digitsNumber Ieee.squareChart
                                       Ieee.dotPoints
                 = [Ieee.mkCalc 248 nan nan;
                    Ieee.mkCalc 0x1.f474d74d74d75p+7 nan 10;
                    Ieee.mkCalc 1117 nan 5])
    by (vm_compute; reflexivity).
  set (box0 := Ieee.candidate 24 (fun _ => 120) 3 0 (Ieee.mkCalc 248 nan nan)).
  set (box1 := Ieee.candidate 24 (fun _ => 120) 3 1
                 (Ieee.mkCalc 0x1.f474d74d74d75p+7 nan 10)).
  assert (Hfirst : forall turns,
            Ieee.placeLabel 24 (fun _ => 120) (S turns) 3 0
              (Ieee.mkCalc 248 nan nan) [] = Some box0)
    by (intros turns; reflexivity).
  assert (Hhang : forall turns,
            Ieee.settle turns (Ieee.boxHeightOf 24 3 1) box1 [box0] = None).
  { apply nan_box_never_settles.
    - vm_compute; reflexivity.
    - vm_compute; reflexivity.
    - intros e [<-|[]]. vm_compute; reflexivity.
    - vm_compute; reflexivity. }
  split; [rewrite Hcps; reflexivity|]. split.
  - intros turns. exists box0, box1. split; [apply Hfirst|].
    split; [reflexivity|]. split; [vm_compute; reflexivity|apply Hhang].
  - intros turns. rewrite Hcps. unfold Ieee.placeLabels.
    destruct turns as [|turns]; [reflexivity|].
    cbn [List.length Ieee.labelPass]. rewrite Hfirst. cbn [app].
    unfold Ieee.placeLabel. fold box1. rewrite Hhang. reflexivity.
Qed.

(** ** The order of the times, as doubles compare (the form and the import dialog) *)

Lemma SFcompare_antisym a b c :
  SFcompare a b = Some c -> SFcompare b a = Some (CompOpp c).
Proof.
  destruct a as [sa|sa| |sa ma ea], b as [sb|sb| |sb mb eb]; cbn;
    try discriminate; intros H; injection H as <-;
    try (destruct sa; try destruct sb; reflexivity);
    try (destruct sb; reflexivity).
  pose proof (Pos.compare_cont_antisym ma mb Eq) as Hm. cbn [CompOpp] in Hm.
  destruct sa, sb; cbn; try reflexivity;
    rewrite (Z.compare_antisym ea eb);
    destruct (ea ?= eb)%Z; cbn; try reflexivity;
    change (PosDef.Pos.compare_cont Eq mb ma) with (Pos.compare_cont Eq mb ma);
    change (PosDef.Pos.compare_cont Eq ma mb) with (Pos.compare_cont Eq ma mb);
    rewrite <- Hm; reflexivity.
Qed.

Lemma number_is_compared a b :
  is_nan a = false -> is_nan b = false ->
  exists c, SFcompare (Prim2SF a) (Prim2SF b) = Some c.
Proof.
  unfold is_nan. rewrite !eqb_spec. unfold SFeqb.
  destruct (Prim2SF a) as [sa|sa| |sa ma ea], (Prim2SF b) as [sb|sb| |sb mb eb];
    cbn; try discriminate; intros _ _; eexists; reflexivity.
Qed.

(** Among numbers, not at or before is strictly after. *)
Lemma leb_false_numbers a b :
  is_nan a = false -> is_nan b = false ->
  ((b <=? a) = false <-> (a <? b) = true).
Proof.
  intros Ha Hb. rewrite leb_spec, ltb_spec. unfold SFleb, SFltb.
  destruct (number_is_compared b a Hb Ha) as (c & Hc).
  rewrite Hc, (SFcompare_antisym _ _ _ Hc).
  destruct c; cbn; split; congruence.
Qed.

(** What [isNaN] tells. *)
Lemma is_nan_spec a : is_nan a = true -> Prim2SF a = S754_nan.
Proof.
  unfold is_nan. rewrite eqb_spec. unfold SFeqb.
  destruct (Prim2SF a) as [s|s| |s m e]; cbn; try reflexivity.
  - discriminate.
  - destruct s; discriminate.
  - change (PosDef.Pos.compare_cont Eq m m) with (Pos.compare_cont Eq m m).
    rewrite Z.compare_refl, Pos.compare_cont_refl. destruct s; discriminate.
Qed.

(** A time that does not read as a number is neither at or before another
    nor has another at or before it. *)
Lemma leb_with_nan a b :
  is_nan a = true \/ is_nan b = true -> (b <=? a) = false.
Proof.
  rewrite leb_spec. unfold SFleb.
  intros [H|H]; apply is_nan_spec in H; rewrite H.
  - destruct (Prim2SF b); reflexivity.
  - reflexivity.
Qed.

Lemma validateFrom_accepts numberOf : forall ps prev,
  Ieee.validateFrom numberOf prev ps = None <->
  (forall p, In p ps -> Ieee.time p <> EmptyString)
  /\ (forall tp a, prev = Some tp -> nth_error ps 0 = Some a ->
        (Ieee.timeToMinutes numberOf (Ieee.time a)
         <=? Ieee.timeToMinutes numberOf tp) = false)
  /\ (forall i a b,
        nth_error ps i = Some a -> nth_error ps (S i) = Some b ->
        (Ieee.timeToMinutes numberOf (Ieee.time b)
         <=? Ieee.timeToMinutes numberOf (Ieee.time a)) = false).
Proof.
  induction ps as [|p rest IH]; intros prev.
  - cbn [Ieee.validateFrom]. split; [intros _|reflexivity].
    split; [intros p []|]. split.
    + intros tp a _ H. discriminate H.
    + intros i a b H. destruct i; discriminate H.
  - cbn [Ieee.validateFrom].
    destruct (Ieee.time p) as [|c t] eqn:Et.
    + split; [discriminate|]. intros (H & _). exfalso.
      apply (H p); [left; reflexivity|exact Et].
    + assert (Hrest :
        Ieee.validateFrom numberOf (Some (String c t)) rest = None <->
        (forall q, In q rest -> Ieee.time q <> EmptyString)
        /\ (forall i a b,
              nth_error (p :: rest) i = Some a ->
              nth_error (p :: rest) (S i) = Some b ->
              (Ieee.timeToMinutes numberOf (Ieee.time b)
               <=? Ieee.timeToMinutes numberOf (Ieee.time a)) = false)).
      { rewrite IH. split.
        - intros (Hne & Hhead & Hadj). split; [exact Hne|].
          intros i a b Ha Hb. destruct i as [|i].
          + cbn in Ha, Hb. injection Ha as <-. rewrite Et.
            apply (Hhead (String c t) b eq_refl Hb).
          + cbn [nth_error] in Ha, Hb. exact (Hadj i a b Ha Hb).
        - intros (Hne & Hadj). split; [exact Hne|]. split.
          + intros tp a Htp Ha. injection Htp as <-. rewrite <- Et.
            apply (Hadj 0%nat p a); [reflexivity|exact Ha].
          + intros i a b Ha Hb. apply (Hadj (S i) a b); assumption. }
      assert (Hall : (forall q, In q (p :: rest) -> Ieee.time q <> EmptyString)
                     <-> (forall q, In q rest -> Ieee.time q <> EmptyString)).
      { split; intros H q Hq; [apply H; right; exact Hq|].
        destruct Hq as [<-|Hq]; [rewrite Et; discriminate|apply H; exact Hq]. }
      destruct prev as [tp|].
      * destruct (Ieee.timeToMinutes numberOf (String c t)
                  <=? Ieee.timeToMinutes numberOf tp) eqn:E.
        -- split; [discriminate|]. intros (_ & Hhead & _).
           specialize (Hhead tp p eq_refl eq_refl).
           rewrite Et, E in Hhead. discriminate.
        -- rewrite Hrest, Hall. split.
           ++ intros (Hne & Hadj). split; [exact Hne|]. split; [|exact Hadj].
              intros tp' a Htp Ha. injection Htp as <-.
              cbn in Ha. injection Ha as <-. rewrite Et. exact E.
           ++ intros (Hne & _ & Hadj). split; assumption.
      * rewrite Hrest, Hall. split.
        -- intros (Hne & Hadj). split; [exact Hne|].
           split; [intros tp a Htp; discriminate Htp|exact Hadj].
        -- intros (Hne & _ & Hadj). split; assumption.
Qed.

(** [validateTimes] of the form accepts a list exactly when every point
    has a time and no time is at or before the time of the point before
    it, as doubles compare.  Among times that read as numbers that is a
    strict increase; a time that does not read as a number passes the
    comparison with the time before it and with the time after it, so
    that the times 10:00, 9am, 09:00 are accepted. *)
Theorem validated_times_strictly_increase (numberOf : string -> float)
    (ps : list Ieee.Point) :
  let minutes p := Ieee.timeToMinutes numberOf (Ieee.time p) in
  (Ieee.validateTimes numberOf ps = None <->
   (forall p, In p ps -> Ieee.time p <> EmptyString)
   /\ forall i a b,
        nth_error ps i = Some a -> nth_error ps (S i) = Some b ->
        (minutes b <=? minutes a) = false)
  /\ (forall a b : Ieee.Point,
        is_nan (minutes a) = false -> is_nan (minutes b) = false ->
        ((minutes b <=? minutes a) = false
         <-> (minutes a <? minutes b) = true))
  /\ (forall a b : Ieee.Point,
        is_nan (minutes a) = true \/ is_nan (minutes b) = true ->
        (minutes b <=? minutes a) = false)
  /\ map (fun p => is_nan (Ieee.timeToMinutes Ieee.digitsNumber (Ieee.time p)))
         Ieee.oddTimes = [false; true; false]
  /\ Ieee.validateTimes Ieee.digitsNumber Ieee.oddTimes = None.
Proof.
  intros minutes. split; [|split; [|split; [|split]]].
  - unfold Ieee.validateTimes. rewrite validateFrom_accepts. split.
    + intros (Hne & _ & Hadj). split; assumption.
    + intros (Hne & Hadj). split; [exact Hne|].
      split; [intros tp a Htp; discriminate Htp|exact Hadj].
  - intros a b. apply leb_false_numbers.
  - intros a b. apply leb_with_nan.
  - vm_compute. reflexivity.
  - vm_compute. reflexivity.
Qed.

(** The dialog checks a row that has a row before it, or none to have. *)
Lemma someInvalidFrom_total numberOf : forall rest pre,
  exists b,
    Ieee.someInvalidFrom numberOf (pre ++ rest) (List.length pre) rest
    = Some b.
Proof.
  induction rest as [|p rest IH]; intros pre; [exists false; reflexivity|].
  cbn [Ieee.someInvalidFrom].
  assert (Hrow : exists r,
            Ieee.isRowInvalid numberOf (pre ++ p :: rest) p (List.length pre)
            = Some r).
  { unfold Ieee.isRowInvalid.
    destruct (Ieee.isEmpty (ID.rawTime p)
              || is_nan (numberOf (ID.rawValue p))); [eauto|].
    destruct pre as [|q pre] using rev_ind; [cbn; eauto|].
    rewrite length_app, Nat.add_comm. cbn [List.length Nat.add].
    rewrite <- app_assoc, nth_error_app2 by lia.
    rewrite Nat.sub_diag. cbn. eauto. }
  destruct Hrow as ([|] & ->); [eauto|].
  destruct (IH (pre ++ [p])) as (b & Hb).
  rewrite <- app_assoc, length_app, Nat.add_comm in Hb.
  cbn [app List.length Nat.add] in Hb. eauto.
Qed.

Lemma rows_checked_pass numberOf : forall rest pre,
  (forall q, nth_error pre (List.length pre - 1) = Some q ->
             ID.rawTime q <> EmptyString) ->
  Ieee.someInvalidFrom numberOf (pre ++ rest) (List.length pre) rest
  = Some false ->
  (forall r, In r rest ->
     ID.rawTime r <> EmptyString
     /\ is_nan (numberOf (ID.rawValue r)) = false)
  /\ Ieee.validateFrom numberOf
       (option_map ID.rawTime (nth_error pre (List.length pre - 1)))
       (Ieee.cleaned numberOf rest)
     = None.
Proof.
  induction rest as [|p rest IH]; intros pre Hlast H.
  - split; [intros r []|reflexivity].
  - cbn [Ieee.someInvalidFrom] in H.
    destruct (Ieee.isRowInvalid numberOf (pre ++ p :: rest) p (List.length pre))
      as [[|]|] eqn:Erow; try discriminate.
    unfold Ieee.isRowInvalid in Erow.
    destruct (ID.rawTime p) as [|c t] eqn:Et; [discriminate Erow|].
    cbn [Ieee.isEmpty orb] in Erow.
    destruct (is_nan (numberOf (ID.rawValue p))) eqn:En; [discriminate Erow|].
    assert (Elen : List.length (pre ++ [p]) = S (List.length pre))
      by (rewrite length_app; cbn; lia).
    assert (Enth : nth_error (pre ++ [p]) (List.length (pre ++ [p]) - 1)
                   = Some p).
    { rewrite Elen. replace (S (List.length pre) - 1)%nat
        with (List.length pre) by lia.
      rewrite nth_error_app2 by lia. rewrite Nat.sub_diag. reflexivity. }
    destruct (IH (pre ++ [p])) as (Hrows & Hval).
    { intros q Hq. rewrite Enth in Hq. injection Hq as <-.
      rewrite Et. discriminate. }
    { rewrite <- app_assoc, Elen. exact H. }
    rewrite Enth in Hval. cbn [option_map] in Hval. rewrite Et in Hval.
    split.
    + intros r [<-|Hr]; [|apply Hrows; exact Hr].
      split; [rewrite Et; discriminate|exact En].
    + unfold Ieee.cleaned. cbn [map Ieee.validateFrom Ieee.time]. rewrite Et.
      fold (Ieee.cleaned numberOf rest).
      destruct pre as [|q0 pre0] using rev_ind; [exact Hval|].
      clear IHpre0.
      rewrite length_app, Nat.add_comm in Erow |- *.
      cbn [List.length Nat.add Nat.sub] in Erow |- *.
      rewrite Nat.sub_0_r.
      rewrite <- app_assoc, nth_error_app2 in Erow by lia.
      rewrite Nat.sub_diag in Erow. cbn [app nth_error] in Erow.
      rewrite nth_error_app2 by lia. rewrite Nat.sub_diag.
      cbn [nth_error option_map].
      assert (Hq : ID.rawTime q0 <> EmptyString).
      { apply Hlast. rewrite length_app, Nat.add_comm.
        cbn [List.length Nat.add Nat.sub]. rewrite Nat.sub_0_r.
        rewrite nth_error_app2 by lia. rewrite Nat.sub_diag. reflexivity. }
      destruct (ID.rawTime q0) as [|c0 t0] eqn:Eq0; [congruence|].
      unfold Ieee.rowMinutes in Erow. cbn [Ieee.timeToMinutes].
      injection Erow as Erow. rewrite Erow. exact Hval.
Qed.

(** Apply is offered only for rows that the form accepts.  Whatever files
    were parsed and cells edited, the dialog decides whether the button is
    enabled, and a click while it is disabled changes nothing.  Once it is
    enabled the click hands over the rows with their values as numbers,
    none of them [NaN], two rows at least, every one with a time, and
    [validateTimes] of the form finds no error in them: no time is at or
    before the time of the row before it, as doubles compare.  A time
    that does not read as a number, such as a twelve-hour time, passes
    the dialog and the form alike. *)
Theorem import_hands_over_valid_points (numberOf : string -> float)
    (gs : list ID.Gesture) (rows : list ID.ImportPoint) (f : Ieee.Form) :
  ID.handleAll [] gs = Some rows ->
  exists enabled,
    Ieee.applyEnabled numberOf rows = Some enabled
    /\ (enabled = false -> Ieee.apply numberOf f rows = Some f)
    /\ (enabled = true ->
        exists f',
          Ieee.apply numberOf f rows = Some f'
          /\ map Ieee.time (Ieee.formPoints f') = map ID.rawTime rows
          /\ map Ieee.value (Ieee.formPoints f')
             = map (fun r => numberOf (ID.rawValue r)) rows
          /\ (2 <= List.length (Ieee.formPoints f'))%nat
          /\ (forall p, In p (Ieee.formPoints f') ->
                Ieee.time p <> EmptyString /\ is_nan (Ieee.value p) = false)
          /\ Ieee.timeError f' = None
          /\ Ieee.validateTimes numberOf (Ieee.formPoints f') = None
          /\ forall i a b,
               nth_error (Ieee.formPoints f') i = Some a ->
               nth_error (Ieee.formPoints f') (S i) = Some b ->
               (Ieee.timeToMinutes numberOf (Ieee.time b)
                <=? Ieee.timeToMinutes numberOf (Ieee.time a)) = false).
Proof.
  intros Hgs.
  pose proof (dialog_rows_count gs [] rows (or_introl eq_refl) Hgs) as Hcount.
  destruct rows as [|r rows0] eqn:Erows.
  - exists false. split; [reflexivity|].
    split; [reflexivity|discriminate].
  - rewrite <- Erows in *.
    destruct (someInvalidFrom_total numberOf rows []) as (b & Hb).
    cbn [app List.length] in Hb.
    assert (Hen : Ieee.applyEnabled numberOf rows = Some (negb b)).
    { unfold Ieee.applyEnabled, Ieee.hasInvalidRows. rewrite Erows.
      rewrite <- Erows. rewrite Hb. reflexivity. }
    exists (negb b). split; [exact Hen|].
    unfold Ieee.apply. rewrite Hen.
    split; [intros ->; reflexivity|]. intros Eb. rewrite Eb.
    destruct b; [discriminate Eb|].
    destruct (rows_checked_pass numberOf rows []) as (Hrows & Hval).
    { intros q Hq. discriminate Hq. }
    { exact Hb. }
    cbn [List.length Nat.sub nth_error option_map] in Hval.
    eexists. split; [reflexivity|].
    cbn [Ieee.onApply Ieee.formPoints Ieee.timeError].
    assert (Ht : map Ieee.time (Ieee.cleaned numberOf rows)
                 = map ID.rawTime rows).
    { unfold Ieee.cleaned. rewrite map_map. reflexivity. }
    assert (Hv : map Ieee.value (Ieee.cleaned numberOf rows)
                 = map (fun r => numberOf (ID.rawValue r)) rows).
    { unfold Ieee.cleaned. rewrite map_map. reflexivity. }
    split; [exact Ht|]. split; [exact Hv|]. split.
    { unfold Ieee.cleaned. rewrite length_map.
      destruct Hcount as [Hc|Hc]; [rewrite Erows in Hc; discriminate|exact Hc]. }
    split.
    { intros p Hp. unfold Ieee.cleaned in Hp. apply in_map_iff in Hp.
      destruct Hp as (row & <- & Hrow). cbn [Ieee.time Ieee.value].
      apply Hrows. exact Hrow. }
    split; [exact Hval|]. split; [exact Hval|].
    apply (validateFrom_accepts numberOf (Ieee.cleaned numberOf rows) None).
    exact Hval.
Qed.

(** A file whose second row misses its value, which is then typed, and
    whose second time is a twelve-hour time. *)
Lemma import_hands_over_valid_points_witness :
  exists f',
    ID.handleAll []
      [ID.FileParsed [ID.mkImport "12" "10:00"; ID.mkImport "x" "10:00 AM";
                      ID.mkImport "9" "09:30"];
       ID.CellEdited 1 ID.ValueCell "7"]
    = Some Ieee.oddRows
    /\ Ieee.applyEnabled Ieee.digitsNumber Ieee.oddRows = Some true
    /\ Ieee.apply Ieee.digitsNumber (Ieee.mkForm [] None) Ieee.oddRows
       = Some f'
    /\ map Ieee.time (Ieee.formPoints f') = ["10:00"; "10:00 AM"; "09:30"]%string
    /\ Ieee.timeError f' = None.
Proof.
  assert (Hgs : ID.handleAll []
            [ID.FileParsed [ID.mkImport "12" "10:00";
                            ID.mkImport "x" "10:00 AM";
                            ID.mkImport "9" "09:30"];
             ID.CellEdited 1 ID.ValueCell "7"]
          = Some Ieee.oddRows) by reflexivity.
  assert (Hen : Ieee.applyEnabled Ieee.digitsNumber Ieee.oddRows = Some true)
    by (vm_compute; reflexivity).
  destruct (import_hands_over_valid_points Ieee.digitsNumber _ _
              (Ieee.mkForm [] None) Hgs)
    as (enabled & Hen' & _ & Hon).
  rewrite Hen in Hen'. injection Hen' as <-.
  destruct (Hon eq_refl) as (f' & Ha & Ht & _ & _ & _ & He & _).
  exists f'. split; [exact Hgs|]. split; [exact Hen|].
  split; [exact Ha|]. split; [exact Ht|exact He].
Defined.

End Doubles.
